(** * EITLanding: the laser-writing canvas effect

    A shallow embedding of the two render variants of the repository:

    - [Beam]  : the continuous-beam version (src/app.js), called version 2;
    - [Sweep] : the reveal-sweep version (src/unnamed/part_000), version 1.

    JavaScript numbers are idealised as exact rationals ([Q]); array indices
    that the code only ever initialises to zero and increments are naturals,
    and [revealCount], which only ever receives zero or itself plus a floored
    amount, capped by a length, is an integer.
    [Math.hypot(dx,dy) >= r] with [r >= 0] is rendered as
    [r*r <= dx*dx + dy*dy], which is the same comparison on the reals.
    Canvas drawing calls that only paint the visible frame are left out; the
    persistent off-screen buffer ([gctx]) is kept as the list of marks stamped
    since it was last cleared. *)

From Stdlib Require Import QArith Qminmax Qround ZArith List Bool Lia Lqa.
From Stdlib Require Import Permutation Sorted.
From Stdlib Require String.
Import ListNotations.

(** ** Outcomes of a run

    [TypeError] is what reading a property of [undefined] raises, that is what
    an out-of-range array read followed by [.x] does.  [OutOfFuel] only says
    that the fuel given to a [while] loop did not suffice. *)

Inductive Result (A : Type) : Type :=
| Ok (a : A)
| TypeError
| OutOfFuel.

Arguments Ok {A} a.
Arguments TypeError {A}.
Arguments OutOfFuel {A}.

Definition bind {A B : Type} (r : Result A) (k : A -> Result B) : Result B :=
  match r with
  | Ok a => k a
  | TypeError => TypeError
  | OutOfFuel => OutOfFuel
  end.

Notation "x <- r ;; k" := (bind r (fun x => k))
  (at level 61, r at next level, right associativity).

(** [l[i]] followed by a property access. *)
Definition readAt {A : Type} (l : list A) (i : nat) : Result A :=
  match nth_error l i with
  | Some a => Ok a
  | None => TypeError
  end.

(** ** Numbers and points *)

Definition Qltb (a b : Q) : bool := negb (Qle_bool b a).

Record Point : Type := mkPoint { px : Q; py : Q }.

Definition origin : Point := mkPoint 0 0.

(** [lerp(a,b,t)] *)
Definition lerp (a b t : Q) : Q := a + (b - a) * t.

(** Squared Euclidean distance, [dx*dx + dy*dy]. *)
Definition dist2 (a b : Point) : Q :=
  let dx := px a - px b in
  let dy := py a - py b in
  dx * dx + dy * dy.

(** [dist(a,b) >= r] for a non-negative constant [r]. *)
Definition distGe (a b : Point) (r : Q) : bool := Qle_bool (r * r) (dist2 a b).

(** ** Version 2: continuous beam (src/app.js) *)

Module Beam.

(** The entries of [CONFIG] that the traversal reads. *)
Definition pointsPerSecond : Q := 2000.
Definition tailLength : nat := 60.
Definition tailStepMin : Q := 1.4.

Record Letter : Type := mkLetter { points : list Point }.

(** *** Path ordering inside [buildLetters] (lines 160-196) *)

(** [pts[i].y < pts[start].y || (pts[i].y === pts[start].y && pts[i].x < pts[start].x)] *)
Definition before (p q : Point) : bool :=
  Qltb (py p) (py q) || (Qeq_bool (py p) (py q) && Qltb (px p) (px q)).

(** The loop of line 165, over the indices [idxs]. *)
Fixpoint pickStart (pts : list Point) (idxs : list nat) (start : nat) : nat :=
  match idxs with
  | [] => start
  | i :: idxs' =>
      if before (nth i pts origin) (nth start pts origin)
      then pickStart pts idxs' i
      else pickStart pts idxs' start
  end.

(** [used[j] = true] *)
Fixpoint mark (used : list bool) (j : nat) : list bool :=
  match used, j with
  | [], _ => []
  | _ :: u, O => true :: u
  | b :: u, S j' => b :: mark u j'
  end.

(** The inner loop of lines 179-187 over the indices [js]; [best = -1] is
    [None]. *)
Fixpoint scan (pts : list Point) (used : list bool) (c : Point)
         (js : list nat) (best : option nat) (bestD : Q) : option nat * Q :=
  match js with
  | [] => (best, bestD)
  | j :: js' =>
      if nth j used false then scan pts used c js' best bestD
      else
        let d := dist2 (nth j pts origin) c in
        if Qltb d bestD then scan pts used c js' (Some j) d
        else scan pts used c js' best bestD
  end.

Definition sentinel : Q := 1e18.

Definition nearest (pts : list Point) (used : list bool) (cur : nat) : option nat :=
  fst (scan pts used (nth cur pts origin) (seq 0 (length pts)) None sentinel).

(** The outer loop of lines 174-192, [k] iterations left. *)
Fixpoint chain (pts : list Point) (k : nat) (used : list bool) (cur : nat)
         (ordered : list Point) : list Point :=
  match k with
  | O => ordered
  | S k' =>
      match nearest pts used cur with
      | None => ordered
      | Some best =>
          chain pts k' (mark used best) best (ordered ++ [nth best pts origin])
      end
  end.

(** What is pushed as [points] for one character whose samples are [pts]. *)
Definition orderLetter (pts : list Point) : list Point :=
  if (2 <? length pts)%nat then
    let start := pickStart pts (seq 1 (length pts - 1)) 0 in
    chain pts (length pts - 1) (mark (repeat false (length pts)) start) start
          [nth start pts origin]
  else pts.

(** *** Traversal state (lines 69-74) and the written buffer *)

Record State : Type := mkState {
  letters : list Letter;
  curL : nat;
  curIdx : nat;
  curT : Q;
  tip : option Point;
  tail : list Point;
  ink : list Point
}.

(** The end of [buildLetters] (lines 203-206): buffer cleared, draw state
    reset. *)
Definition resetDraw (ls : list Letter) : State :=
  mkState ls 0 0 0 None [] [].

(** [samples] are the sampled points of each non-space character, in the
    order of the text. *)
Definition buildLetters (samples : list (list Point)) : State :=
  resetDraw (map (fun pts => mkLetter (orderLetter pts)) samples).

(** [burnPoint(p)]: stamps [p] into the persistent buffer. *)
Definition burnPoint (p : Point) (s : State) : State :=
  mkState (letters s) (curL s) (curIdx s) (curT s) (tip s) (tail s) (ink s ++ [p]).

(** [pushTail(p)] on the tail list (lines 328-338); the newest entry is last. *)
Definition pushTailList (p : Point) (t : list Point) : list Point :=
  match t with
  | [] => [p]
  | _ :: _ =>
      if distGe (last t p) p tailStepMin then
        let t' := t ++ [p] in
        if (tailLength <? length t')%nat then tl t' else t'
      else t
  end.

Definition pushTail (p : Point) (s : State) : State :=
  mkState (letters s) (curL s) (curIdx s) (curT s) (tip s)
          (pushTailList p (tail s)) (ink s).

Definition setTip (p : Point) (s : State) : State :=
  mkState (letters s) (curL s) (curIdx s) (curT s) (Some p) (tail s) (ink s).

Definition setProgress (i : nat) (t : Q) (s : State) : State :=
  mkState (letters s) (curL s) i t (tip s) (tail s) (ink s).

Definition setCurL (l : nat) (s : State) : State :=
  mkState (letters s) l (curIdx s) (curT s) (tip s) (tail s) (ink s).

(** [curL++; curIdx=0; curT=0; tip=null; tail=[];] *)
Definition nextLetter (s : State) : State :=
  mkState (letters s) (S (curL s)) 0 0 None [] (ink s).

(** [letters[curL].points.length < 2]; [points] is always an array, so the
    [!letters[curL].points] disjunct is never taken. *)
Definition tooShort (L : Letter) : bool := (length (points L) <? 2)%nat.

(** The loop of lines 342-344. *)
Fixpoint skipReset (fuel : nat) (s : State) : Result State :=
  match fuel with
  | O => OutOfFuel
  | S f =>
      if (curL s <? length (letters s))%nat then
        L <- readAt (letters s) (curL s) ;;
        if tooShort L then skipReset f (nextLetter s) else Ok s
      else Ok s
  end.

(** The loop of lines 368-370. *)
Fixpoint skipOnly (fuel : nat) (s : State) : Result State :=
  match fuel with
  | O => OutOfFuel
  | S f =>
      if (curL s <? length (letters s))%nat then
        L <- readAt (letters s) (curL s) ;;
        if tooShort L then skipOnly f (setCurL (S (curL s)) s) else Ok s
      else Ok s
  end.

(** Lines 375-392: one interpolation step inside letter [pts2]. *)
Definition segmentStep (pts2 : list Point) (remaining : Q) (s : State)
  : Result (Q * State) :=
  let step := Qmin (1 - curT s) remaining in
  let t := curT s + step in
  let remaining' := remaining - step in
  a <- readAt pts2 (curIdx s) ;;
  b <- readAt pts2 (S (curIdx s)) ;;
  let p := mkPoint (lerp (px a) (px b) t) (lerp (py a) (py b) t) in
  let s1 := pushTail p (setTip p (burnPoint p (setProgress (curIdx s) t s))) in
  if Qle_bool 1 t
  then Ok (remaining', setProgress (S (curIdx s)) 0 s1)
  else Ok (remaining', s1).

(** The loop of lines 362-393. *)
Fixpoint moveLoop (fuel : nat) (remaining : Q) (s : State) : Result State :=
  match fuel with
  | O => OutOfFuel
  | S f =>
      if Qltb 0 remaining && (curL s <? length (letters s))%nat then
        L <- readAt (letters s) (curL s) ;;
        let pts2 := points L in
        if (Z.of_nat (length pts2) - 1 <=? Z.of_nat (curIdx s))%Z then
          s1 <- skipOnly f (nextLetter s) ;;
          if (length (letters s1) <=? curL s1)%nat then Ok s1
          else moveLoop f remaining s1
        else
          rs <- segmentStep pts2 remaining s ;;
          moveLoop f (fst rs) (snd rs)
      else Ok s
  end.

(** Lines 350-356. *)
Definition initTip (pts : list Point) (s : State) : Result State :=
  match tip s with
  | Some _ => Ok s
  | None =>
      p0 <- readAt pts 0 ;;
      Ok (setProgress 0 0 (pushTail p0 (burnPoint p0 (setTip p0 s))))
  end.

Definition advanceTipFuel (fuel : nat) (dt : Q) (s : State) : Result State :=
  s1 <- skipReset fuel s ;;
  if (length (letters s1) <=? curL s1)%nat then Ok s1
  else
    L <- readAt (letters s1) (curL s1) ;;
    s2 <- initTip (points L) s1 ;;
    moveLoop fuel (pointsPerSecond * dt) s2.

(** Iterations that the loops of one call can need: one per point and one per
    letter, plus the two closing tests. *)
Definition weight (ls : list Letter) : nat :=
  fold_right (fun L n => S (length (points L)) + n)%nat 0%nat ls.

Definition fuelBound (s : State) : nat := 2 + weight (letters s).

Definition advanceTip (dt : Q) (s : State) : Result State :=
  advanceTipFuel (fuelBound s) dt s.

(** States that a page can be in: the draw state as [buildLetters] leaves
    it, over whatever letters, then advanced by frames. *)
Inductive Reachable : State -> Prop :=
| reach_build (ls : list Letter) : Reachable (resetDraw ls)
| reach_frame (s s' : State) (dt : Q) :
    Reachable s -> advanceTip dt s = Ok s' -> Reachable s'.

(** Frames one after the other. *)
Fixpoint frames (dts : list Q) (s : State) : Result State :=
  match dts with
  | [] => Ok s
  | dt :: dts' => s' <- advanceTip dt s ;; frames dts' s'
  end.

End Beam.

(** ** Version 1: reveal sweep (src/unnamed/part_000) *)

Module Sweep.

(** The entries of [CONFIG] that the reveal reads. *)
Definition sampleStep : Q := 4.
Definition revealRate : Q := 900.
Definition sweepSpeed : Q := 1200.

(** *** Path ordering inside [buildTextPoints] (lines 150-157) *)

(** [Math.floor(p.y/step)] *)
Definition row (p : Point) : Z := Qfloor (py p / sampleStep).

(** The comparator handed to [pts.sort]; [%] is JavaScript's remainder, which
    truncates ([Z.rem]). *)
Definition scanCmp (p q : Point) : Q :=
  let byRow := (row p - row q)%Z in
  if negb (byRow =? 0)%Z then inject_Z byRow
  else if (Z.rem (row p) 2 =? 0)%Z then px p - px q
  else px q - px p.

(** [Array.prototype.sort] is not part of the repository; it is taken to be
    a stable insertion sort driven by the comparator. *)
Fixpoint insertBy (cmp : Point -> Point -> Q) (p : Point) (l : list Point)
  : list Point :=
  match l with
  | [] => [p]
  | q :: r => if Qle_bool (cmp p q) 0 then p :: q :: r else q :: insertBy cmp p r
  end.

Definition sortBy (cmp : Point -> Point -> Q) (l : list Point) : list Point :=
  fold_right (insertBy cmp) [] l.

Definition scanlineOrder (pts : list Point) : list Point := sortBy scanCmp pts.

(** *** State (lines 68-70 and 188-191) and the glow buffer *)

Record Bounds : Type := mkBounds { minX : Q; minY : Q; maxX : Q; maxY : Q; fs : Q }.

(** What has been painted on the glow buffer since it was last cleared. *)
Inductive Mark : Type :=
| Fade               (* [fadeGlow()] *)
| Dot (p : Point).   (* core and halo of one revealed point *)

Record State : Type := mkState {
  textPoints : list Point;
  revealCount : Z;
  textBounds : option Bounds;
  last : Q;
  sweepX : Q;
  sweepDir : Q;
  completedAt : Q;
  glow : list Mark
}.

(** What one frame paints on the visible canvas from the text state. *)
Record Frame : Type := mkFrame {
  beamX : option Q;
  hotspot : option Point;
  shimmer : bool
}.

(** Lines 132-146: the bounding box, folded over the samples. *)
Definition boundsOf (pts : list Point) (fontSize : Q) : Bounds :=
  fold_left
    (fun b p =>
       mkBounds (if Qltb (px p) (minX b) then px p else minX b)
                (if Qltb (py p) (minY b) then py p else minY b)
                (if Qltb (maxX b) (px p) then px p else maxX b)
                (if Qltb (maxY b) (py p) then py p else maxY b)
                (fs b))
    pts (mkBounds 1e9 1e9 (-1e9) (-1e9) fontSize).

(** The state once [buildTextPoints] and [resizeGlow] have run on the samples
    [pts] and the animation variables are initialised at time [t0]. *)
Definition buildTextPoints (pts : list Point) (fontSize t0 : Q) : State :=
  mkState (scanlineOrder pts) 0 (Some (boundsOf pts fontSize)) t0 0 1 0 [].

(** [textPoints[i]] followed by [.x]. *)
Definition readAtZ (l : list Point) (i : Z) : Result Point :=
  if (i <? 0)%Z then TypeError else readAt l (Z.to_nat i).

(** Lines 258-271: [n] iterations from index [i]. *)
Fixpoint stamp (tp : list Point) (n : nat) (i : Z) (g : list Mark)
  : Result (list Mark) :=
  match n with
  | O => Ok g
  | S n' => p <- readAtZ tp i ;; stamp tp n' (i + 1)%Z (g ++ [Dot p])
  end.

Definition len (s : State) : Z := Z.of_nat (length (textPoints s)).

(** Lines 252-255. *)
Definition reveal (dt : Q) (s : State) : Z :=
  if (len s =? 0)%Z then revealCount s
  else Z.min (len s) (revealCount s + Qfloor (revealRate * dt)).

(** [revealCount / (textPoints.length || 1)] *)
Definition progress (rc : Z) (s : State) : Q :=
  inject_Z rc / inject_Z (if (len s =? 0)%Z then 1 else len s).

(** Line 313. *)
Definition hotIndex (rc : Z) (s : State) : Z :=
  Z.min (len s - 1) (Qfloor (inject_Z rc)).

(** Line 314: [idx >= 0 && textPoints[idx]]. *)
Definition hotRead (rc : Z) (s : State) : option Point :=
  if (0 <=? hotIndex rc s)%Z then nth_error (textPoints s) (Z.to_nat (hotIndex rc s))
  else None.

(** Lines 283-288. *)
Definition sweep (range dt : Q) (s : State) : Q * Q :=
  let x := sweepX s + sweepDir s * sweepSpeed * dt in
  if Qltb range x then (range, -1)
  else if Qltb x 0 then (0, 1)
  else (x, sweepDir s).

(** Line 194. *)
Definition frameDt (now : Q) (s : State) : Q :=
  Qmin 0.033 ((now - last s) / 1000).

Definition step (now : Q) (s : State) : Result (State * Frame) :=
  let dt := frameDt now s in
  let g0 := glow s ++ [Fade] in
  let rc := reveal dt s in
  let from := Z.max 0 (rc - 2500) in
  g1 <- stamp (textPoints s) (Z.to_nat (rc - from)) from g0 ;;
  match textBounds s with
  | None =>
      Ok (mkState (textPoints s) rc None now (sweepX s) (sweepDir s)
                  (completedAt s) g1,
          mkFrame None None false)
  | Some tb =>
      let lo := minX tb - 40 in
      let hi := maxX tb + 40 in
      let range := if Qeq_bool (hi - lo) 0 then 1 else hi - lo in
      let sw := sweep range dt s in
      let hot := hotRead rc s in
      if Qle_bool 1 (progress rc s) then
        let c := if Qeq_bool (completedAt s) 0 then now else completedAt s in
        let since := (now - c) / 1000 in
        if Qltb 14 since then
          Ok (mkState (textPoints s) 0 (Some tb) now (fst sw) (snd sw) 0 [],
              mkFrame (Some (lo + fst sw)) hot true)
        else
          Ok (mkState (textPoints s) rc (Some tb) now (fst sw) (snd sw) c g1,
              mkFrame (Some (lo + fst sw)) hot true)
      else
        Ok (mkState (textPoints s) rc (Some tb) now (fst sw) (snd sw) 0 g1,
            mkFrame (Some (lo + fst sw)) hot false)
  end.

(** A [resize] event (lines 33-42 and 168-175).  Its two listeners run one
    after the other with no frame in between: [resize], which ends in
    [buildTextPoints], and [resizeGlow], which clears the glow buffer.  The
    text is sampled anew ([pts] are the samples of the new layout),
    [revealCount] goes back to zero and [textBounds] is replaced; [last],
    [sweepX], [sweepDir] and [completedAt] are not touched. *)
Definition resize (pts : list Point) (fontSize : Q) (s : State) : State :=
  mkState (scanlineOrder pts) 0 (Some (boundsOf pts fontSize))
          (last s) (sweepX s) (sweepDir s) (completedAt s) [].

(** States of a running page: built once, then stepped by frames with
    [dt >= 0] and resized at any time between two frames.  The state that
    [buildTextPoints] describes is the one the top-level statements of the
    script are written to set up; the call [resize()] of line 48 comes
    before [off] is initialised in line 72. *)
Inductive Reachable : State -> Prop :=
| reach_build (pts : list Point) (fontSize t0 : Q) :
    Reachable (buildTextPoints pts fontSize t0)
| reach_resize (s : State) (pts : list Point) (fontSize : Q) :
    Reachable s -> Reachable (resize pts fontSize s)
| reach_step (s s' : State) (fr : Frame) (now : Q) :
    Reachable s -> 0 <= frameDt now s -> step now s = Ok (s', fr) -> Reachable s'.

(** States with no resize since the last frame: the one the page is built
    in, and those that come out of a frame. *)
Inductive Settled : State -> Prop :=
| settled_build (pts : list Point) (fontSize t0 : Q) :
    Settled (buildTextPoints pts fontSize t0)
| settled_step (s s' : State) (fr : Frame) (now : Q) :
    Reachable s -> 0 <= frameDt now s -> step now s = Ok (s', fr) -> Settled s'.

(** A state in which the text has been fully revealed: two samples, built at
    time 1000 and stepped once at time 1016. *)
Definition revealedState : State :=
  mkState [mkPoint 0 0; mkPoint 4 0] 2
          (Some (mkBounds 0 0 4 0 40)) 1016 19.200 1 1016
          [Fade; Dot (mkPoint 0 0); Dot (mkPoint 4 0)].

End Sweep.

(** ** Properties the traversal is checked against *)

(** Every two consecutive entries are at least [r] apart. *)
Fixpoint spaced (r : Q) (t : list Point) : Prop :=
  match t with
  | a :: (b :: _) as t' => r * r <= dist2 a b /\ spaced r t'
  | _ => True
  end.

(** A greedy nearest-neighbour chain: each element is followed by one of the
    remaining elements that is nearest to it. *)
Fixpoint nnChain (l : list Point) : Prop :=
  match l with
  | p :: (q :: _) as l' =>
      (forall r, In r l' -> dist2 q p <= dist2 r p) /\ nnChain l'
  | _ => True
  end.

(** [p] is not after [q] when points are compared by [y], then by [x]. *)
Definition lexle (p q : Point) : Prop :=
  py p < py q \/ (py p == py q /\ px p <= px q).

(** The points of [pts] whose flag in [used] is not set. *)
Fixpoint unvisited (pts : list Point) (used : list bool) : list Point :=
  match pts, used with
  | [], _ => []
  | p :: ps, [] => p :: unvisited ps []
  | p :: ps, u :: us => if u then unvisited ps us else p :: unvisited ps us
  end.

(** All points of a character lie in a raster box whose diagonal is below
    the search sentinel of the chaining loop ([1e9] pixels). *)
Definition inBox (pts : list Point) : Prop :=
  forall p q, In p pts -> In q pts -> dist2 p q < Beam.sentinel.

(** [p] has the smallest [y] of [pts] and, among those, the smallest [x]. *)
Definition topLeft (p : Point) (pts : list Point) : Prop :=
  forall q, In q pts -> lexle p q.

(** [out] is the greedy nearest-neighbour chain of [pts] started at its
    top-left point. *)
Definition greedyChainOf (pts out : list Point) : Prop :=
  Permutation pts out /\
  (forall p, hd_error out = Some p -> topLeft p pts) /\
  nnChain out.

(** Replaces the sampled points of every letter that has fewer than two of
    them by none at all. *)
Definition blank (L : Beam.Letter) : Beam.Letter :=
  if Beam.tooShort L then Beam.mkLetter [] else L.

Definition blankState (s : Beam.State) : Beam.State :=
  Beam.mkState (map blank (Beam.letters s)) (Beam.curL s) (Beam.curIdx s)
               (Beam.curT s) (Beam.tip s) (Beam.tail s) (Beam.ink s).

Definition mapResult {A B : Type} (f : A -> B) (r : Result A) : Result B :=
  match r with
  | Ok a => Ok (f a)
  | TypeError => TypeError
  | OutOfFuel => OutOfFuel
  end.

(** The letter under the beam, if any, has at least two points. *)
Definition onDrawable (s : Beam.State) : Prop :=
  (length (Beam.letters s) <= Beam.curL s)%nat \/
  exists L, nth_error (Beam.letters s) (Beam.curL s) = Some L /\
            (2 <= length (Beam.points L))%nat.

(** The fractional progress is a proper fraction. *)
Definition unitT (s : Beam.State) : Prop :=
  0 <= Beam.curT s /\ Beam.curT s < 1.

(** What the traversal loop still has ahead of it: the points left in the
    letter under the beam and everything in the letters after it. *)
Definition pending (s : Beam.State) : nat :=
  match nth_error (Beam.letters s) (Beam.curL s) with
  | Some L =>
      S (length (Beam.points L) - Beam.curIdx s) +
      Beam.weight (skipn (S (Beam.curL s)) (Beam.letters s))
  | None => 0
  end.

(** The measure that every iteration of the traversal loop decreases: an
    iteration uses up the budget, moves to the next point or moves to a later
    letter. *)
Definition measure (remaining : Q) (s : Beam.State) : nat :=
  (if Qltb 0 remaining then 1 else 0) + pending s.

(** What holds of the reveal in every state of a running page. *)
Definition revealInv (s : Sweep.State) : Prop :=
  Sweep.textBounds s <> None /\
  (0 <= Sweep.revealCount s <= Sweep.len s)%Z /\
  (Qeq_bool (Sweep.completedAt s) 0 = false -> (0 < Sweep.len s)%Z).

(** ** The frame driver of version 2 (src/app.js, lines 441-456) *)

Module Driver.

(** The draw state together with the time of the previous frame. *)
Record Page : Type := mkPage { last : Q; state : Beam.State }.

(** Line 443. *)
Definition frameDt (t : Q) (pg : Page) : Q := Qmin 0.05 ((t - last pg) / 1000).

(** [frame(t)]: what it does to the draw state; painting the background,
    compositing the written buffer and rendering the tail read the state
    and leave it as it is. *)
Definition frame (t : Q) (pg : Page) : Result Page :=
  s' <- Beam.advanceTip (frameDt t pg) (state pg) ;;
  Ok (mkPage t s').

End Driver.

(** ** How far the beam still has to go *)

(** The segments of a letter: one between every two consecutive points. *)
Definition segments (L : Beam.Letter) : Q :=
  inject_Z (Z.of_nat (length (Beam.points L) - 1)).

Definition segmentsOf (ls : list Beam.Letter) : Q :=
  fold_right (fun L q => segments L + q) 0 ls.

(** Point units between the beam and the end of the text: what is left of
    the letter under the beam and all segments of the letters after it. *)
Definition unitsLeft (s : Beam.State) : Q :=
  match nth_error (Beam.letters s) (Beam.curL s) with
  | None => 0
  | Some L =>
      (if (Z.of_nat (Beam.curIdx s) <? Z.of_nat (length (Beam.points L)) - 1)%Z
       then segments L - inject_Z (Z.of_nat (Beam.curIdx s)) - Beam.curT s
       else 0)
      + segmentsOf (skipn (S (Beam.curL s)) (Beam.letters s))
  end.

(** Without a tip the draw state is the freshly reset one. *)
Definition tipInv (s : Beam.State) : Prop :=
  (Beam.tip s = None -> Beam.curIdx s = 0%nat /\ Beam.curT s = 0 /\ Beam.tail s = []) /\
  (Beam.tail s = [] -> Beam.tip s = None).

(** [p] lies in the bounding box of [pts]. *)
Definition inHull (p : Point) (pts : list Point) : Prop :=
  (exists a b, In a pts /\ In b pts /\ px a <= px p <= px b) /\
  (exists a b, In a pts /\ In b pts /\ py a <= py p <= py b).

(** What holds of the draw state between two calls. *)
Definition drawInv (s : Beam.State) : Prop :=
  tipInv s /\ unitT s /\
  (length (Beam.tail s) <= Beam.tailLength)%nat /\
  spaced Beam.tailStepMin (Beam.tail s).

(** [s] is [s0] moved on: same letters, the written buffer extended, the beam
    on a later letter or on the same letter not before where it was. *)
Definition ahead (s0 s : Beam.State) : Prop :=
  Beam.letters s = Beam.letters s0 /\
  (exists added, Beam.ink s = Beam.ink s0 ++ added) /\
  ((Beam.curL s0 < Beam.curL s)%nat \/
   (Beam.curL s = Beam.curL s0 /\ (Beam.curIdx s0 <= Beam.curIdx s)%nat)).

(** The tip and everything written lie in the bounding box of the points of
    a letter. *)
Definition hullInv (s : Beam.State) : Prop :=
  (forall p, Beam.tip s = Some p ->
     exists L, nth_error (Beam.letters s) (Beam.curL s) = Some L /\
               inHull p (Beam.points L)) /\
  (forall p, In p (Beam.ink s) ->
     exists L, In L (Beam.letters s) /\ inHull p (Beam.points L)).

(** The time a list of frames spans. *)
Definition total (dts : list Q) : Q := fold_right Qplus 0 dts.

(** ** The order of version 1 *)

(** [p] comes no later than [q] in the serpentine scan: on an earlier row,
    or on the same row and not after it in the direction of that row (left
    to right on even rows, right to left on odd ones). *)
Definition serpentine (p q : Point) : Prop :=
  (Sweep.row p < Sweep.row q)%Z \/
  (Sweep.row p = Sweep.row q /\
   if (Z.rem (Sweep.row p) 2 =? 0)%Z then px p <= px q else px q <= px p).

(** [b] encloses [p]. *)
Definition encloses (b : Sweep.Bounds) (p : Point) : Prop :=
  Sweep.minX b <= px p /\ px p <= Sweep.maxX b /\
  Sweep.minY b <= py p /\ py p <= Sweep.maxY b.

(** ** Text layout, shared by both versions *)

Module Layout.
Import String.

(** [clamp(v,a,b)] *)
Definition clamp (v a b : Q) : Q := Qmax a (Qmin b v).

(** The font size of version 2 (src/app.js line 96) and of version 1
    (part_000 line 102), from the viewport width. *)
Definition fontSize2 (w : Q) : Q := clamp (inject_Z (Qfloor (w * 0.082))) 30 96.
Definition fontSize1 (w : Q) : Q := clamp (inject_Z (Qfloor (w * 0.090))) 34 110.

Section Wrap.

(** [offCtx.measureText(s).width] under the font in use: whatever the
    browser answers. *)
Variable measure : string -> Q.
Variable maxWidth : Q.

(** The loop of [splitLines] over the words left, with the line being filled
    and the lines already closed. *)
Fixpoint wrap (words : list string) (line : string) (lines : list string)
  : list string :=
  match words with
  | [] => if (line =? "")%string then lines else (lines ++ [line])%list
  | word :: rest =>
      let test := if (line =? "")%string then word
                  else (line ++ " " ++ word)%string in
      if Qle_bool (measure test) maxWidth || (line =? "")%string
      then wrap rest test lines
      else wrap rest word (lines ++ [line])%list
  end.

(** [splitLines], from the words that [str.split(/\s+/).filter(Boolean)]
    yields. *)
Definition splitLines (words : list string) : list string := wrap words "" [].

End Wrap.

(** The text a list of lines or of words spells, with single spaces. *)
Definition spell (l : list string) : string := String.concat " " l.

(** The line being filled, if one has been started. *)
Definition pendingLine (line : string) : list string :=
  if (line =? "")%string then [] else [line].

End Layout.

(** ** Glyph sampling *)

Module Sampler.

(** [rnd(a,b)], with [u] what [Math.random()] returned. *)
Definition rnd (a b u : Q) : Q := a + u * (b - a).

(** The values a loop [for (v = 0; v < n; v += step)] gives [v]. *)
Definition strides (step n : nat) : list nat :=
  map (fun k => (k * step)%nat) (seq 0 ((n + step - 1) / step)).

(** The pixels the two nested loops visit, row by row. *)
Definition pixels (step width height : nat) : list (nat * nat) :=
  flat_map (fun yy => map (fun xx => (xx, yy)) (strides step width))
           (strides step height).

(** [img[(yy*width + xx)*4 + 3]]; a read past the data yields [undefined],
    which is not above any threshold. *)
Definition alphaAt (img : list Z) (width xx yy : nat) : Z :=
  nth ((yy * width + xx) * 4 + 3) img 0%Z.

(** The body of the nested loops: a pixel whose alpha exceeds 12 yields one
    point, placed by [place] from the pixel and two fresh random numbers;
    [n] random numbers have been drawn so far. *)
Fixpoint scanPixels (img : list Z) (width : nat)
         (place : nat -> nat -> Q -> Q -> Point)
         (rand : nat -> Q) (pxs : list (nat * nat)) (n : nat) : list Point :=
  match pxs with
  | [] => []
  | (xx, yy) :: rest =>
      if (12 <? alphaAt img width xx yy)%Z
      then place xx yy (rand n) (rand (S n))
           :: scanPixels img width place rand rest (S (S n))
      else scanPixels img width place rand rest n
  end.

(** Version 2, lines 142-158: the samples of one character, rasterised in a
    box of [boxW] by [boxH] pixels with padding [pad], drawn at [(x, y)];
    [CONFIG.sampleStep] is 1. *)
Definition placeChar (x y pad : Q) (boxH : nat) (xx yy : nat) (u v : Q) : Point :=
  mkPoint (x + (inject_Z (Z.of_nat xx) - pad) + rnd (-0.25) 0.25 u)
          (y + (inject_Z (Z.of_nat yy) - inject_Z (Z.of_nat boxH) / 2)
             + rnd (-0.25) 0.25 v).

Definition sampleChar (img : list Z) (boxW boxH : nat) (x y pad : Q)
           (rand : nat -> Q) : list Point :=
  scanPixels img boxW (placeChar x y pad boxH) rand (pixels 1 boxW boxH) 0.

(** Version 1, lines 131-148: the samples of the whole text block;
    [CONFIG.sampleStep] is 4. *)
Definition placeText (xx yy : nat) (u v : Q) : Point :=
  mkPoint (inject_Z (Z.of_nat xx) + rnd (-0.6) 0.6 u)
          (inject_Z (Z.of_nat yy) + rnd (-0.6) 0.6 v).

Definition sampleText (img : list Z) (width height : nat) (rand : nat -> Q)
  : list Point :=
  scanPixels img width placeText rand (pixels 4 width height) 0.

(** What [Math.random] promises. *)
Definition unitRandom (rand : nat -> Q) : Prop :=
  forall n, 0 <= rand n /\ rand n < 1.

(** The pixels of the grid whose alpha exceeds the threshold. *)
Definition opaque (img : list Z) (width : nat) (pxs : list (nat * nat))
  : list (nat * nat) :=
  filter (fun xy => (12 <? alphaAt img width (fst xy) (snd xy))%Z) pxs.

End Sampler.

(** ** Background particles of version 1 (part_000, lines 50-65, 208-215) *)

Module Particles.

Definition particleCount : nat := 160.
Definition particleMaxSpeed : Q := 0.65.

Record Particle : Type := mkParticle {
  x : Q; y : Q; vx : Q; vy : Q; r : Q; hue : Q
}.

(** [initParticles()]: six random numbers per particle, the first [n] of the
    stream being used already. *)
Fixpoint spawn (w h : Q) (rand : nat -> Q) (count n : nat) : list Particle :=
  match count with
  | O => []
  | S c =>
      mkParticle (Sampler.rnd 0 w (rand n))
                 (Sampler.rnd 0 h (rand (n + 1)%nat))
                 (Sampler.rnd (- particleMaxSpeed) particleMaxSpeed (rand (n + 2)%nat))
                 (Sampler.rnd (- particleMaxSpeed) particleMaxSpeed (rand (n + 3)%nat))
                 (Sampler.rnd 1.0 2.3 (rand (n + 4)%nat))
                 (Sampler.rnd 190 320 (rand (n + 5)%nat))
      :: spawn w h rand c (n + 6)
  end.

Definition initParticles (w h : Q) (rand : nat -> Q) : list Particle :=
  spawn w h rand particleCount 0.

(** One coordinate of lines 210-214: move, then wrap at the padded edges. *)
Definition wrapAround (pos vel size : Q) : Q :=
  let p := pos + vel in
  let p1 := if Qltb p (-20) then size + 20 else p in
  if Qltb (size + 20) p1 then -20 else p1.

(** The loop body of lines 209-215. *)
Definition moveParticle (w h : Q) (p : Particle) : Particle :=
  mkParticle (wrapAround (x p) (vx p) w) (wrapAround (y p) (vy p) h)
             (vx p) (vy p) (r p) (hue p).

Definition moveParticles (w h : Q) (ps : list Particle) : list Particle :=
  map (moveParticle w h) ps.

End Particles.

(** A particle is in the viewport padded by 20 pixels and has the speed,
    radius and hue it can be created with. *)
Definition inView (w h : Q) (p : Particles.Particle) : Prop :=
  (-20 <= Particles.x p /\ Particles.x p <= w + 20) /\
  (-20 <= Particles.y p /\ Particles.y p <= h + 20) /\
  (- Particles.particleMaxSpeed <= Particles.vx p /\
   Particles.vx p <= Particles.particleMaxSpeed) /\
  (- Particles.particleMaxSpeed <= Particles.vy p /\
   Particles.vy p <= Particles.particleMaxSpeed) /\
  (1 <= Particles.r p /\ Particles.r p <= 2.3) /\
  (190 <= Particles.hue p /\ Particles.hue p <= 320).

(** ** Rendering the tail (src/app.js, lines 396-439) *)

Module TailRender.

Definition outerAlpha : Q := 0.12.
Definition midAlpha : Q := 0.24.
Definition coreAlpha : Q := 0.95.

(** One segment of the beam with the alphas of its three strokes. *)
Record Stroke : Type := mkStroke {
  start : Point; stop : Point; outerA : Q; midA : Q; coreA : Q
}.

(** The loop of lines 400-433, [n] iterations from index [i]. *)
Fixpoint strokes (tail : list Point) (n i : nat) : Result (list Stroke) :=
  match n with
  | O => Ok []
  | S n' =>
      a <- readAt tail (i - 1) ;;
      b <- readAt tail i ;;
      let t := inject_Z (Z.of_nat i) / inject_Z (Z.of_nat (length tail)) in
      rest <- strokes tail n' (S i) ;;
      Ok (mkStroke a b (outerAlpha * (0.35 + 0.65 * t))
                       (midAlpha * (0.35 + 0.65 * t))
                       (coreAlpha * (0.40 + 0.60 * t)) :: rest)
  end.

(** [renderTail()]: the segments drawn, oldest first, and the two points
    handed to [beamLine] for the hotspot. *)
Definition renderTail (tail : list Point)
  : Result (list Stroke * option (Point * Point)) :=
  if (length tail <? 2)%nat then Ok ([], None)
  else
    ss <- strokes tail (length tail - 1) 1 ;;
    b <- readAt tail (length tail - 1) ;;
    a <- readAt tail (length tail - 2) ;;
    Ok (ss, Some (a, b)).

End TailRender.

(** ** [buildLetters] of version 2 as a whole (src/app.js, lines 94-207) *)

Module Build.
Import String Ascii.

Section BuildLetters.

(** What the browser answers: [offCtx.measureText(s).width] under the font
    in use, and the RGBA data [getImageData] returns after the character has
    been drawn with padding [pad] on a canvas of [boxW] by [boxH] pixels. *)
Variable measure : string -> Q.
Variable glyph : ascii -> Z -> nat -> nat -> list Z.

(** What [Math.random()] returns, call after call. *)
Variable rand : nat -> Q.

(** The viewport. *)
Variables w h : Q.

Definition fs : Q := Layout.fontSize2 w.
Definition lh : Q := fs * 1.15.

(** [Math.ceil(fs*0.35)] *)
Definition pad : Z := Qceiling (fs * 0.35).

(** [Math.max(1, Math.ceil(extent + pad*2))] *)
Definition boxOf (extent : Q) : nat :=
  Z.to_nat (Z.max 1 (Qceiling (extent + inject_Z pad * 2))).

Definition isSpace (ch : ascii) : bool := Ascii.eqb ch " ".

(** The samples of character [ch] drawn at [(x, y)], [n] random numbers
    having been used. *)
Definition samplesOf (ch : ascii) (x y : Q) (n : nat) : list Point :=
  let boxW := boxOf (measure (String ch "")) in
  let boxH := boxOf lh in
  Sampler.sampleChar (glyph ch pad boxW boxH) boxW boxH x y (inject_Z pad)
                     (fun k => rand (n + k)%nat).

(** The loop over the characters of a line (lines 116-199): the letters
    pushed and the random numbers used. *)
Fixpoint buildChars (chars : list ascii) (x y : Q) (n : nat)
  : list Beam.Letter * nat :=
  match chars with
  | [] => ([], n)
  | ch :: rest =>
      let chW := measure (String ch "") in
      if isSpace ch then buildChars rest (x + chW) y n
      else
        let pts := samplesOf ch x y n in
        let r := buildChars rest (x + chW) y (n + 2 * List.length pts)%nat in
        (Beam.mkLetter (Beam.orderLetter pts) :: fst r, snd r)
  end.

(** The loop over the lines (lines 109-200). *)
Fixpoint buildLines (lines : list string) (li : nat) (startY : Q) (n : nat)
  : list Beam.Letter :=
  match lines with
  | [] => []
  | line :: rest =>
      let y := startY + inject_Z (Z.of_nat li) * lh in
      let x := (w - measure line) / 2 in
      let r := buildChars (list_ascii_of_string line) x y n in
      (fst r ++ buildLines rest (S li) startY (snd r))%list
  end.

(** The lines the text is wrapped into (lines 98-99). *)
Definition linesOf (words : list string) : list string :=
  Layout.splitLines measure (w * 0.86) words.

Definition buildLetters (words : list string) : Beam.State :=
  let lines := linesOf words in
  let totalH := inject_Z (Z.of_nat (List.length lines)) * lh in
  let startY := h / 2 - (totalH - lh) / 2 in
  Beam.resetDraw (buildLines lines 0 startY 0).

(** The characters that get a letter. *)
Definition inked (lines : list string) : list ascii :=
  filter (fun ch => negb (isSpace ch)) (flat_map list_ascii_of_string lines).

(** [L] is what is stored for character [ch]: its samples, taken somewhere
    with some of the random numbers, chained. *)
Definition letterOf (ch : ascii) (L : Beam.Letter) : Prop :=
  exists x y n,
    Beam.points L = Beam.orderLetter (samplesOf ch x y n) /\
    inBox (samplesOf ch x y n) /\
    Permutation (samplesOf ch x y n) (Beam.points L).

End BuildLetters.

End Build.

(** ** The next drawable letter *)

(** The letters at the head of [ls] that have fewer than two points. *)
Fixpoint shortRun (ls : list Beam.Letter) : nat :=
  match ls with
  | L :: r => if Beam.tooShort L then S (shortRun r) else 0
  | [] => 0
  end.

(** The index of the first letter from [i] on that has at least two points,
    and the end of the text when there is none. *)
Definition nextDrawable (ls : list Beam.Letter) (i : nat) : nat :=
  (i + shortRun (skipn i ls))%nat.

(** The beam put at the start of letter [j], with nothing of it drawn yet. *)
Definition startAt (j : nat) (s : Beam.State) : Beam.State :=
  Beam.mkState (Beam.letters s) j 0 0 None [] (Beam.ink s).

(** ** The sweep of version 1 *)

(** What holds of the text box and of the sweep direction in every state of
    a running page, resized or not. *)
Definition boxInv (s : Sweep.State) : Prop :=
  exists tb,
    Sweep.textBounds s = Some tb /\
    (forall p, In p (Sweep.textPoints s) -> encloses tb p) /\
    (Sweep.sweepDir s == 1 \/ Sweep.sweepDir s == -1).

(** The sweep position is inside the padded extent of the text box. *)
Definition sweepInside (s : Sweep.State) : Prop :=
  exists tb,
    Sweep.textBounds s = Some tb /\
    0 <= Sweep.sweepX s /\
    Sweep.sweepX s <= Sweep.maxX tb - Sweep.minX tb + 80.

(** A resize keeps the sweep position, so it can leave it outside the new
    padded extent: three frames over a text 800 pixels wide move the sweep to
    118.8, and a resize to a text of one point leaves it there, above 80. *)
Definition narrowed : Sweep.State :=
  let run now s := match Sweep.step now s with Ok (s', _) => s' | _ => s end in
  Sweep.resize [mkPoint 0 0] 40
    (run 1099 (run 1066 (run 1033
       (Sweep.buildTextPoints [mkPoint 0 0; mkPoint 800 0] 40 1000)))).

(** A particle is inside the viewport itself. *)
Definition inViewport (w h : Q) (p : Particles.Particle) : Prop :=
  (0 <= Particles.x p /\ Particles.x p <= w) /\
  (0 <= Particles.y p /\ Particles.y p <= h).

(** * Comparisons *)

Lemma Qltb_true (a b : Q) : Qltb a b = true <-> a < b.
Proof.
  unfold Qltb. rewrite negb_true_iff. split; intro H.
  - apply Qnot_le_lt. intro Hle. apply Qle_bool_iff in Hle. congruence.
  - destruct (Qle_bool b a) eqn:E; [|reflexivity].
    apply Qle_bool_iff in E. lra.
Qed.

Lemma Qltb_false (a b : Q) : Qltb a b = false <-> b <= a.
Proof.
  unfold Qltb. rewrite negb_false_iff. apply Qle_bool_iff.
Qed.

(** * Version 2: facts *)

Module BeamFacts.
Import Beam.

(** ** The tail *)

Lemma spaced_snoc (r : Q) (t : list Point) (p d : Point) :
  t <> [] -> spaced r t -> r * r <= dist2 (List.last t d) p -> spaced r (t ++ [p]).
Proof.
  induction t as [|a t IH]; intros Hne Hs Hd; [congruence|].
  destruct t as [|b t].
  - simpl in *. auto.
  - destruct Hs as [Hab Hs]. split; [exact Hab|].
    apply IH; [discriminate|exact Hs|exact Hd].
Qed.

Lemma spaced_tl (r : Q) (t : list Point) : spaced r t -> spaced r (tl t).
Proof.
  destruct t as [|a [|b t]]; simpl; tauto.
Qed.

Lemma pushTailList_inv (p : Point) (t : list Point) :
  (length t <= tailLength)%nat -> spaced tailStepMin t ->
  (length (pushTailList p t) <= tailLength)%nat /\
  spaced tailStepMin (pushTailList p t).
Proof.
  intros Hlen Hs. unfold pushTailList.
  destruct t as [|a t]; [simpl; unfold tailLength; split; [lia|exact I]|].
  destruct (distGe (List.last (a :: t) p) p tailStepMin) eqn:Hd; [|tauto].
  assert (Hsp : spaced tailStepMin ((a :: t) ++ [p])).
  { apply spaced_snoc with (d := p); [discriminate|exact Hs|].
    unfold distGe in Hd. apply Qle_bool_iff in Hd. exact Hd. }
  cbv zeta. destruct (tailLength <? length ((a :: t) ++ [p]))%nat eqn:Hc.
  - split; [|apply spaced_tl; exact Hsp].
    simpl in *. rewrite length_app. simpl. lia.
  - apply Nat.ltb_ge in Hc. tauto.
Qed.

(** C5. Whatever points are handed to [pushTail], starting from the empty tail
    that every reset leaves, the tail never holds more than
    [CONFIG.tailLength] entries and any two consecutive entries (the final
    pair included) are at least [CONFIG.tailStepMin] apart. *)
Theorem tail_bounded_and_spaced (ps : list Point) :
  let t := fold_left (fun t p => pushTailList p t) ps [] in
  (length t <= tailLength)%nat /\ spaced tailStepMin t.
Proof.
  cbv zeta.
  assert (H : forall t0, (length t0 <= tailLength)%nat -> spaced tailStepMin t0 ->
              (length (fold_left (fun t p => pushTailList p t) ps t0) <= tailLength)%nat /\
              spaced tailStepMin (fold_left (fun t p => pushTailList p t) ps t0)).
  { induction ps as [|p ps IH]; intros t0 Hl Hs; simpl; [tauto|].
    destruct (pushTailList_inv p t0 Hl Hs) as [Hl' Hs']. apply IH; assumption. }
  apply H; simpl; [unfold tailLength; lia|exact I].
Qed.

(** ** Loops: what they return, and with how much fuel *)

Lemma readAt_some {A : Type} (l : list A) (i : nat) (a : A) :
  nth_error l i = Some a -> readAt l i = Ok a.
Proof. unfold readAt. intros ->. reflexivity. Qed.

Lemma weight_skipn_cons (ls : list Letter) (k : nat) (L : Letter) :
  nth_error ls k = Some L ->
  weight (skipn k ls) = (S (length (points L)) + weight (skipn (S k) ls))%nat.
Proof.
  revert k. induction ls as [|L0 ls IH]; intros [|k] H; simpl in *; try discriminate.
  - injection H as ->. reflexivity.
  - apply IH. exact H.
Qed.

Lemma weight_skipn_mono (ls : list Letter) (k k' : nat) :
  (k <= k')%nat -> (weight (skipn k' ls) <= weight (skipn k ls))%nat.
Proof.
  induction 1 as [|k' _ IH]; [lia|].
  destruct (nth_error ls k') as [L|] eqn:E.
  - rewrite (weight_skipn_cons ls k' L E) in IH. lia.
  - apply nth_error_None in E.
    rewrite (skipn_all2 ls) by lia. simpl. lia.
Qed.

Lemma weight_skipn_length (ls : list Letter) (k : nat) :
  (length ls - k <= weight (skipn k ls))%nat.
Proof.
  revert k. induction ls as [|L ls IH]; intros [|k]; simpl; try lia.
  - specialize (IH 0%nat). simpl in IH. lia.
  - apply IH.
Qed.

Lemma pending_le_weight (s : State) : (pending s <= weight (letters s))%nat.
Proof.
  unfold pending. destruct (nth_error (letters s) (curL s)) as [L|] eqn:E; [|lia].
  pose proof (weight_skipn_cons _ _ _ E) as H.
  pose proof (weight_skipn_mono (letters s) 0 (curL s) ltac:(lia)) as H0.
  simpl in H0. lia.
Qed.

Lemma onDrawable_ge (s : State) (L : Letter) :
  nth_error (letters s) (curL s) = Some L -> tooShort L = false -> onDrawable s.
Proof.
  intros HL Hs. right. exists L. split; [exact HL|].
  unfold tooShort in Hs. apply Nat.ltb_ge in Hs. exact Hs.
Qed.

Lemma skipOnly_char (fuel : nat) (s : State) :
  match skipOnly fuel s with
  | Ok s1 => s1 = setCurL (curL s1) s /\ (curL s <= curL s1)%nat /\ onDrawable s1
  | TypeError => False
  | OutOfFuel => (fuel <= length (letters s) - curL s)%nat
  end.
Proof.
  revert s. induction fuel as [|f IH]; intros s; simpl; [lia|].
  destruct (curL s <? length (letters s))%nat eqn:Hc.
  - apply Nat.ltb_lt in Hc.
    destruct (nth_error (letters s) (curL s)) as [L|] eqn:HL;
      [|apply nth_error_None in HL; lia].
    rewrite (readAt_some _ _ _ HL). simpl.
    destruct (tooShort L) eqn:Hs.
    + specialize (IH (setCurL (S (curL s)) s)).
      destruct (skipOnly f (setCurL (S (curL s)) s)) as [s1| |]; simpl in *.
      * destruct IH as (E & Hle & Hd). repeat split; [|lia|exact Hd].
        rewrite E at 1. reflexivity.
      * exact IH.
      * lia.
    + repeat split; [destruct s; reflexivity|lia|].
      apply (onDrawable_ge s L HL Hs).
  - apply Nat.ltb_ge in Hc. repeat split; [destruct s; reflexivity|lia|].
    left. exact Hc.
Qed.

(** After the first loop the draw state is either untouched or freshly
    reset. *)
Lemma skipReset_char (fuel : nat) (s : State) :
  match skipReset fuel s with
  | Ok s1 =>
      letters s1 = letters s /\ ink s1 = ink s /\ (curL s <= curL s1)%nat /\
      onDrawable s1 /\
      (s1 = s \/ (curIdx s1 = 0%nat /\ curT s1 = 0 /\ tip s1 = None /\ tail s1 = []))
  | TypeError => False
  | OutOfFuel => (fuel <= length (letters s) - curL s)%nat
  end.
Proof.
  revert s. induction fuel as [|f IH]; intros s; simpl; [lia|].
  destruct (curL s <? length (letters s))%nat eqn:Hc.
  - apply Nat.ltb_lt in Hc.
    destruct (nth_error (letters s) (curL s)) as [L|] eqn:HL;
      [|apply nth_error_None in HL; lia].
    rewrite (readAt_some _ _ _ HL). simpl.
    destruct (tooShort L) eqn:Hs.
    + specialize (IH (nextLetter s)).
      destruct (skipReset f (nextLetter s)) as [s1| |]; simpl in *.
      * destruct IH as (El & Ei & Hle & Hd & Hr).
        repeat split; [exact El|exact Ei|lia|exact Hd|].
        right. destruct Hr as [->|Hr]; [simpl; tauto|exact Hr].
      * exact IH.
      * lia.
    + repeat split; [lia| |left; reflexivity].
      apply (onDrawable_ge s L HL Hs).
  - apply Nat.ltb_ge in Hc. repeat split; [lia| |left; reflexivity].
    left. exact Hc.
Qed.

Lemma pending_le_skipn (s : State) :
  (pending s <= weight (skipn (curL s) (letters s)))%nat.
Proof.
  unfold pending. destruct (nth_error (letters s) (curL s)) as [L|] eqn:E; [|lia].
  rewrite (weight_skipn_cons _ _ _ E). lia.
Qed.

Lemma segmentStep_char (pts2 : list Point) (rem : Q) (s : State) :
  (Z.of_nat (length pts2) - 1 <=? Z.of_nat (curIdx s))%Z = false ->
  exists r s',
    segmentStep pts2 rem s = Ok (r, s') /\
    letters s' = letters s /\ curL s' = curL s /\
    ((curIdx s' = S (curIdx s) /\ curT s' = 0) \/
     (curIdx s' = curIdx s /\ Qltb 0 r = false /\ curT s' < 1 /\
      (0 < rem -> unitT s -> 0 <= curT s'))).
Proof.
  intros Hidx. apply Z.leb_gt in Hidx.
  destruct (nth_error pts2 (curIdx s)) as [a|] eqn:Ha;
    [|apply nth_error_None in Ha; lia].
  destruct (nth_error pts2 (S (curIdx s))) as [b|] eqn:Hb;
    [|apply nth_error_None in Hb; lia].
  unfold segmentStep. rewrite (readAt_some _ _ _ Ha), (readAt_some _ _ _ Hb).
  simpl bind.
  destruct (Qle_bool 1 (curT s + Qmin (1 - curT s) rem)) eqn:Ht.
  - eexists; eexists; split; [reflexivity|]. simpl. tauto.
  - eexists; eexists; split; [reflexivity|]. simpl.
    assert (Hlt : curT s + Qmin (1 - curT s) rem < 1).
    { apply Qnot_le_lt. intro Hle. apply Qle_bool_iff in Hle. congruence. }
    repeat split; try reflexivity. right. repeat split.
    + apply Qltb_false.
      destruct (Q.min_spec (1 - curT s) rem) as [[_ Hm]|[_ Hm]];
        rewrite Hm in *; lra.
    + exact Hlt.
    + intros Hrem [H0 H1].
      destruct (Q.min_spec (1 - curT s) rem) as [[_ Hm]|[_ Hm]];
        rewrite Hm; lra.
Qed.

Lemma moveLoop_char (fuel : nat) :
  forall (rem : Q) (s : State),
  match moveLoop fuel rem s with
  | Ok s' =>
      letters s' = letters s /\ (onDrawable s -> onDrawable s') /\
      (unitT s -> unitT s')
  | TypeError => False
  | OutOfFuel => (fuel <= measure rem s)%nat
  end.
Proof.
  induction fuel as [|f IH]; intros rem s; simpl; [lia|].
  destruct (Qltb 0 rem) eqn:Hr; simpl; [|tauto].
  destruct (curL s <? length (letters s))%nat eqn:Hc; [|tauto].
  apply Nat.ltb_lt in Hc.
  destruct (nth_error (letters s) (curL s)) as [L|] eqn:HL;
    [|apply nth_error_None in HL; lia].
  rewrite (readAt_some _ _ _ HL). simpl bind.
  assert (Hm : measure rem s =
               (1 + (S (length (points L) - curIdx s) +
                     weight (skipn (S (curL s)) (letters s))))%nat).
  { unfold measure, pending. rewrite Hr, HL. reflexivity. }
  destruct (Z.of_nat (length (points L)) - 1 <=? Z.of_nat (curIdx s))%Z eqn:Hfin.
  - pose proof (skipOnly_char f (nextLetter s)) as Hsk.
    destruct (skipOnly f (nextLetter s)) as [s1| |]; simpl bind.
    + destruct Hsk as (E & Hle & Hd). simpl in Hle.
      assert (El : letters s1 = letters s) by (rewrite E; reflexivity).
      assert (Ht : unitT s1) by (rewrite E; unfold unitT; simpl; lra).
      destruct (length (letters s1) <=? curL s1)%nat; [tauto|].
      specialize (IH rem s1).
      destruct (moveLoop f rem s1) as [s'| |].
      * destruct IH as (El' & Hd' & Ht'). split; [congruence|split; tauto].
      * exact IH.
      * pose proof (pending_le_skipn s1) as Hp. rewrite El in Hp.
        pose proof (weight_skipn_mono (letters s) (S (curL s)) (curL s1) Hle).
        unfold measure in IH. rewrite Hr in IH. rewrite Hm. lia.
    + exact Hsk.
    + simpl in Hsk. pose proof (weight_skipn_length (letters s) (S (curL s))).
      rewrite Hm. lia.
  - destruct (segmentStep_char (points L) rem s Hfin)
      as (r & s1 & E & El & Ec & Hcase).
    rewrite E. simpl bind. simpl fst. simpl snd.
    specialize (IH r s1).
    destruct (moveLoop f r s1) as [s'| |].
    + destruct IH as (El' & Hd' & Ht'). split; [congruence|split].
      * intros _. apply Hd'. right. exists L. rewrite El, Ec. split; [exact HL|].
        apply Z.leb_gt in Hfin. lia.
      * intros Hu. apply Ht'. apply Qltb_true in Hr.
        destruct Hcase as [[_ H0]|(_ & _ & H1 & H0)]; unfold unitT.
        -- rewrite H0. lra.
        -- split; [apply H0; assumption|exact H1].
    + exact IH.
    + apply Z.leb_gt in Hfin.
      unfold measure, pending in IH. rewrite El, Ec, HL in IH.
      destruct Hcase as [[Hi _]|(Hi & Hz & _)]; rewrite Hi in IH.
      * rewrite Hm. destruct (Qltb 0 r); lia.
      * rewrite Hz in IH. rewrite Hm. lia.
Qed.

Lemma advanceTipFuel_char (fuel : nat) (dt : Q) (s : State) :
  match advanceTipFuel fuel dt s with
  | Ok s' =>
      letters s' = letters s /\ onDrawable s' /\ (unitT s -> unitT s')
  | TypeError => False
  | OutOfFuel => (fuel < fuelBound s)%nat
  end.
Proof.
  unfold advanceTipFuel.
  pose proof (skipReset_char fuel s) as Hsk.
  destruct (skipReset fuel s) as [s1| |]; simpl bind.
  2: exact Hsk.
  2: { pose proof (weight_skipn_length (letters s) 0) as H. simpl in H.
       unfold fuelBound. lia. }
  destruct Hsk as (El & _ & _ & Hd & Hr).
  assert (Hu : unitT s -> unitT s1).
  { destruct Hr as [->|(_ & H0 & _)]; [tauto|]. intros _. unfold unitT. rewrite H0. lra. }
  destruct (length (letters s1) <=? curL s1)%nat eqn:Hex; [tauto|].
  apply Nat.leb_gt in Hex.
  destruct Hd as [Hd|(L & HL & H2)]; [lia|].
  rewrite (readAt_some _ _ _ HL). simpl bind.
  assert (Hi : exists s2, initTip (points L) s1 = Ok s2 /\ letters s2 = letters s1 /\
                          curL s2 = curL s1 /\ (unitT s1 -> unitT s2)).
  { unfold initTip. destruct (tip s1); [exists s1; tauto|].
    destruct (nth_error (points L) 0) as [p0|] eqn:H0;
      [|apply nth_error_None in H0; lia].
    rewrite (readAt_some _ _ _ H0). simpl bind. eexists. split; [reflexivity|].
    simpl. repeat split; unfold unitT; simpl; lra. }
  destruct Hi as (s2 & E2 & El2 & Ec2 & Hu2). rewrite E2. simpl bind.
  pose proof (moveLoop_char fuel (pointsPerSecond * dt) s2) as Hmv.
  destruct (moveLoop fuel (pointsPerSecond * dt) s2) as [s'| |].
  - destruct Hmv as (El' & Hd' & Hu'). split; [congruence|]. split; [|tauto].
    apply Hd'. right. exists L. rewrite El2, Ec2. tauto.
  - exact Hmv.
  - pose proof (pending_le_weight s2) as Hp. unfold measure in Hmv.
    unfold fuelBound. rewrite <- El, <- El2.
    destruct (Qltb 0 (pointsPerSecond * dt)); lia.
Qed.

Lemma skipOnly_mono (fuel k : nat) :
  forall s s', skipOnly fuel s = Ok s' -> skipOnly (fuel + k) s = Ok s'.
Proof.
  induction fuel as [|f IH]; intros s s' H; simpl in *; [discriminate|].
  destruct (curL s <? length (letters s))%nat; [|exact H].
  destruct (readAt (letters s) (curL s)) as [L| |]; simpl in *; try discriminate.
  destruct (tooShort L); [apply IH|]; exact H.
Qed.

Lemma skipReset_mono (fuel k : nat) :
  forall s s', skipReset fuel s = Ok s' -> skipReset (fuel + k) s = Ok s'.
Proof.
  induction fuel as [|f IH]; intros s s' H; simpl in *; [discriminate|].
  destruct (curL s <? length (letters s))%nat; [|exact H].
  destruct (readAt (letters s) (curL s)) as [L| |]; simpl in *; try discriminate.
  destruct (tooShort L); [apply IH|]; exact H.
Qed.

Lemma moveLoop_mono (fuel k : nat) :
  forall rem s s', moveLoop fuel rem s = Ok s' -> moveLoop (fuel + k) rem s = Ok s'.
Proof.
  induction fuel as [|f IH]; intros rem s s' H; simpl in *; [discriminate|].
  destruct (Qltb 0 rem && (curL s <? length (letters s))%nat); [|exact H].
  destruct (readAt (letters s) (curL s)) as [L| |]; simpl in *; try discriminate.
  destruct (Z.of_nat (length (points L)) - 1 <=? Z.of_nat (curIdx s))%Z.
  - destruct (skipOnly f (nextLetter s)) as [s1| |] eqn:E; simpl in *; try discriminate.
    rewrite (skipOnly_mono f k _ _ E). simpl.
    destruct (length (letters s1) <=? curL s1)%nat; [exact H|apply IH; exact H].
  - destruct (segmentStep (points L) rem s) as [[r s1]| |]; simpl in *; try discriminate.
    apply IH. exact H.
Qed.

Lemma advanceTipFuel_mono (fuel fuel' : nat) (dt : Q) (s s' : State) :
  (fuel <= fuel')%nat ->
  advanceTipFuel fuel dt s = Ok s' -> advanceTipFuel fuel' dt s = Ok s'.
Proof.
  intros Hle H. replace fuel' with (fuel + (fuel' - fuel))%nat by lia.
  unfold advanceTipFuel in *.
  destruct (skipReset fuel s) as [s1| |] eqn:E; simpl in *; try discriminate.
  rewrite (skipReset_mono fuel (fuel' - fuel) _ _ E). simpl.
  destruct (length (letters s1) <=? curL s1)%nat; [exact H|].
  destruct (readAt (letters s1) (curL s1)) as [L| |]; simpl in *; try discriminate.
  destruct (initTip (points L) s1) as [s2| |]; simpl in *; try discriminate.
  apply moveLoop_mono. exact H.
Qed.

Lemma advanceTip_total (dt : Q) (s : State) :
  exists s', advanceTip dt s = Ok s' /\ letters s' = letters s /\
             onDrawable s' /\ (unitT s -> unitT s').
Proof.
  unfold advanceTip. pose proof (advanceTipFuel_char (fuelBound s) dt s) as H.
  destruct (advanceTipFuel (fuelBound s) dt s) as [s'| |].
  - exists s'. tauto.
  - contradiction.
  - lia.
Qed.

(** C10. [advanceTip] terminates from every state and for every [dt], a
    non-negative one in particular.  Its traversal loop returns as soon as it
    is allowed more iterations than [measure], which every iteration
    decreases: an iteration uses up the budget, increments [curIdx] or
    increments [curL].  With [fuelBound s] iterations allowed to each loop
    (one per point and per letter, plus the closing tests), or with any
    larger allowance, the call returns a state, the same whatever the
    allowance. *)
Theorem advanceTip_terminates (s : State) (dt : Q) (fuel : nat) :
  (forall remaining, (measure remaining s < fuel)%nat ->
     exists s', moveLoop fuel remaining s = Ok s') /\
  ((fuelBound s <= fuel)%nat ->
     exists s', advanceTipFuel fuel dt s = Ok s' /\ advanceTip dt s = Ok s').
Proof.
  split.
  - intros remaining Hlt. pose proof (moveLoop_char fuel remaining s) as H.
    destruct (moveLoop fuel remaining s) as [s'| |].
    + exists s'. reflexivity.
    + contradiction.
    + lia.
  - intros Hle. destruct (advanceTip_total dt s) as (s' & E & _).
    exists s'. split; [|exact E].
    apply (advanceTipFuel_mono (fuelBound s) fuel dt s s' Hle). exact E.
Qed.

Lemma advanceTip_terminates_witness :
  let s := buildLetters [[mkPoint 0 0; mkPoint 1 0; mkPoint 2 0]; []; [mkPoint 5 5]] in
  ((measure (3 # 2) s < 9)%nat /\ exists s', moveLoop 9 (3 # 2) s = Ok s') /\
  ((fuelBound s <= 9)%nat /\
   exists s', advanceTipFuel 9 (1 # 1000) s = Ok s' /\ advanceTip (1 # 1000) s = Ok s').
Proof.
  cbv zeta.
  assert (Hm : (measure (3 # 2)
                  (buildLetters [[mkPoint 0 0; mkPoint 1 0; mkPoint 2 0];
                                 []; [mkPoint 5 5]]) < 9)%nat)
    by (vm_compute; lia).
  assert (H : (fuelBound (buildLetters [[mkPoint 0 0; mkPoint 1 0; mkPoint 2 0];
                                        []; [mkPoint 5 5]]) <= 9)%nat)
    by (vm_compute; lia).
  split.
  - split; [exact Hm|].
    exact (proj1 (advanceTip_terminates _ (1 # 1000) 9) (3 # 2) Hm).
  - split; [exact H|].
    exact (proj2 (advanceTip_terminates _ (1 # 1000) 9) H).
Defined.

(** ** Exhausted letters *)

Lemma advanceTip_exhausted (s : State) (dt : Q) :
  (length (letters s) <= curL s)%nat -> advanceTip dt s = Ok s.
Proof.
  intros H. unfold advanceTip, advanceTipFuel, fuelBound. simpl.
  destruct (curL s <? length (letters s))%nat eqn:Hc;
    [apply Nat.ltb_lt in Hc; lia|].
  simpl. apply Nat.leb_le in H. rewrite H. reflexivity.
Qed.

(** C6. Once [curL] has reached [letters.length], a call of [advanceTip]
    returns the state it was given, for every [dt], and so does any sequence
    of calls: the indices, the fraction, the tip, the tail and the written
    buffer all stay as they are, and nothing is reset. *)
Theorem exhausted_is_noop (s : State) :
  (length (letters s) <= curL s)%nat ->
  (forall dt, advanceTip dt s = Ok s) /\ (forall dts, frames dts s = Ok s).
Proof.
  intros H. split; [intro dt; apply advanceTip_exhausted; exact H|].
  induction dts as [|dt dts IH]; simpl; [reflexivity|].
  rewrite (advanceTip_exhausted s dt H). simpl. exact IH.
Qed.

Lemma exhausted_is_noop_witness :
  let s := mkState [mkLetter [mkPoint 0 0; mkPoint 3 4]] 1 0 0 None []
                   [mkPoint 0 0; mkPoint 3 4] in
  (length (letters s) <= curL s)%nat /\
  (forall dt, advanceTip dt s = Ok s) /\ (forall dts, frames dts s = Ok s).
Proof.
  cbv zeta.
  assert (H : (length (letters (mkState [mkLetter [mkPoint 0 0; mkPoint 3 4]] 1 0 0
                                        None [] [mkPoint 0 0; mkPoint 3 4]))
               <= curL (mkState [mkLetter [mkPoint 0 0; mkPoint 3 4]] 1 0 0
                                None [] [mkPoint 0 0; mkPoint 3 4]))%nat)
    by (simpl; lia).
  split; [exact H|].
  exact (exhausted_is_noop _ H).
Defined.

(** ** The fraction *)

Lemma Reachable_unitT (s : State) : Reachable s -> unitT s.
Proof.
  induction 1 as [ls|s s' dt _ IH E].
  - unfold unitT. simpl. lra.
  - destruct (advanceTip_total dt s) as (s1 & E1 & _ & _ & Hu).
    rewrite E in E1. injection E1 as <-. apply Hu. exact IH.
Qed.

(** C4. In every state the page can be in, a call of [advanceTip] with
    [dt >= 0] returns a state whose [curT] is at least 0 and below 1. *)
Theorem curT_in_unit_interval (s : State) (dt : Q) :
  Reachable s -> 0 <= dt ->
  exists s', advanceTip dt s = Ok s' /\ 0 <= curT s' /\ curT s' < 1.
Proof.
  intros Hr _. destruct (advanceTip_total dt s) as (s' & E & _ & _ & Hu).
  exists s'. split; [exact E|]. apply Hu. apply Reachable_unitT. exact Hr.
Qed.

Lemma curT_in_unit_interval_witness :
  let s := buildLetters [[mkPoint 0 0; mkPoint 1 0; mkPoint 2 0]] in
  Reachable s /\ 0 <= (3 # 4000) /\
  exists s', advanceTip (3 # 4000) s = Ok s' /\ 0 <= curT s' /\ curT s' < 1.
Proof.
  cbv zeta.
  assert (Hr : Reachable (buildLetters [[mkPoint 0 0; mkPoint 1 0; mkPoint 2 0]]))
    by apply (reach_build (map (fun pts => mkLetter (orderLetter pts))
                               [[mkPoint 0 0; mkPoint 1 0; mkPoint 2 0]])).
  assert (Hd : 0 <= (3 # 4000)) by (vm_compute; discriminate).
  split; [exact Hr|]. split; [exact Hd|].
  exact (curT_in_unit_interval _ (3 # 4000) Hr Hd).
Defined.

(** ** Letters with fewer than two points *)

Lemma tooShort_blank (L : Letter) : tooShort (blank L) = tooShort L.
Proof.
  unfold blank. destruct (tooShort L) eqn:E; [reflexivity|exact E].
Qed.

Lemma readAt_blank (ls : list Letter) (k : nat) :
  readAt (map blank ls) k = mapResult blank (readAt ls k).
Proof.
  unfold readAt. rewrite nth_error_map.
  destruct (nth_error ls k); reflexivity.
Qed.

Lemma skipOnly_blank (fuel : nat) :
  forall s, skipOnly fuel (blankState s) = mapResult blankState (skipOnly fuel s).
Proof.
  induction fuel as [|f IH]; intros s; simpl; [reflexivity|].
  rewrite length_map, readAt_blank.
  destruct (curL s <? length (letters s))%nat; [|reflexivity].
  destruct (readAt (letters s) (curL s)) as [L| |]; simpl; try reflexivity.
  rewrite tooShort_blank. destruct (tooShort L); [|reflexivity].
  apply (IH (setCurL (S (curL s)) s)).
Qed.

Lemma skipReset_blank (fuel : nat) :
  forall s, skipReset fuel (blankState s) = mapResult blankState (skipReset fuel s).
Proof.
  induction fuel as [|f IH]; intros s; simpl; [reflexivity|].
  rewrite length_map, readAt_blank.
  destruct (curL s <? length (letters s))%nat; [|reflexivity].
  destruct (readAt (letters s) (curL s)) as [L| |]; simpl; try reflexivity.
  rewrite tooShort_blank. destruct (tooShort L); [|reflexivity].
  apply (IH (nextLetter s)).
Qed.

Lemma segmentStep_blank (pts2 : list Point) (rem : Q) (s : State) :
  segmentStep pts2 rem (blankState s) =
  mapResult (fun rs => (fst rs, blankState (snd rs))) (segmentStep pts2 rem s).
Proof.
  unfold segmentStep. simpl.
  destruct (readAt pts2 (curIdx s)) as [a| |]; simpl; try reflexivity.
  destruct (readAt pts2 (S (curIdx s))) as [b| |]; simpl; try reflexivity.
  destruct (Qle_bool 1 (curT s + Qmin (1 - curT s) rem)); reflexivity.
Qed.

Lemma finished_blank (L : Letter) (i : nat) :
  (Z.of_nat (length (points (blank L))) - 1 <=? Z.of_nat i)%Z =
  (Z.of_nat (length (points L)) - 1 <=? Z.of_nat i)%Z.
Proof.
  unfold blank. destruct (tooShort L) eqn:E; [|reflexivity].
  unfold tooShort in E. apply Nat.ltb_lt in E. simpl.
  transitivity true; [apply Z.leb_le; lia|symmetry; apply Z.leb_le; lia].
Qed.

Lemma moveLoop_blank (fuel : nat) :
  forall rem s,
    moveLoop fuel rem (blankState s) = mapResult blankState (moveLoop fuel rem s).
Proof.
  induction fuel as [|f IH]; intros rem s; simpl; [reflexivity|].
  rewrite length_map, readAt_blank.
  destruct (Qltb 0 rem && (curL s <? length (letters s))%nat); [|reflexivity].
  destruct (readAt (letters s) (curL s)) as [L| |] eqn:HL; simpl; try reflexivity.
  rewrite finished_blank.
  destruct (Z.of_nat (length (points L)) - 1 <=? Z.of_nat (curIdx s))%Z eqn:Hfin.
  - change (nextLetter (blankState s)) with (blankState (nextLetter s)).
    rewrite (skipOnly_blank f (nextLetter s)).
    destruct (skipOnly f (nextLetter s)) as [s1| |]; simpl; try reflexivity.
    rewrite length_map.
    destruct (length (letters s1) <=? curL s1)%nat; [reflexivity|apply IH].
  - assert (Hb : blank L = L).
    { unfold blank. destruct (tooShort L) eqn:E; [|reflexivity].
      unfold tooShort in E. apply Nat.ltb_lt in E. apply Z.leb_gt in Hfin. lia. }
    rewrite Hb, segmentStep_blank.
    destruct (segmentStep (points L) rem s) as [[r s1]| |]; simpl; try reflexivity.
    apply IH.
Qed.

Lemma advanceTipFuel_blank (fuel : nat) (dt : Q) (s : State) :
  advanceTipFuel fuel dt (blankState s) =
  mapResult blankState (advanceTipFuel fuel dt s).
Proof.
  unfold advanceTipFuel. rewrite skipReset_blank.
  pose proof (skipReset_char fuel s) as Hsk.
  destruct (skipReset fuel s) as [s1| |]; simpl; try reflexivity.
  rewrite length_map, readAt_blank.
  destruct Hsk as (_ & _ & _ & Hd & _).
  destruct (length (letters s1) <=? curL s1)%nat eqn:Hex; [reflexivity|].
  apply Nat.leb_gt in Hex. destruct Hd as [Hd|(L & HL & H2)]; [lia|].
  rewrite (readAt_some _ _ _ HL). simpl.
  assert (Hb : blank L = L).
  { unfold blank, tooShort. destruct (length (points L) <? 2)%nat eqn:E; [|reflexivity].
    apply Nat.ltb_lt in E. lia. }
  rewrite Hb. unfold initTip. simpl.
  destruct (tip s1); simpl.
  - apply moveLoop_blank.
  - destruct (readAt (points L) 0) as [p0| |]; simpl; try reflexivity.
    apply (moveLoop_blank fuel (pointsPerSecond * dt)
             (setProgress 0 0 (pushTail p0 (burnPoint p0 (setTip p0 s1))))).
Qed.

Lemma weight_blank (ls : list Letter) : (weight (map blank ls) <= weight ls)%nat.
Proof.
  induction ls as [|L ls IH]; simpl; [lia|].
  assert (length (points (blank L)) <= length (points L))%nat.
  { unfold blank. destruct (tooShort L); simpl; lia. }
  lia.
Qed.

Lemma advanceTip_blank (dt : Q) (s : State) :
  advanceTip dt (blankState s) = mapResult blankState (advanceTip dt s).
Proof.
  destruct (advanceTip_total dt (blankState s)) as (s1 & E1 & _).
  unfold advanceTip at 2. rewrite <- advanceTipFuel_blank.
  rewrite E1. symmetry.
  apply (advanceTipFuel_mono (fuelBound (blankState s))); [|exact E1].
  unfold fuelBound. simpl. pose proof (weight_blank (letters s)). lia.
Qed.

End BeamFacts.

(** * Path ordering: facts *)

Module OrderFacts.
Import Beam.

(** ** The start of the chain *)

Lemma before_true (p q : Point) : before p q = true -> lexle p q.
Proof.
  unfold before, lexle. intros H. apply orb_true_iff in H.
  destruct H as [H|H].
  - left. apply Qltb_true. exact H.
  - apply andb_true_iff in H. destruct H as [He Hx].
    apply Qeq_bool_iff in He. apply Qltb_true in Hx. right. split; [exact He|lra].
Qed.

Lemma before_false (p q : Point) : before p q = false -> lexle q p.
Proof.
  unfold before, lexle. intros H. apply orb_false_iff in H.
  destruct H as [Hy H]. apply Qltb_false in Hy.
  destruct (Qlt_le_dec (py q) (py p)) as [Hlt|Hle]; [left; exact Hlt|].
  assert (He : py p == py q) by lra.
  right. split; [lra|].
  apply Qeq_bool_iff in He. rewrite He in H. simpl in H.
  apply Qltb_false. exact H.
Qed.

Lemma lexle_trans (p q r : Point) : lexle p q -> lexle q r -> lexle p r.
Proof.
  unfold lexle. intros [H1|[H1 H1']] [H2|[H2 H2']].
  - left. lra.
  - left. lra.
  - left. lra.
  - right. split; lra.
Qed.

Lemma lexle_refl (p : Point) : lexle p p.
Proof. right. split; lra. Qed.

Lemma pickStart_spec (pts : list Point) (idxs : list nat) :
  forall start,
    let r := pickStart pts idxs start in
    (r = start \/ In r idxs) /\
    lexle (nth r pts origin) (nth start pts origin) /\
    (forall i, In i idxs -> lexle (nth r pts origin) (nth i pts origin)).
Proof.
  induction idxs as [|i idxs IH]; intros start; simpl.
  - split; [left; reflexivity|]. split; [apply lexle_refl|tauto].
  - destruct (before (nth i pts origin) (nth start pts origin)) eqn:Hb.
    + destruct (IH i) as (Hin & Hle & Hall).
      apply before_true in Hb.
      split; [right; destruct Hin as [E|Hin]; [left; symmetry; exact E|right; exact Hin]|].
      split; [eapply lexle_trans; eassumption|].
      intros j [<-|Hj]; [exact Hle|apply Hall; exact Hj].
    + destruct (IH start) as (Hin & Hle & Hall).
      apply before_false in Hb.
      split; [tauto|]. split; [exact Hle|].
      intros j [<-|Hj]; [eapply lexle_trans; eassumption|apply Hall; exact Hj].
Qed.

Lemma pickStart_topLeft (pts : list Point) :
  let start := pickStart pts (seq 1 (length pts - 1)) 0 in
  (start < length pts \/ pts = [])%nat /\ topLeft (nth start pts origin) pts.
Proof.
  cbv zeta. destruct (pickStart_spec pts (seq 1 (length pts - 1)) 0) as (Hin & Hle & Hall).
  split.
  - destruct pts as [|p pts]; [right; reflexivity|left].
    destruct Hin as [->|Hin]; [simpl; lia|].
    apply in_seq in Hin. simpl in *. lia.
  - intros q Hq. apply (In_nth _ _ origin) in Hq. destruct Hq as (i & Hi & <-).
    destruct i as [|i]; [exact Hle|].
    apply Hall. apply in_seq. lia.
Qed.

(** ** The flags *)

Lemma length_mark (used : list bool) (j : nat) : length (mark used j) = length used.
Proof.
  revert j. induction used as [|b u IH]; intros [|j]; simpl; auto.
Qed.

Lemma unvisited_repeat (pts : list Point) :
  unvisited pts (repeat false (length pts)) = pts.
Proof.
  induction pts as [|p ps IH]; simpl; [reflexivity|]. rewrite IH. reflexivity.
Qed.

Lemma unvisited_mark (pts : list Point) :
  forall (used : list bool) (j : nat),
    (j < length pts)%nat -> length used = length pts -> nth j used false = false ->
    Permutation (unvisited pts used) (nth j pts origin :: unvisited pts (mark used j)).
Proof.
  induction pts as [|p ps IH]; intros [|u us] [|j] Hj Hl Hu; simpl in *;
    try lia; try discriminate.
  - subst u. apply Permutation_refl.
  - assert (Hp : Permutation (unvisited ps us)
                   (nth j ps origin :: unvisited ps (mark us j)))
      by (apply IH; [lia|lia|exact Hu]).
    destruct u; [exact Hp|].
    eapply perm_trans; [apply perm_skip; exact Hp|apply perm_swap].
Qed.

Lemma In_unvisited (pts : list Point) :
  forall (used : list bool) (p : Point),
    In p (unvisited pts used) ->
    exists i, (i < length pts)%nat /\ nth i used false = false /\ nth i pts origin = p.
Proof.
  induction pts as [|q ps IH]; intros used p Hin; simpl in *; [contradiction|].
  destruct used as [|u us].
  - destruct Hin as [<-|Hin].
    + exists 0%nat. simpl. split; [lia|]. split; reflexivity.
    + destruct (IH [] p Hin) as (i & Hi & Hu & Hp).
      exists (S i). simpl. split; [lia|]. split; [destruct i; reflexivity|exact Hp].
  - destruct u.
    + destruct (IH us p Hin) as (i & Hi & Hu & Hp).
      exists (S i). simpl. split; [lia|]. split; [exact Hu|exact Hp].
    + destruct Hin as [<-|Hin].
      * exists 0%nat. simpl. split; [lia|]. split; reflexivity.
      * destruct (IH us p Hin) as (i & Hi & Hu & Hp).
        exists (S i). simpl. split; [lia|]. split; [exact Hu|exact Hp].
Qed.

(** ** The nearest unvisited point *)

Lemma scan_spec (pts : list Point) (used : list bool) (c : Point) (js : list nat) :
  forall best bestD,
    let r := scan pts used c js best bestD in
    (fst r = best /\ snd r = bestD /\
     forall j, In j js -> nth j used false = false ->
               bestD <= dist2 (nth j pts origin) c)
    \/
    (exists j, fst r = Some j /\ In j js /\ nth j used false = false /\
               snd r = dist2 (nth j pts origin) c /\ snd r < bestD /\
               forall i, In i js -> nth i used false = false ->
                         snd r <= dist2 (nth i pts origin) c).
Proof.
  induction js as [|j js IH]; intros best bestD; simpl.
  - left. split; [reflexivity|]. split; [reflexivity|]. intros j [].
  - destruct (nth j used false) eqn:Hu.
    + destruct (IH best bestD) as [(Hb & Hd & Hall)|(i & Hb & Hi & Hui & Hd & Hlt & Hall)].
      * left. split; [exact Hb|]. split; [exact Hd|].
        intros k [<-|Hk] Hku; [congruence|apply Hall; assumption].
      * right. exists i. split; [exact Hb|]. split; [right; exact Hi|].
        split; [exact Hui|]. split; [exact Hd|]. split; [exact Hlt|].
        intros k [<-|Hk] Hku; [congruence|apply Hall; assumption].
    + destruct (Qltb (dist2 (nth j pts origin) c) bestD) eqn:Hc.
      * apply Qltb_true in Hc.
        destruct (IH (Some j) (dist2 (nth j pts origin) c))
          as [(Hb & Hd & Hall)|(i & Hb & Hi & Hui & Hd & Hlt & Hall)].
        -- right. exists j. split; [exact Hb|]. split; [left; reflexivity|].
           split; [exact Hu|]. split; [exact Hd|]. split; [rewrite Hd; exact Hc|].
           intros k [<-|Hk] Hku; [rewrite Hd; lra|rewrite Hd; apply Hall; assumption].
        -- right. exists i. split; [exact Hb|]. split; [right; exact Hi|].
           split; [exact Hui|]. split; [exact Hd|]. split; [lra|].
           intros k [<-|Hk] Hku; [lra|apply Hall; assumption].
      * apply Qltb_false in Hc.
        destruct (IH best bestD) as [(Hb & Hd & Hall)|(i & Hb & Hi & Hui & Hd & Hlt & Hall)].
        -- left. split; [exact Hb|]. split; [exact Hd|].
           intros k [<-|Hk] Hku; [exact Hc|apply Hall; assumption].
        -- right. exists i. split; [exact Hb|]. split; [right; exact Hi|].
           split; [exact Hui|]. split; [exact Hd|]. split; [exact Hlt|].
           intros k [<-|Hk] Hku; [lra|apply Hall; assumption].
Qed.

Lemma nearest_some (pts : list Point) (used : list bool) (cur best : nat) :
  nearest pts used cur = Some best ->
  (best < length pts)%nat /\ nth best used false = false /\
  forall i, (i < length pts)%nat -> nth i used false = false ->
            dist2 (nth best pts origin) (nth cur pts origin) <=
            dist2 (nth i pts origin) (nth cur pts origin).
Proof.
  unfold nearest. intros H.
  destruct (scan_spec pts used (nth cur pts origin) (seq 0 (length pts)) None sentinel)
    as [(Hb & _)|(j & Hb & Hj & Hu & Hd & _ & Hall)]; [congruence|].
  rewrite H in Hb. injection Hb as ->.
  apply in_seq in Hj. split; [lia|]. split; [exact Hu|].
  intros i Hi Hiu. rewrite <- Hd. apply Hall; [apply in_seq; lia|exact Hiu].
Qed.

Lemma nearest_none (pts : list Point) (used : list bool) (cur : nat) :
  nearest pts used cur = None ->
  forall i, (i < length pts)%nat -> nth i used false = false ->
            sentinel <= dist2 (nth i pts origin) (nth cur pts origin).
Proof.
  unfold nearest. intros H.
  destruct (scan_spec pts used (nth cur pts origin) (seq 0 (length pts)) None sentinel)
    as [(_ & _ & Hall)|(j & Hb & _)]; [|congruence].
  intros i Hi Hu. apply Hall; [apply in_seq; lia|exact Hu].
Qed.

(** ** The chain *)

Lemma chain_acc (pts : list Point) (k : nat) :
  forall used cur ordered,
    chain pts k used cur ordered = ordered ++ chain pts k used cur [].
Proof.
  induction k as [|k IH]; intros used cur ordered; simpl.
  - rewrite app_nil_r. reflexivity.
  - destruct (nearest pts used cur) as [best|]; [|rewrite app_nil_r; reflexivity].
    rewrite (IH _ _ (ordered ++ _)), (IH _ _ [nth best pts origin]).
    rewrite <- app_assoc. reflexivity.
Qed.

Lemma chain_spec (pts : list Point) (Hbox : inBox pts) (k : nat) :
  forall used cur,
    length used = length pts -> (cur < length pts)%nat ->
    (length (unvisited pts used) <= k)%nat ->
    Permutation (unvisited pts used) (chain pts k used cur []) /\
    nnChain (nth cur pts origin :: chain pts k used cur []).
Proof.
  induction k as [|k IH]; intros used cur Hl Hc Hk; simpl chain.
  - destruct (unvisited pts used); simpl in *; [|lia].
    split; [apply Permutation_refl|exact I].
  - destruct (nearest pts used cur) as [best|] eqn:Hn.
    + apply nearest_some in Hn. destruct Hn as (Hb & Hu & Hmin).
      pose proof (unvisited_mark pts used best Hb Hl Hu) as Hp.
      assert (Hk' : (length (unvisited pts (mark used best)) <= k)%nat).
      { apply Permutation_length in Hp. simpl in Hp. lia. }
      destruct (IH (mark used best) best) as (Hperm & Hnn);
        [rewrite length_mark; exact Hl|exact Hb|exact Hk'|].
      rewrite chain_acc. simpl app.
      assert (Hall : Permutation (unvisited pts used)
                       (nth best pts origin :: chain pts k (mark used best) best [])).
      { eapply perm_trans; [exact Hp|]. apply perm_skip. exact Hperm. }
      split; [exact Hall|]. split; [|exact Hnn].
      intros r Hr. apply (Permutation_in _ (Permutation_sym Hall)) in Hr.
      apply In_unvisited in Hr. destruct Hr as (i & Hi & Hiu & <-).
      apply Hmin; assumption.
    + destruct (unvisited pts used) as [|p rest] eqn:Hun.
      * split; [apply Permutation_refl|exact I].
      * exfalso.
        assert (Hin : In p (unvisited pts used)) by (rewrite Hun; left; reflexivity).
        apply In_unvisited in Hin. destruct Hin as (i & Hi & Hiu & Hp).
        pose proof (nearest_none pts used cur Hn i Hi Hiu) as Hfar.
        pose proof (Hbox (nth i pts origin) (nth cur pts origin)
                      (nth_In _ _ Hi) (nth_In _ _ Hc)) as Hnear.
        lra.
Qed.

Lemma orderLetter_long (pts : list Point) :
  (2 < length pts)%nat -> inBox pts -> greedyChainOf pts (orderLetter pts).
Proof.
  intros Hlen Hbox. unfold orderLetter.
  apply Nat.ltb_lt in Hlen. rewrite Hlen. apply Nat.ltb_lt in Hlen. cbv zeta.
  destruct (pickStart_topLeft pts) as (Hs & Htop).
  destruct Hs as [Hs|E]; [|rewrite E in Hlen; simpl in Hlen; lia].
  set (start := pickStart pts (seq 1 (length pts - 1)) 0) in *.
  assert (Hu : nth start (repeat false (length pts)) false = false).
  { apply nth_repeat. }
  pose proof (unvisited_mark pts (repeat false (length pts)) start Hs
                (repeat_length _ _) Hu) as Hp.
  rewrite unvisited_repeat in Hp.
  destruct (chain_spec pts Hbox (length pts - 1)
              (mark (repeat false (length pts)) start) start) as (Hperm & Hnn).
  - rewrite length_mark. apply repeat_length.
  - exact Hs.
  - apply Permutation_length in Hp. simpl in Hp. lia.
  - rewrite chain_acc. simpl app. split; [|split].
    + eapply perm_trans; [exact Hp|]. apply perm_skip. exact Hperm.
    + simpl. intros p E. injection E as <-. exact Htop.
    + exact Hnn.
Qed.

Lemma orderLetter_perm (pts : list Point) :
  inBox pts -> Permutation pts (orderLetter pts).
Proof.
  intros Hbox. destruct (2 <? length pts)%nat eqn:Hlen.
  - apply Nat.ltb_lt in Hlen. apply (orderLetter_long pts Hlen Hbox).
  - unfold orderLetter. rewrite Hlen. apply Permutation_refl.
Qed.

End OrderFacts.

(** * Version 1: facts *)

Module SweepFacts.
Import Sweep.

(** ** The scanline order *)

Lemma insertBy_perm (cmp : Point -> Point -> Q) (p : Point) (l : list Point) :
  Permutation (p :: l) (insertBy cmp p l).
Proof.
  induction l as [|q r IH]; simpl; [apply Permutation_refl|].
  destruct (Qle_bool (cmp p q) 0); [apply Permutation_refl|].
  eapply perm_trans; [apply perm_swap|]. apply perm_skip. exact IH.
Qed.

Lemma sortBy_perm (cmp : Point -> Point -> Q) (l : list Point) :
  Permutation l (sortBy cmp l).
Proof.
  induction l as [|p l IH]; simpl; [apply Permutation_refl|].
  eapply perm_trans; [apply perm_skip; exact IH|]. apply insertBy_perm.
Qed.

(** ** One frame *)

Lemma frameDt_nonneg_floor (now : Q) (s : State) :
  0 <= frameDt now s -> (0 <= Qfloor (revealRate * frameDt now s))%Z.
Proof.
  intros H. change 0%Z with (Qfloor 0). apply Qfloor_resp_le.
  unfold revealRate. lra.
Qed.

Lemma reveal_bounds (dt : Q) (s : State) :
  (revealCount s <= len s)%Z -> (reveal dt s <= len s)%Z.
Proof.
  intros H. unfold reveal. destruct (len s =? 0)%Z; lia.
Qed.

Lemma reveal_mono (dt : Q) (s : State) :
  (revealCount s <= len s)%Z -> (0 <= Qfloor (revealRate * dt))%Z ->
  (revealCount s <= reveal dt s)%Z.
Proof.
  intros H H0. unfold reveal. destruct (len s =? 0)%Z; lia.
Qed.

Lemma stamp_ok (tp : list Point) (n : nat) :
  forall (i : Z) (g : list Mark),
    (0 <= i)%Z -> (i + Z.of_nat n <= Z.of_nat (length tp))%Z ->
    exists g', stamp tp n i g = Ok g'.
Proof.
  induction n as [|n IH]; intros i g Hi Hn; simpl; [eauto|].
  unfold readAtZ. destruct (i <? 0)%Z eqn:E; [apply Z.ltb_lt in E; lia|].
  destruct (nth_error tp (Z.to_nat i)) as [p|] eqn:Hp;
    [|apply nth_error_None in Hp; lia].
  rewrite (BeamFacts.readAt_some _ _ _ Hp). simpl. apply IH; lia.
Qed.

Lemma hotRead_in_bounds (rc : Z) (s : State) :
  (0 <= hotIndex rc s)%Z -> hotRead rc s <> None.
Proof.
  intros H. unfold hotRead. apply Z.leb_le in H. rewrite H. apply Z.leb_le in H.
  apply nth_error_Some. unfold hotIndex, len in *. lia.
Qed.

Lemma progress_full (rc : Z) (s : State) :
  (0 < len s)%Z -> (Qle_bool 1 (progress rc s) = true <-> (len s <= rc)%Z).
Proof.
  intros Hl. unfold progress.
  destruct (len s =? 0)%Z eqn:E; [apply Z.eqb_eq in E; lia|].
  rewrite Qle_bool_iff.
  assert (Hq : 0 < inject_Z (len s))
    by (change 0 with (inject_Z 0); rewrite <- Zlt_Qlt; exact Hl).
  split; intros H.
  - assert (H1 : 1 * inject_Z (len s) <= inject_Z rc / inject_Z (len s) * inject_Z (len s))
      by (apply Qmult_le_compat_r; lra).
    assert (H2 : inject_Z rc / inject_Z (len s) * inject_Z (len s) == inject_Z rc)
      by (field; lra).
    rewrite Zle_Qle. lra.
  - apply Qle_shift_div_l; [exact Hq|].
    rewrite Qmult_1_l, <- Zle_Qle. exact H.
Qed.

Lemma progress_empty (rc : Z) (s : State) :
  len s = 0%Z -> (rc <= 0)%Z -> Qle_bool 1 (progress rc s) = false.
Proof.
  intros Hl Hrc. unfold progress. rewrite Hl. simpl Z.eqb. cbv iota.
  apply not_true_is_false. intro E. apply Qle_bool_iff in E.
  assert (H : inject_Z rc / inject_Z 1 == inject_Z rc) by (field).
  assert (H0 : inject_Z rc <= 0)
    by (change 0 with (inject_Z 0); rewrite <- Zle_Qle; exact Hrc).
  lra.
Qed.

Lemma step_cases (now : Q) (s : State) :
  (revealCount s <= len s)%Z -> textBounds s <> None ->
  exists s' fr,
    step now s = Ok (s', fr) /\
    textPoints s' = textPoints s /\ textBounds s' = textBounds s /\
    let rc := reveal (frameDt now s) s in
    if Qle_bool 1 (progress rc s) then
      let c := if Qeq_bool (completedAt s) 0 then now else completedAt s in
      if Qltb 14 ((now - c) / 1000)
      then revealCount s' = 0%Z /\ completedAt s' = 0 /\ glow s' = []
      else revealCount s' = rc /\ completedAt s' = c
    else revealCount s' = rc /\ completedAt s' = 0.
Proof.
  intros Hrc Hb. unfold step. cbv zeta.
  pose proof (reveal_bounds (frameDt now s) s Hrc) as Hr.
  destruct (stamp_ok (textPoints s)
              (Z.to_nat (reveal (frameDt now s) s -
                         Z.max 0 (reveal (frameDt now s) s - 2500)))
              (Z.max 0 (reveal (frameDt now s) s - 2500)) (glow s ++ [Fade]))
    as (g1 & Eg); [lia|unfold len in Hr; lia|].
  rewrite Eg. simpl bind.
  destruct (textBounds s) as [tb|]; [|congruence].
  destruct (Qle_bool 1 (progress (reveal (frameDt now s) s) s)).
  - destruct (Qltb 14 ((now - (if Qeq_bool (completedAt s) 0 then now else completedAt s))
                       / 1000));
      eexists; eexists; (split; [reflexivity|]); simpl; tauto.
  - eexists; eexists; (split; [reflexivity|]); simpl; tauto.
Qed.

Lemma step_inv (now : Q) (s : State) :
  textBounds s <> None -> (0 <= revealCount s <= len s)%Z ->
  0 <= frameDt now s ->
  exists s' fr,
    step now s = Ok (s', fr) /\ revealInv s' /\
    ((revealCount s <= revealCount s')%Z \/
     (revealCount s' = 0%Z /\ glow s' = [])).
Proof.
  intros Hb [H0 Hrc] Hdt.
  destruct (step_cases now s Hrc Hb) as (s' & fr & E & Etp & Etb & Hcase).
  exists s', fr. split; [exact E|].
  pose proof (reveal_bounds (frameDt now s) s Hrc) as Hr.
  pose proof (reveal_mono (frameDt now s) s Hrc (frameDt_nonneg_floor now s Hdt)) as Hm.
  assert (Hlen : len s' = len s) by (unfold len; rewrite Etp; reflexivity).
  cbv zeta in Hcase.
  destruct (Qle_bool 1 (progress (reveal (frameDt now s) s) s)) eqn:Hp.
  - assert (Hpos : (0 < len s)%Z).
    { destruct (Z.eq_dec (len s) 0) as [Hz|Hz].
      - rewrite progress_empty in Hp; [discriminate|exact Hz|].
        unfold reveal in *. rewrite Hz in *. simpl in *. lia.
      - unfold len in *. lia. }
    destruct (Qltb 14 ((now - (if Qeq_bool (completedAt s) 0 then now else completedAt s))
                       / 1000)).
    + destruct Hcase as (R0 & C0 & G0). split; [|right; tauto].
      unfold revealInv. rewrite Etb, R0, C0, Hlen.
      split; [exact Hb|]. split; [lia|]. intros _. exact Hpos.
    + destruct Hcase as (R0 & C0). split; [|left; lia].
      unfold revealInv. rewrite Etb, R0, Hlen.
      split; [exact Hb|]. split; [lia|]. intros _. exact Hpos.
  - destruct Hcase as (R0 & C0). split; [|left; lia].
    unfold revealInv. rewrite Etb, R0, C0, Hlen.
    split; [exact Hb|]. split; [lia|]. intros H. discriminate H.
Qed.

Lemma Reachable_inv (s : State) :
  Reachable s -> textBounds s <> None /\ (0 <= revealCount s <= len s)%Z.
Proof.
  induction 1 as [pts fontSize t0|s pts fontSize _ _|s s' fr now _ [Hb Hrc] Hdt E].
  - unfold len. simpl. split; [discriminate|lia].
  - unfold len. simpl. split; [discriminate|lia].
  - destruct (step_inv now s Hb Hrc Hdt) as (s1 & fr1 & E1 & (Hb1 & Hrc1 & _) & _).
    rewrite E in E1. injection E1 as <- _. split; assumption.
Qed.

Lemma Settled_inv (s : State) : Settled s -> revealInv s.
Proof.
  intros [pts fontSize t0|s0 s' fr now Hr Hdt E].
  - unfold revealInv, len. simpl. split; [discriminate|]. split; [lia|].
    intros H. discriminate H.
  - destruct (Reachable_inv s0 Hr) as [Hb Hrc].
    destruct (step_inv now s0 Hb Hrc Hdt) as (s1 & fr1 & E1 & Hinv & _).
    rewrite E in E1. injection E1 as <- _. exact Hinv.
Qed.

(** C3. In every state of a running page, a frame step with [dt >= 0]
    returns a state whose [revealCount] is at most [textPoints.length], and
    it is not below the previous [revealCount] unless the step is the reset,
    which puts it to zero and clears the glow buffer. *)
Theorem revealCount_monotone_and_bounded (s : State) (now : Q) :
  Reachable s -> 0 <= frameDt now s ->
  exists s' fr,
    step now s = Ok (s', fr) /\
    (revealCount s' <= len s')%Z /\
    ((revealCount s <= revealCount s')%Z \/
     (revealCount s' = 0%Z /\ glow s' = [])).
Proof.
  intros Hr Hdt. destruct (Reachable_inv s Hr) as [Hb Hrc].
  destruct (step_inv now s Hb Hrc Hdt) as (s' & fr & E & Hinv & Hm).
  exists s', fr. split; [exact E|]. split; [|exact Hm].
  destruct Hinv as (_ & [_ H] & _). exact H.
Qed.

Lemma revealedState_reachable : Reachable revealedState.
Proof.
  apply (reach_step (buildTextPoints [mkPoint 0 0; mkPoint 4 0] 40 1000)
           revealedState
           (mkFrame (Some (-20.800)) (Some (mkPoint 4 0)) true) 1016).
  - apply reach_build.
  - vm_compute. discriminate.
  - vm_compute. reflexivity.
Defined.

Lemma revealCount_monotone_and_bounded_witness :
  let s := buildTextPoints [mkPoint 0 0; mkPoint 4 0] 40 1000 in
  Reachable s /\ 0 <= frameDt 1016 s /\
  exists s' fr,
    step 1016 s = Ok (s', fr) /\
    (revealCount s' <= len s')%Z /\
    ((revealCount s <= revealCount s')%Z \/
     (revealCount s' = 0%Z /\ glow s' = [])).
Proof.
  cbv zeta.
  assert (Hr : Reachable (buildTextPoints [mkPoint 0 0; mkPoint 4 0] 40 1000))
    by apply reach_build.
  assert (Hd : 0 <= frameDt 1016 (buildTextPoints [mkPoint 0 0; mkPoint 4 0] 40 1000))
    by (vm_compute; discriminate).
  split; [exact Hr|]. split; [exact Hd|].
  exact (revealCount_monotone_and_bounded _ 1016 Hr Hd).
Defined.

(** C7. In a state of a running page with no resize since its last frame, in
    which [revealCount] equals [textPoints.length] and the completion time
    has been recorded, a frame step with [dt >= 0] that comes more than 14
    seconds after that time returns a state with [revealCount] back to zero,
    [completedAt] back to zero and an empty glow buffer. *)
Theorem restart_after_dwell (s : State) (now : Q) :
  Settled s -> 0 <= frameDt now s ->
  revealCount s = len s ->
  Qeq_bool (completedAt s) 0 = false ->
  14 < (now - completedAt s) / 1000 ->
  exists s' fr,
    step now s = Ok (s', fr) /\
    revealCount s' = 0%Z /\ completedAt s' = 0 /\ glow s' = [].
Proof.
  intros Hr Hdt Hfull Hc Hsince.
  destruct (Settled_inv s Hr) as (Hb & [H0 Hrc] & Hpos).
  specialize (Hpos Hc).
  destruct (step_cases now s Hrc Hb) as (s' & fr & E & _ & _ & Hcase).
  exists s', fr. split; [exact E|].
  cbv zeta in Hcase. rewrite Hc in Hcase.
  assert (Hrev : reveal (frameDt now s) s = len s).
  { pose proof (frameDt_nonneg_floor now s Hdt). unfold reveal.
    destruct (len s =? 0)%Z; lia. }
  rewrite Hrev in Hcase.
  assert (Hp : Qle_bool 1 (progress (len s) s) = true)
    by (apply progress_full; [exact Hpos|lia]).
  rewrite Hp in Hcase.
  apply Qltb_true in Hsince. rewrite Hsince in Hcase. exact Hcase.
Qed.

Lemma revealedState_settled : Settled revealedState.
Proof.
  apply (settled_step (buildTextPoints [mkPoint 0 0; mkPoint 4 0] 40 1000)
           revealedState
           (mkFrame (Some (-20.800)) (Some (mkPoint 4 0)) true) 1016).
  - apply reach_build.
  - vm_compute. discriminate.
  - vm_compute. reflexivity.
Defined.

Lemma restart_after_dwell_witness :
  Settled revealedState /\ 0 <= frameDt 16000 revealedState /\
  revealCount revealedState = len revealedState /\
  Qeq_bool (completedAt revealedState) 0 = false /\
  14 < (16000 - completedAt revealedState) / 1000 /\
  exists s' fr,
    step 16000 revealedState = Ok (s', fr) /\
    revealCount s' = 0%Z /\ completedAt s' = 0 /\ glow s' = [].
Proof.
  assert (Hd : 0 <= frameDt 16000 revealedState) by (vm_compute; discriminate).
  assert (Hf : revealCount revealedState = len revealedState) by reflexivity.
  assert (Hc : Qeq_bool (completedAt revealedState) 0 = false) by reflexivity.
  assert (Hs : 14 < (16000 - completedAt revealedState) / 1000)
    by (vm_compute; reflexivity).
  split; [exact revealedState_settled|]. split; [exact Hd|].
  split; [exact Hf|]. split; [exact Hc|]. split; [exact Hs|].
  exact (restart_after_dwell revealedState 16000 revealedState_settled Hd Hf Hc Hs).
Defined.

Lemma step_keeps_textPoints (now : Q) (s s' : State) (fr : Frame) :
  step now s = Ok (s', fr) -> textPoints s' = textPoints s.
Proof.
  unfold step. cbv zeta.
  destruct (stamp (textPoints s)
              (Z.to_nat (reveal (frameDt now s) s -
                         Z.max 0 (reveal (frameDt now s) s - 2500)))
              (Z.max 0 (reveal (frameDt now s) s - 2500)) (glow s ++ [Fade]))
    as [g1| |]; simpl bind; try discriminate.
  destruct (textBounds s) as [tb|].
  - destruct (Qle_bool 1 (progress (reveal (frameDt now s) s) s)).
    + destruct (Qltb 14 ((now - (if Qeq_bool (completedAt s) 0 then now
                                  else completedAt s)) / 1000));
        intros H; injection H as <- _; reflexivity.
    + intros H; injection H as <- _; reflexivity.
  - intros H; injection H as <- _; reflexivity.
Qed.

End SweepFacts.

(** * The path orderer and the array reads, over both versions *)


Lemma threePoints_inBox : inBox [mkPoint 0 1; mkPoint 1 0; mkPoint 5 5].
Proof.
  intros p q Hp Hq. simpl in Hp, Hq.
  destruct Hp as [<-|[<-|[<-|[]]]]; destruct Hq as [<-|[<-|[<-|[]]]];
    vm_compute; reflexivity.
Defined.


(** The box cannot be dispensed with: samples a thousand million pixels apart
    are beyond the search sentinel, and the chain stops at the first one. *)
Remark samples_beyond_the_sentinel :
  Beam.orderLetter [mkPoint 0 0; mkPoint 1e9 0; mkPoint 2e9 0] = [mkPoint 0 0].
Proof. vm_compute. reflexivity. Qed.

(** C2, as stated, fails: a letter with exactly two samples is stored in
    sampling order.  Two samples of one raster row, jittered so that the
    second is the higher one, are stored with the lower one first. *)
Lemma two_samples_keep_sampling_order :
  let pts := [mkPoint 10 (101 # 5); mkPoint 11 (99 # 5)] in
  inBox pts /\ Beam.orderLetter pts = pts /\ ~ greedyChainOf pts (Beam.orderLetter pts).
Proof.
  cbv zeta. split; [|split].
  - intros p q Hp Hq. simpl in Hp, Hq.
    destruct Hp as [<-|[<-|[]]]; destruct Hq as [<-|[<-|[]]]; vm_compute; reflexivity.
  - reflexivity.
  - intros (_ & Htop & _).
    specialize (Htop (mkPoint 10 (101 # 5)) eq_refl (mkPoint 11 (99 # 5))).
    destruct Htop as [H|[H _]]; [right; left; reflexivity| |].
    + vm_compute in H. discriminate H.
    + vm_compute in H. discriminate H.
Qed.

(** C2, amended.  For a letter with more than two samples, all in one raster
    box, the stored sequence is the greedy nearest-neighbour chain: a
    permutation of the samples that starts at the sample with the smallest
    [y] (smallest [x] among equals) and in which every element is followed by
    an unvisited sample at the least distance from it.  A letter with at most
    two samples is stored as sampled. *)
Theorem long_letters_are_greedy_chains (pts : list Point) :
  ((2 < length pts)%nat -> inBox pts -> greedyChainOf pts (Beam.orderLetter pts)) /\
  ((length pts <= 2)%nat -> Beam.orderLetter pts = pts).
Proof.
  split.
  - apply OrderFacts.orderLetter_long.
  - intros H. unfold Beam.orderLetter.
    destruct (2 <? length pts)%nat eqn:E; [apply Nat.ltb_lt in E; lia|reflexivity].
Qed.

Lemma long_letters_are_greedy_chains_witness :
  (2 < length [mkPoint 0 1; mkPoint 1 0; mkPoint 5 5])%nat /\
  inBox [mkPoint 0 1; mkPoint 1 0; mkPoint 5 5] /\
  greedyChainOf [mkPoint 0 1; mkPoint 1 0; mkPoint 5 5]
                (Beam.orderLetter [mkPoint 0 1; mkPoint 1 0; mkPoint 5 5]).
Proof.
  assert (H : (2 < length [mkPoint 0 1; mkPoint 1 0; mkPoint 5 5])%nat)
    by (simpl; lia).
  split; [exact H|]. split; [exact threePoints_inBox|].
  exact (proj1 (long_letters_are_greedy_chains [mkPoint 0 1; mkPoint 1 0; mkPoint 5 5])
           H threePoints_inBox).
Defined.

(** C9. No frame reads a point array out of bounds.  Version 1: in every
    state of a running page the step returns, so no read of the stamping
    loop fails, and whenever the hotspot index passes its guard [idx >= 0]
    the read of [textPoints[idx]] finds a point.  Version 2: [advanceTip]
    never fails on a read, whatever the state and the fuel, and it returns. *)
Theorem reads_stay_in_bounds :
  (forall s now, Sweep.Reachable s ->
     (exists s' fr, Sweep.step now s = Ok (s', fr)) /\
     (forall rc, (0 <= Sweep.hotIndex rc s)%Z -> Sweep.hotRead rc s <> None)) /\
  (forall s dt fuel, Beam.advanceTipFuel fuel dt s <> TypeError) /\
  (forall s dt, exists s', Beam.advanceTip dt s = Ok s').
Proof.
  split; [|split].
  - intros s now Hr. split.
    + destruct (SweepFacts.Reachable_inv s Hr) as (Hb & [_ Hrc]).
      destruct (SweepFacts.step_cases now s Hrc Hb) as (s' & fr & E & _).
      exists s', fr. exact E.
    + intros rc. apply SweepFacts.hotRead_in_bounds.
  - intros s dt fuel E.
    pose proof (BeamFacts.advanceTipFuel_char fuel dt s) as H.
    rewrite E in H. exact H.
  - intros s dt. destruct (BeamFacts.advanceTip_total dt s) as (s' & E & _).
    exists s'. exact E.
Qed.

Lemma reads_stay_in_bounds_witness :
  Sweep.Reachable (Sweep.buildTextPoints [] 40 1000) /\
  (exists s' fr, Sweep.step 1016 (Sweep.buildTextPoints [] 40 1000) = Ok (s', fr)) /\
  (forall rc, (0 <= Sweep.hotIndex rc (Sweep.buildTextPoints [] 40 1000))%Z ->
              Sweep.hotRead rc (Sweep.buildTextPoints [] 40 1000) <> None).
Proof.
  assert (Hr : Sweep.Reachable (Sweep.buildTextPoints [] 40 1000))
    by apply Sweep.reach_build.
  split; [exact Hr|].
  exact (proj1 reads_stay_in_bounds (Sweep.buildTextPoints [] 40 1000) 1016 Hr).
Defined.

(** * Version 2: how a call moves the beam *)

Module BeamProgress.
Import Beam.

(** ** A rule for the traversal loop *)

Section LoopRule.

Variable I : Q -> State -> Prop.

Hypothesis I_finish :
  forall rem s L f s1,
    I rem s -> 0 < rem ->
    nth_error (letters s) (curL s) = Some L ->
    (Z.of_nat (length (points L)) - 1 <= Z.of_nat (curIdx s))%Z ->
    skipOnly f (nextLetter s) = Ok s1 ->
    I rem s1.

Hypothesis I_segment :
  forall rem s L r s1,
    I rem s -> 0 < rem ->
    nth_error (letters s) (curL s) = Some L ->
    (Z.of_nat (curIdx s) < Z.of_nat (length (points L)) - 1)%Z ->
    segmentStep (points L) rem s = Ok (r, s1) ->
    I r s1.

Lemma moveLoop_rule (fuel : nat) :
  forall rem s s',
    I rem s -> moveLoop fuel rem s = Ok s' ->
    exists rem', I rem' s' /\
                 (rem' <= 0 \/ (length (letters s') <= curL s')%nat).
Proof.
  induction fuel as [|f IH]; intros rem s s' HI H; simpl in H; [discriminate|].
  destruct (Qltb 0 rem) eqn:Hr; simpl in H.
  2: { injection H as <-. exists rem. split; [exact HI|].
       left. apply Qltb_false. exact Hr. }
  apply Qltb_true in Hr.
  destruct (curL s <? length (letters s))%nat eqn:Hc.
  2: { injection H as <-. exists rem. split; [exact HI|].
       right. apply Nat.ltb_ge. exact Hc. }
  apply Nat.ltb_lt in Hc.
  destruct (nth_error (letters s) (curL s)) as [L|] eqn:HL;
    [|apply nth_error_None in HL; lia].
  rewrite (BeamFacts.readAt_some _ _ _ HL) in H. simpl bind in H.
  destruct (Z.of_nat (length (points L)) - 1 <=? Z.of_nat (curIdx s))%Z eqn:Hfin.
  - apply Z.leb_le in Hfin.
    destruct (skipOnly f (nextLetter s)) as [s1| |] eqn:Hsk; simpl bind in H;
      try discriminate.
    pose proof (I_finish rem s L f s1 HI Hr HL Hfin Hsk) as HI1.
    destruct (length (letters s1) <=? curL s1)%nat eqn:Hex.
    + injection H as <-. exists rem. split; [exact HI1|].
      right. apply Nat.leb_le. exact Hex.
    + apply (IH rem s1 s' HI1 H).
  - apply Z.leb_gt in Hfin.
    destruct (segmentStep (points L) rem s) as [[r s1]| |] eqn:Hseg; simpl bind in H;
      try discriminate.
    apply (IH r s1 s'); [|exact H].
    apply (I_segment rem s L r s1 HI Hr HL Hfin Hseg).
Qed.

End LoopRule.

(** ** What one segment step returns *)

Lemma segmentStep_result (pts2 : list Point) (rem r : Q) (s s1 : State) :
  segmentStep pts2 rem s = Ok (r, s1) ->
  exists a b,
    nth_error pts2 (curIdx s) = Some a /\
    nth_error pts2 (S (curIdx s)) = Some b /\
    let t := curT s + Qmin (1 - curT s) rem in
    let p := mkPoint (lerp (px a) (px b) t) (lerp (py a) (py b) t) in
    r = rem - Qmin (1 - curT s) rem /\
    letters s1 = letters s /\ curL s1 = curL s /\
    tip s1 = Some p /\ ink s1 = ink s ++ [p] /\
    tail s1 = pushTailList p (tail s) /\
    ((Qle_bool 1 t = true /\ curIdx s1 = S (curIdx s) /\ curT s1 = 0) \/
     (Qle_bool 1 t = false /\ curIdx s1 = curIdx s /\ curT s1 = t)).
Proof.
  unfold segmentStep. intros H.
  destruct (nth_error pts2 (curIdx s)) as [a|] eqn:Ha;
    [|unfold readAt in H; rewrite Ha in H; discriminate].
  destruct (nth_error pts2 (S (curIdx s))) as [b|] eqn:Hb;
    [|rewrite (BeamFacts.readAt_some _ _ _ Ha) in H;
      unfold readAt in H; rewrite Hb in H; discriminate].
  rewrite (BeamFacts.readAt_some _ _ _ Ha), (BeamFacts.readAt_some _ _ _ Hb) in H.
  simpl bind in H. exists a, b. split; [reflexivity|]. split; [reflexivity|].
  cbv zeta.
  destruct (Qle_bool 1 (curT s + Qmin (1 - curT s) rem)) eqn:Ht;
    injection H as <- <-; simpl; repeat split; auto.
Qed.

Lemma skipOnly_result (fuel : nat) (s s1 : State) :
  skipOnly fuel s = Ok s1 ->
  s1 = setCurL (curL s1) s /\ (curL s <= curL s1)%nat /\ onDrawable s1.
Proof.
  intros H. pose proof (BeamFacts.skipOnly_char fuel s) as Hc.
  rewrite H in Hc. exact Hc.
Qed.

Lemma skipReset_result (fuel : nat) :
  forall s s1,
    skipReset fuel s = Ok s1 ->
    letters s1 = letters s /\ ink s1 = ink s /\
    (s1 = s \/
     ((curL s < curL s1)%nat /\ curIdx s1 = 0%nat /\ curT s1 = 0 /\
      tip s1 = None /\ tail s1 = [] /\
      exists L, nth_error (letters s) (curL s) = Some L /\ tooShort L = true)).
Proof.
  induction fuel as [|f IH]; intros s s1 H; simpl in H; [discriminate|].
  destruct (curL s <? length (letters s))%nat.
  2: { injection H as <-. tauto. }
  destruct (nth_error (letters s) (curL s)) as [L|] eqn:HL;
    [|unfold readAt in H; rewrite HL in H; discriminate].
  rewrite (BeamFacts.readAt_some _ _ _ HL) in H. simpl bind in H.
  destruct (tooShort L) eqn:Hs.
  2: { injection H as <-. tauto. }
  destruct (IH _ _ H) as (El & Ei & Hr). split; [exact El|]. split; [exact Ei|].
  right. destruct Hr as [->|(Hlt & H0 & H1 & H2 & H3 & _)].
  - simpl. repeat split; try lia. exists L. tauto.
  - simpl in Hlt. repeat split; try assumption; try lia. exists L. tauto.
Qed.

(** ** Units *)

Lemma segments_nonneg (L : Letter) : 0 <= segments L.
Proof.
  unfold segments. change 0 with (inject_Z 0). rewrite <- Zle_Qle. lia.
Qed.

Lemma segmentsOf_nonneg (ls : list Letter) : 0 <= segmentsOf ls.
Proof.
  induction ls as [|L ls IH]; simpl; [lra|].
  pose proof (segments_nonneg L). lra.
Qed.

Lemma segments_short (L : Letter) : tooShort L = true -> segments L = 0.
Proof.
  unfold tooShort, segments. intros H. apply Nat.ltb_lt in H.
  replace (length (points L) - 1)%nat with 0%nat by lia. reflexivity.
Qed.

Lemma segmentsOf_skipn_cons (ls : list Letter) (k : nat) (L : Letter) :
  nth_error ls k = Some L ->
  segmentsOf (skipn k ls) = segments L + segmentsOf (skipn (S k) ls).
Proof.
  revert k. induction ls as [|L0 ls IH]; intros [|k] H; simpl in *; try discriminate.
  - injection H as ->. reflexivity.
  - apply IH. exact H.
Qed.

Lemma unitsLeft_fresh (s : State) :
  curIdx s = 0%nat -> curT s = 0 ->
  unitsLeft s == segmentsOf (skipn (curL s) (letters s)).
Proof.
  intros Hi Ht. unfold unitsLeft.
  destruct (nth_error (letters s) (curL s)) as [L|] eqn:HL.
  - rewrite (segmentsOf_skipn_cons _ _ _ HL), Hi, Ht. simpl Z.of_nat.
    destruct (0 <? Z.of_nat (length (points L)) - 1)%Z eqn:E.
    + change (inject_Z 0) with 0. lra.
    + apply Z.ltb_ge in E. rewrite segments_short; [lra|].
      unfold tooShort. apply Nat.ltb_lt. lia.
  - apply nth_error_None in HL. rewrite skipn_all2 by exact HL. simpl. lra.
Qed.

Lemma unitsLeft_done (s : State) (L : Letter) :
  nth_error (letters s) (curL s) = Some L ->
  (Z.of_nat (length (points L)) - 1 <= Z.of_nat (curIdx s))%Z ->
  unitsLeft s == segmentsOf (skipn (S (curL s)) (letters s)).
Proof.
  intros HL H. unfold unitsLeft. rewrite HL.
  destruct (Z.of_nat (curIdx s) <? Z.of_nat (length (points L)) - 1)%Z eqn:E;
    [apply Z.ltb_lt in E; lia|lra].
Qed.

Lemma unitsLeft_nonneg (s : State) : unitT s -> 0 <= unitsLeft s.
Proof.
  intros [H0 H1]. unfold unitsLeft.
  destruct (nth_error (letters s) (curL s)) as [L|]; [|lra].
  pose proof (segmentsOf_nonneg (skipn (S (curL s)) (letters s))) as Hr.
  destruct (Z.of_nat (curIdx s) <? Z.of_nat (length (points L)) - 1)%Z eqn:E; [|lra].
  apply Z.ltb_lt in E.
  assert (Hs : inject_Z (Z.of_nat (curIdx s)) + 1 <= segments L).
  { unfold segments. change 1 with (inject_Z 1).
    rewrite <- inject_Z_plus, <- Zle_Qle. lia. }
  lra.
Qed.

Lemma skipOnly_units (fuel : nat) :
  forall s s1,
    skipOnly fuel s = Ok s1 -> curIdx s = 0%nat -> curT s = 0 ->
    unitsLeft s1 == segmentsOf (skipn (curL s) (letters s)).
Proof.
  induction fuel as [|f IH]; intros s s1 H Hi Ht; simpl in H; [discriminate|].
  destruct (curL s <? length (letters s))%nat.
  2: { injection H as <-. apply unitsLeft_fresh; assumption. }
  destruct (nth_error (letters s) (curL s)) as [L|] eqn:HL;
    [|unfold readAt in H; rewrite HL in H; discriminate].
  rewrite (BeamFacts.readAt_some _ _ _ HL) in H. simpl bind in H.
  destruct (tooShort L) eqn:Hs.
  2: { injection H as <-. apply unitsLeft_fresh; assumption. }
  pose proof (IH _ _ H Hi Ht) as E.
  change (unitsLeft s1 == segmentsOf (skipn (S (curL s)) (letters s))) in E.
  rewrite E, (segmentsOf_skipn_cons _ _ _ HL), (segments_short L Hs). lra.
Qed.

Lemma skipReset_units (fuel : nat) :
  forall s s1, skipReset fuel s = Ok s1 -> unitsLeft s1 == unitsLeft s.
Proof.
  induction fuel as [|f IH]; intros s s1 H; simpl in H; [discriminate|].
  destruct (curL s <? length (letters s))%nat.
  2: { injection H as <-. reflexivity. }
  destruct (nth_error (letters s) (curL s)) as [L|] eqn:HL;
    [|unfold readAt in H; rewrite HL in H; discriminate].
  rewrite (BeamFacts.readAt_some _ _ _ HL) in H. simpl bind in H.
  destruct (tooShort L) eqn:Hs.
  2: { injection H as <-. reflexivity. }
  rewrite (IH _ _ H).
  rewrite (unitsLeft_fresh (nextLetter s)) by reflexivity.
  change (segmentsOf (skipn (S (curL s)) (letters s)) == unitsLeft s).
  rewrite (unitsLeft_done s L HL); [reflexivity|].
  unfold tooShort in Hs. apply Nat.ltb_lt in Hs. lia.
Qed.

(** ** A rule for the whole call *)

Section CallRule.

Variable I : Q -> State -> Prop.

Hypothesis I_skip :
  forall rem s L,
    I rem s -> nth_error (letters s) (curL s) = Some L -> tooShort L = true ->
    I rem (nextLetter s).

Hypothesis I_init :
  forall rem s L p0,
    I rem s -> tip s = None ->
    nth_error (letters s) (curL s) = Some L -> nth_error (points L) 0 = Some p0 ->
    I rem (setProgress 0 0 (pushTail p0 (burnPoint p0 (setTip p0 s)))).

Hypothesis I_finish :
  forall rem s L f s1,
    I rem s -> 0 < rem ->
    nth_error (letters s) (curL s) = Some L ->
    (Z.of_nat (length (points L)) - 1 <= Z.of_nat (curIdx s))%Z ->
    skipOnly f (nextLetter s) = Ok s1 ->
    I rem s1.

Hypothesis I_segment :
  forall rem s L r s1,
    I rem s -> 0 < rem ->
    nth_error (letters s) (curL s) = Some L ->
    (Z.of_nat (curIdx s) < Z.of_nat (length (points L)) - 1)%Z ->
    segmentStep (points L) rem s = Ok (r, s1) ->
    I r s1.

Lemma skipReset_rule (fuel : nat) :
  forall rem s s1, I rem s -> skipReset fuel s = Ok s1 -> I rem s1.
Proof.
  induction fuel as [|f IH]; intros rem s s1 HI H; simpl in H; [discriminate|].
  destruct (curL s <? length (letters s))%nat.
  2: { injection H as <-. exact HI. }
  destruct (nth_error (letters s) (curL s)) as [L|] eqn:HL;
    [|unfold readAt in H; rewrite HL in H; discriminate].
  rewrite (BeamFacts.readAt_some _ _ _ HL) in H. simpl bind in H.
  destruct (tooShort L) eqn:Hs.
  2: { injection H as <-. exact HI. }
  apply (IH rem (nextLetter s) s1); [|exact H].
  apply (I_skip rem s L HI HL Hs).
Qed.

Lemma advanceTipFuel_rule (fuel : nat) (dt : Q) (s s' : State) :
  I (pointsPerSecond * dt) s -> advanceTipFuel fuel dt s = Ok s' ->
  exists rem', I rem' s' /\
               (rem' <= 0 \/ (length (letters s') <= curL s')%nat).
Proof.
  intros HI H. unfold advanceTipFuel in H.
  destruct (skipReset fuel s) as [s1| |] eqn:Hsk; simpl bind in H; try discriminate.
  pose proof (skipReset_rule fuel _ s s1 HI Hsk) as HI1.
  destruct (length (letters s1) <=? curL s1)%nat eqn:Hex.
  { injection H as <-. exists (pointsPerSecond * dt). split; [exact HI1|].
    right. apply Nat.leb_le. exact Hex. }
  destruct (nth_error (letters s1) (curL s1)) as [L|] eqn:HL;
    [|unfold readAt in H; rewrite HL in H; discriminate].
  rewrite (BeamFacts.readAt_some _ _ _ HL) in H. simpl bind in H.
  unfold initTip in H. destruct (tip s1) as [p|] eqn:Htip; simpl bind in H.
  - apply (moveLoop_rule I I_finish I_segment fuel _ s1 s' HI1 H).
  - destruct (nth_error (points L) 0) as [p0|] eqn:H0;
      [|unfold readAt in H; rewrite H0 in H; discriminate].
    rewrite (BeamFacts.readAt_some _ _ _ H0) in H. simpl bind in H.
    refine (moveLoop_rule I I_finish I_segment fuel _ _ s' _ H).
    apply (I_init _ s1 L p0 HI1 Htip HL H0).
Qed.

End CallRule.

(** ** The draw state between two calls *)

Lemma pushTailList_nonempty (p : Point) (t : list Point) : pushTailList p t <> [].
Proof.
  unfold pushTailList. destruct t as [|a t]; [discriminate|].
  destruct (distGe (List.last (a :: t) p) p tailStepMin); [|discriminate].
  cbv zeta. destruct (tailLength <? length ((a :: t) ++ [p]))%nat eqn:E.
  - apply Nat.ltb_lt in E. simpl in *. rewrite length_app in E. simpl in E.
    unfold tailLength in E. destruct t; simpl in *; [lia|discriminate].
  - simpl. discriminate.
Qed.

Lemma drawInv_fresh (s : State) (c : nat) : drawInv (setCurL c (nextLetter s)).
Proof.
  unfold drawInv, tipInv, unitT. simpl.
  split; [tauto|]. split; [lra|]. split; [unfold tailLength; lia|exact I].
Qed.

Lemma drawInv_segment (pts2 : list Point) (rem r : Q) (s s1 : State) :
  drawInv s -> 0 < rem -> segmentStep pts2 rem s = Ok (r, s1) -> drawInv s1.
Proof.
  intros (_ & [H0 H1] & Hlen & Hsp) Hrem H.
  destruct (segmentStep_result pts2 rem r s s1 H)
    as (a & b & _ & _ & _ & _ & _ & Etip & _ & Etail & Hcase).
  destruct (BeamFacts.pushTailList_inv
              (mkPoint (lerp (px a) (px b) (curT s + Qmin (1 - curT s) rem))
                       (lerp (py a) (py b) (curT s + Qmin (1 - curT s) rem)))
              (tail s) Hlen Hsp) as [Hlen' Hsp'].
  unfold drawInv, tipInv, unitT. rewrite Etip, Etail.
  split; [split; [discriminate|]|].
  - intros E. exfalso. exact (pushTailList_nonempty _ _ E).
  - split; [|split; assumption].
    destruct Hcase as [(_ & _ & ->)|(Ht & _ & ->)]; [lra|].
    split.
    + destruct (Q.min_spec (1 - curT s) rem) as [[_ Hm]|[_ Hm]]; rewrite Hm; lra.
    + apply Qnot_le_lt. intro Hle. apply Qle_bool_iff in Hle. congruence.
Qed.

Lemma drawInv_advance (fuel : nat) (dt : Q) (s s' : State) :
  drawInv s -> advanceTipFuel fuel dt s = Ok s' -> drawInv s'.
Proof.
  intros HI H.
  destruct (advanceTipFuel_rule (fun _ s => drawInv s)) with (fuel := fuel) (dt := dt)
    (s := s) (s' := s') as (rem' & HI' & _); try assumption.
  - intros rem s0 L _ _ _. apply (drawInv_fresh s0 (S (curL s0))).
  - intros rem s0 L p0 (_ & Hu & Hlen & Hsp) _ _ _.
    destruct (BeamFacts.pushTailList_inv p0 (tail s0) Hlen Hsp) as [Hlen' Hsp'].
    unfold drawInv, tipInv, unitT. simpl.
    split; [split; [discriminate|]|].
    + intros E. exfalso. exact (pushTailList_nonempty _ _ E).
    + split; [lra|]. split; assumption.
  - intros rem s0 L f s1 _ _ _ _ Hsk.
    destruct (skipOnly_result f _ s1 Hsk) as (E & _). rewrite E.
    apply (drawInv_fresh s0 (curL s1)).
  - intros rem s0 L r s1 HI0 Hrem _ _ Hseg.
    apply (drawInv_segment (points L) rem r s0 s1 HI0 Hrem Hseg).
Qed.

Lemma Reachable_drawInv (s : State) : Reachable s -> drawInv s.
Proof.
  induction 1 as [ls|s s' dt _ IH E].
  - unfold drawInv, tipInv, unitT. simpl.
    split; [tauto|]. split; [lra|]. split; [unfold tailLength; lia|exact I].
  - apply (drawInv_advance (fuelBound s) dt s s' IH E).
Qed.

(** ** Units used up by a call *)

Lemma drawInv_init (s : State) (p0 : Point) :
  drawInv s -> drawInv (setProgress 0 0 (pushTail p0 (burnPoint p0 (setTip p0 s)))).
Proof.
  intros (_ & Hu & Hlen & Hsp).
  destruct (BeamFacts.pushTailList_inv p0 (tail s) Hlen Hsp) as [Hlen' Hsp'].
  unfold drawInv, tipInv, unitT. simpl.
  split; [split; [discriminate|]|].
  - intros E. exfalso. exact (pushTailList_nonempty _ _ E).
  - split; [lra|]. split; assumption.
Qed.

Lemma units_skip (s : State) (L : Letter) :
  nth_error (letters s) (curL s) = Some L -> tooShort L = true ->
  unitsLeft (nextLetter s) == unitsLeft s.
Proof.
  intros HL Hs. rewrite (unitsLeft_fresh (nextLetter s)) by reflexivity.
  change (segmentsOf (skipn (S (curL s)) (letters s)) == unitsLeft s).
  rewrite (unitsLeft_done s L HL); [reflexivity|].
  unfold tooShort in Hs. apply Nat.ltb_lt in Hs. lia.
Qed.

Lemma units_init (s : State) (p0 : Point) :
  drawInv s -> tip s = None ->
  unitsLeft (setProgress 0 0 (pushTail p0 (burnPoint p0 (setTip p0 s)))) == unitsLeft s.
Proof.
  intros ((Hnone & _) & _) Htip. destruct (Hnone Htip) as (Hi & Ht & _).
  unfold unitsLeft. simpl. rewrite Hi, Ht. reflexivity.
Qed.

Lemma units_finish (s s1 : State) (L : Letter) (f : nat) :
  nth_error (letters s) (curL s) = Some L ->
  (Z.of_nat (length (points L)) - 1 <= Z.of_nat (curIdx s))%Z ->
  skipOnly f (nextLetter s) = Ok s1 ->
  unitsLeft s1 == unitsLeft s.
Proof.
  intros HL Hfin Hsk.
  pose proof (skipOnly_units f (nextLetter s) s1 Hsk eq_refl eq_refl) as E.
  change (unitsLeft s1 == segmentsOf (skipn (S (curL s)) (letters s))) in E.
  rewrite E, (unitsLeft_done s L HL Hfin). reflexivity.
Qed.

Lemma units_segment (s s1 : State) (L : Letter) (rem r : Q) :
  unitT s -> 0 < rem ->
  nth_error (letters s) (curL s) = Some L ->
  (Z.of_nat (curIdx s) < Z.of_nat (length (points L)) - 1)%Z ->
  segmentStep (points L) rem s = Ok (r, s1) ->
  0 <= r /\ unitsLeft s1 - r == unitsLeft s - rem.
Proof.
  intros [H0 H1] Hrem HL Hidx H.
  destruct (segmentStep_result (points L) rem r s s1 H)
    as (a & b & _ & _ & Er & El & Ec & _ & _ & _ & Hcase).
  pose proof (Q.le_min_l (1 - curT s) rem) as Hml.
  pose proof (Q.le_min_r (1 - curT s) rem) as Hmr.
  split; [rewrite Er; lra|].
  unfold unitsLeft. rewrite El, Ec, HL.
  rewrite (proj2 (Z.ltb_lt _ _) Hidx).
  assert (HS : inject_Z (Z.of_nat (S (curIdx s))) == inject_Z (Z.of_nat (curIdx s)) + 1).
  { rewrite Nat2Z.inj_succ. unfold Z.succ. rewrite inject_Z_plus. reflexivity. }
  destruct Hcase as [(Ht & Ei & ET)|(Ht & Ei & ET)]; rewrite Ei, ET, Er.
  - apply Qle_bool_iff in Ht.
    destruct (Z.of_nat (S (curIdx s)) <? Z.of_nat (length (points L)) - 1)%Z eqn:E.
    + rewrite HS. lra.
    + apply Z.ltb_ge in E.
      assert (Hseg : segments L == inject_Z (Z.of_nat (curIdx s)) + 1).
      { unfold segments. rewrite <- HS.
        replace (Z.of_nat (length (points L) - 1)) with (Z.of_nat (S (curIdx s))) by lia.
        reflexivity. }
      lra.
  - rewrite (proj2 (Z.ltb_lt _ _) Hidx). lra.
Qed.

Lemma units_forward (fuel : nat) (dt : Q) (s s' : State) :
  drawInv s -> 0 <= pointsPerSecond * dt ->
  advanceTipFuel fuel dt s = Ok s' ->
  unitsLeft s' == Qmax 0 (unitsLeft s - pointsPerSecond * dt) /\
  (unitsLeft s < pointsPerSecond * dt -> (length (letters s') <= curL s')%nat).
Proof.
  intros HI Hrem H.
  destruct (advanceTipFuel_rule
              (fun rem s1 => drawInv s1 /\ 0 <= rem /\
                             unitsLeft s1 - rem == unitsLeft s - pointsPerSecond * dt))
    with (fuel := fuel) (dt := dt) (s := s) (s' := s')
    as (rem' & (HI' & Hr' & Hu') & Hend).
  - intros rem s0 L (HI0 & Hr & Hu) HL Hs.
    split; [apply (drawInv_fresh s0 (S (curL s0)))|]. split; [exact Hr|].
    rewrite (units_skip s0 L HL Hs). exact Hu.
  - intros rem s0 L p0 (HI0 & Hr & Hu) Htip _ _.
    split; [apply drawInv_init; exact HI0|]. split; [exact Hr|].
    rewrite (units_init s0 p0 HI0 Htip). exact Hu.
  - intros rem s0 L f s1 (HI0 & Hr & Hu) _ HL Hfin Hsk.
    split.
    + destruct (skipOnly_result f _ s1 Hsk) as (E & _). rewrite E.
      apply (drawInv_fresh s0 (curL s1)).
    + split; [exact Hr|]. rewrite (units_finish s0 s1 L f HL Hfin Hsk). exact Hu.
  - intros rem s0 L r s1 (HI0 & Hr & Hu) Hpos HL Hidx Hseg.
    split; [apply (drawInv_segment (points L) rem r s0 s1 HI0 Hpos Hseg)|].
    destruct HI0 as (_ & HT & _).
    destruct (units_segment s0 s1 L rem r HT Hpos HL Hidx Hseg) as [Hr1 Hu1].
    split; [exact Hr1|]. rewrite Hu1. exact Hu.
  - split; [exact HI|]. split; [exact Hrem|reflexivity].
  - exact H.
  - destruct HI' as (_ & HT' & _). pose proof (unitsLeft_nonneg s' HT') as Hn.
    destruct Hend as [Hz|Hex].
    + split; [|intros Hlt; lra].
      destruct (Q.max_spec 0 (unitsLeft s - pointsPerSecond * dt)) as [[Hc Hm]|[Hc Hm]];
        rewrite Hm; lra.
    + split; [|intros _; exact Hex].
      assert (E0 : unitsLeft s' = 0).
      { unfold unitsLeft. apply nth_error_None in Hex. rewrite Hex. reflexivity. }
      rewrite E0 in *.
      destruct (Q.max_spec 0 (unitsLeft s - pointsPerSecond * dt)) as [[Hc Hm]|[Hc Hm]];
        rewrite Hm; lra.
Qed.

Lemma units_idle (fuel : nat) (dt : Q) (s s' : State) :
  drawInv s -> pointsPerSecond * dt <= 0 ->
  advanceTipFuel fuel dt s = Ok s' ->
  unitsLeft s' == unitsLeft s.
Proof.
  intros HI Hrem H.
  destruct (advanceTipFuel_rule
              (fun rem s1 => drawInv s1 /\ rem <= 0 /\ unitsLeft s1 == unitsLeft s))
    with (fuel := fuel) (dt := dt) (s := s) (s' := s')
    as (rem' & (_ & _ & Hu') & _).
  - intros rem s0 L (HI0 & Hr & Hu) HL Hs.
    split; [apply (drawInv_fresh s0 (S (curL s0)))|]. split; [exact Hr|].
    rewrite (units_skip s0 L HL Hs). exact Hu.
  - intros rem s0 L p0 (HI0 & Hr & Hu) Htip _ _.
    split; [apply drawInv_init; exact HI0|]. split; [exact Hr|].
    rewrite (units_init s0 p0 HI0 Htip). exact Hu.
  - intros rem s0 L f s1 (_ & Hr & _) Hpos. lra.
  - intros rem s0 L r s1 (_ & Hr & _) Hpos. lra.
  - split; [exact HI|]. split; [exact Hrem|reflexivity].
  - exact H.
  - exact Hu'.
Qed.

Lemma frames_exhausted (dts : list Q) (s : State) :
  (length (letters s) <= curL s)%nat -> frames dts s = Ok s.
Proof.
  intros H. induction dts as [|dt dts IH]; simpl; [reflexivity|].
  rewrite (BeamFacts.advanceTip_exhausted s dt H). simpl. exact IH.
Qed.

(** Over frames with [dt >= 0] the units add up. *)
Lemma frames_units (dts : list Q) :
  forall s,
    Reachable s -> Forall (fun dt => 0 <= dt) dts ->
    exists s', frames dts s = Ok s' /\
               unitsLeft s' == Qmax 0 (unitsLeft s - pointsPerSecond * total dts) /\
               (unitsLeft s < pointsPerSecond * total dts ->
                (length (letters s') <= curL s')%nat).
Proof.
  induction dts as [|dt dts IH]; intros s Hr Hall.
  - exists s. split; [reflexivity|].
    destruct (Reachable_drawInv s Hr) as (_ & HT & _).
    pose proof (unitsLeft_nonneg s HT) as Hn. simpl.
    split; [|intros H; lra].
    destruct (Q.max_spec 0 (unitsLeft s - pointsPerSecond * 0)) as [[Hc Hm]|[Hc Hm]];
      rewrite Hm; lra.
  - inversion Hall as [|? ? Hdt Hall']; subst.
    destruct (BeamFacts.advanceTip_total dt s) as (s1 & E & _).
    assert (Hr1 : Reachable s1) by (apply (reach_frame s s1 dt Hr E)).
    assert (Hp : 0 <= pointsPerSecond * dt) by (unfold pointsPerSecond; lra).
    destruct (units_forward (fuelBound s) dt s s1 (Reachable_drawInv s Hr) Hp E)
      as [Hu1 Hex1].
    destruct (IH s1 Hr1 Hall') as (s' & E' & Hu' & Hex').
    destruct (Reachable_drawInv s1 Hr1) as (_ & HT1 & _).
    pose proof (unitsLeft_nonneg s1 HT1) as Hn1.
    assert (Ht : 0 <= pointsPerSecond * total dts).
    { assert (0 <= total dts).
      { clear -Hall'. induction Hall' as [|x l Hx _ IHl]; simpl; lra. }
      unfold pointsPerSecond. lra. }
    assert (Esum : pointsPerSecond * total (dt :: dts) ==
                   pointsPerSecond * dt + pointsPerSecond * total dts)
      by (simpl; ring).
    destruct (Qlt_le_dec (unitsLeft s) (pointsPerSecond * dt)) as [Hlt|Hge].
    + specialize (Hex1 Hlt).
      assert (Es : s' = s1).
      { simpl in E'. rewrite (frames_exhausted dts s1 Hex1) in E'.
        injection E' as <-. reflexivity. }
      subst s'. exists s1. simpl frames. rewrite E. simpl bind.
      split; [apply (frames_exhausted dts s1 Hex1)|].
      split; [|intros _; exact Hex1].
      rewrite Hu1, Esum.
      destruct (Q.max_spec 0 (unitsLeft s - pointsPerSecond * dt)) as [[Hc Hm]|[Hc Hm]];
        destruct (Q.max_spec 0 (unitsLeft s - (pointsPerSecond * dt +
                                                 pointsPerSecond * total dts)))
          as [[Hc2 Hm2]|[Hc2 Hm2]]; rewrite Hm, Hm2; lra.
    + exists s'. simpl frames. rewrite E. simpl bind.
      split; [exact E'|].
      assert (E1 : unitsLeft s1 == unitsLeft s - pointsPerSecond * dt).
      { rewrite Hu1.
        destruct (Q.max_spec 0 (unitsLeft s - pointsPerSecond * dt)) as [[Hc Hm]|[Hc Hm]];
          rewrite Hm; lra. }
      split.
      * rewrite Hu', Esum.
        destruct (Q.max_spec 0 (unitsLeft s1 - pointsPerSecond * total dts))
          as [[Hc Hm]|[Hc Hm]];
          destruct (Q.max_spec 0 (unitsLeft s - (pointsPerSecond * dt +
                                                   pointsPerSecond * total dts)))
            as [[Hc2 Hm2]|[Hc2 Hm2]]; rewrite Hm, Hm2; lra.
      * intros Hlt. apply Hex'. lra.
Qed.

(** ** Never back *)

Lemma ahead_advance (fuel : nat) (dt : Q) (s s' : State) :
  tipInv s -> advanceTipFuel fuel dt s = Ok s' -> ahead s s'.
Proof.
  intros HI H.
  destruct (advanceTipFuel_rule
              (fun _ s1 => ahead s s1 /\
                           (curL s1 = curL s -> tip s1 = None -> curIdx s = 0%nat)))
    with (fuel := fuel) (dt := dt) (s := s) (s' := s') as (_ & (Ha & _) & _).
  - intros _ s0 L ((El & (added & Ei) & Hpos) & _) _ _.
    split; [|simpl; intros E; lia].
    split; [exact El|]. split; [exists added; exact Ei|]. left. simpl. lia.
  - intros _ s0 L p0 ((El & (added & Ei) & Hpos) & H0) Htip _ _.
    split; [|simpl; intros _ E; discriminate E].
    split; [exact El|]. split.
    + exists (added ++ [p0]). simpl. rewrite Ei, app_assoc. reflexivity.
    + simpl. destruct Hpos as [Hlt|[Ec Hle]]; [left; exact Hlt|right].
      split; [exact Ec|]. rewrite (H0 Ec Htip). lia.
  - intros _ s0 L f s1 ((El & (added & Ei) & Hpos) & _) _ _ _ Hsk.
    destruct (skipOnly_result f _ s1 Hsk) as (E & Hle & _). simpl in Hle.
    split; [|intros Ec; lia].
    rewrite E. split; [exact El|]. split; [exists added; exact Ei|].
    left. simpl. lia.
  - intros rem s0 L r s1 ((El & (added & Ei) & Hpos) & _) _ _ _ Hseg.
    destruct (segmentStep_result (points L) rem r s0 s1 Hseg)
      as (a & b & _ & _ & _ & El1 & Ec1 & Etip & Eink & _ & Hcase).
    split; [|intros _ E; rewrite Etip in E; discriminate E].
    split; [congruence|]. split.
    + eexists. rewrite Eink, Ei, <- app_assoc. reflexivity.
    + rewrite Ec1. destruct Hpos as [Hlt|[Ec Hle]]; [left; exact Hlt|right].
      split; [exact Ec|].
      destruct Hcase as [(_ & -> & _)|(_ & -> & _)]; lia.
  - split.
    + split; [reflexivity|]. split; [exists []; rewrite app_nil_r; reflexivity|].
      right. split; [reflexivity|lia].
    + intros _ Htip. destruct HI as [Hn _]. destruct (Hn Htip) as (E & _). exact E.
  - exact H.
  - exact Ha.
Qed.

(** X3. A call of [advanceTip] never erases or rewrites what has been written
    and never moves the beam back: the letters are unchanged, the written
    buffer is the previous one with new stamps appended, and the beam is on a
    later letter or on the same letter at a point index not below the
    previous one. *)
Theorem advanceTip_never_goes_back (s : State) (dt : Q) :
  Reachable s -> exists s', advanceTip dt s = Ok s' /\ ahead s s'.
Proof.
  intros Hr. destruct (BeamFacts.advanceTip_total dt s) as (s' & E & _).
  exists s'. split; [exact E|].
  destruct (Reachable_drawInv s Hr) as (Ht & _).
  apply (ahead_advance (fuelBound s) dt s s' Ht E).
Qed.

Lemma advanceTip_never_goes_back_witness :
  let s := resetDraw [mkLetter [mkPoint 9 9]; mkLetter [mkPoint 0 0; mkPoint 3 4]] in
  Reachable s /\ exists s', advanceTip (1 # 4000) s = Ok s' /\ ahead s s'.
Proof.
  cbv zeta.
  assert (Hr : Reachable (resetDraw [mkLetter [mkPoint 9 9];
                                     mkLetter [mkPoint 0 0; mkPoint 3 4]]))
    by apply reach_build.
  split; [exact Hr|].
  exact (advanceTip_never_goes_back _ (1 # 4000) Hr).
Defined.

(** X4. Between two calls the draw state is consistent: there is no tip
    exactly when the tail is empty, and then the point index and the fraction
    are zero; the tail holds at most [CONFIG.tailLength] entries, any two
    consecutive ones at least [CONFIG.tailStepMin] apart. *)
Theorem draw_state_is_consistent (s : State) :
  Reachable s ->
  (tip s = None <-> tail s = []) /\
  (tip s = None -> curIdx s = 0%nat /\ curT s = 0) /\
  (length (tail s) <= tailLength)%nat /\ spaced tailStepMin (tail s).
Proof.
  intros Hr. destruct (Reachable_drawInv s Hr) as ((Hn & Ht) & _ & Hlen & Hsp).
  split; [split; [intros E; apply Hn; exact E|exact Ht]|].
  split; [intros E; destruct (Hn E) as (? & ? & _); tauto|].
  split; assumption.
Qed.

Lemma advanced_once_reachable :
  Reachable (mkState [mkLetter [mkPoint 0 0; mkPoint 3 4; mkPoint 6 8]]
                     0 1 (2000 # 4000)
                     (Some (mkPoint (18000 # 4000) (24000 # 4000)))
                     [mkPoint 0 0; mkPoint 3 4; mkPoint (18000 # 4000) (24000 # 4000)]
                     [mkPoint 0 0; mkPoint 3 4; mkPoint (18000 # 4000) (24000 # 4000)]).
Proof.
  apply (reach_frame (resetDraw [mkLetter [mkPoint 0 0; mkPoint 3 4; mkPoint 6 8]])
           _ (3 # 4000)).
  - apply reach_build.
  - vm_compute. reflexivity.
Defined.

Lemma draw_state_is_consistent_witness :
  let s := mkState [mkLetter [mkPoint 0 0; mkPoint 3 4; mkPoint 6 8]]
                   0 1 (2000 # 4000)
                   (Some (mkPoint (18000 # 4000) (24000 # 4000)))
                   [mkPoint 0 0; mkPoint 3 4; mkPoint (18000 # 4000) (24000 # 4000)]
                   [mkPoint 0 0; mkPoint 3 4; mkPoint (18000 # 4000) (24000 # 4000)] in
  Reachable s /\
  (tip s = None <-> tail s = []) /\
  (tip s = None -> curIdx s = 0%nat /\ curT s = 0) /\
  (length (tail s) <= tailLength)%nat /\ spaced tailStepMin (tail s).
Proof.
  cbv zeta. split; [exact advanced_once_reachable|].
  exact (draw_state_is_consistent _ advanced_once_reachable).
Defined.

(** ** Inside the letters *)

Lemma lerp_between (a b t : Q) :
  0 <= t -> t <= 1 ->
  (a <= lerp a b t /\ lerp a b t <= b) \/ (b <= lerp a b t /\ lerp a b t <= a).
Proof.
  intros H0 H1. unfold lerp.
  destruct (Qlt_le_dec a b) as [Hab|Hba]; [left|right]; split; nra.
Qed.

Lemma inHull_self (p : Point) (pts : list Point) : In p pts -> inHull p pts.
Proof.
  intros H. split; exists p, p; (split; [exact H|split; [exact H|lra]]).
Qed.

Lemma inHull_lerp (a b : Point) (t : Q) (pts : list Point) :
  In a pts -> In b pts -> 0 <= t -> t <= 1 ->
  inHull (mkPoint (lerp (px a) (px b) t) (lerp (py a) (py b) t)) pts.
Proof.
  intros Ha Hb H0 H1. split; simpl.
  - destruct (lerp_between (px a) (px b) t H0 H1) as [H|H];
      [exists a, b|exists b, a]; tauto.
  - destruct (lerp_between (py a) (py b) t H0 H1) as [H|H];
      [exists a, b|exists b, a]; tauto.
Qed.

Lemma hullInv_advance (fuel : nat) (dt : Q) (s s' : State) :
  drawInv s -> hullInv s -> advanceTipFuel fuel dt s = Ok s' -> hullInv s'.
Proof.
  intros HD HI H.
  destruct (advanceTipFuel_rule (fun _ s1 => drawInv s1 /\ hullInv s1))
    with (fuel := fuel) (dt := dt) (s := s) (s' := s') as (_ & (_ & HI') & _).
  - intros _ s0 L (_ & (_ & Hink)) _ _.
    split; [apply (drawInv_fresh s0 (S (curL s0)))|].
    split; [simpl; intros p E; discriminate E|exact Hink].
  - intros _ s0 L p0 (HD0 & (_ & Hink)) _ HL H0.
    split; [apply drawInv_init; exact HD0|].
    pose proof (nth_error_In _ _ H0) as Hin.
    split; simpl.
    + intros p E. injection E as <-. exists L. split; [exact HL|].
      apply inHull_self. exact Hin.
    + intros p Hp. apply in_app_or in Hp. destruct Hp as [Hp|[<-|[]]].
      * apply Hink. exact Hp.
      * exists L. split; [apply (nth_error_In _ _ HL)|].
        apply inHull_self. exact Hin.
  - intros _ s0 L f s1 (_ & (_ & Hink)) _ _ _ Hsk.
    destruct (skipOnly_result f _ s1 Hsk) as (E & _).
    split; [rewrite E; apply (drawInv_fresh s0 (curL s1))|].
    rewrite E. split; [simpl; intros p Ep; discriminate Ep|exact Hink].
  - intros rem s0 L r s1 (HD0 & (_ & Hink)) Hrem HL _ Hseg.
    split; [apply (drawInv_segment (points L) rem r s0 s1 HD0 Hrem Hseg)|].
    destruct (segmentStep_result (points L) rem r s0 s1 Hseg)
      as (a & b & Ha & Hb & _ & El & Ec & Etip & Eink & _).
    destruct HD0 as (_ & [H0 H1] & _).
    pose proof (Q.le_min_l (1 - curT s0) rem) as Hml.
    assert (Ht0 : 0 <= curT s0 + Qmin (1 - curT s0) rem).
    { destruct (Q.min_spec (1 - curT s0) rem) as [[_ Hm]|[_ Hm]]; rewrite Hm; lra. }
    assert (Ht1 : curT s0 + Qmin (1 - curT s0) rem <= 1) by lra.
    pose proof (inHull_lerp a b _ (points L) (nth_error_In _ _ Ha)
                  (nth_error_In _ _ Hb) Ht0 Ht1) as Hp.
    split.
    + intros p E. rewrite Etip in E. injection E as <-.
      exists L. rewrite El, Ec. tauto.
    + intros p Hin. rewrite Eink in Hin. rewrite El.
      apply in_app_or in Hin. destruct Hin as [Hin|[<-|[]]].
      * apply Hink. exact Hin.
      * exists L. split; [apply (nth_error_In _ _ HL)|exact Hp].
  - tauto.
  - exact H.
  - exact HI'.
Qed.

(** X5. The beam stays inside the letters: in every state of the page the
    tip lies in the bounding box of the points of the letter under the beam,
    and every stamp in the written buffer lies in the bounding box of the
    points of some letter. *)
Theorem beam_stays_inside_letters (s : State) : Reachable s -> hullInv s.
Proof.
  induction 1 as [ls|s s' dt Hr IH E].
  - split; simpl; [intros p Ep; discriminate Ep|intros p []].
  - apply (hullInv_advance (fuelBound s) dt s s' (Reachable_drawInv s Hr) IH E).
Qed.

Lemma beam_stays_inside_letters_witness :
  let s := mkState [mkLetter [mkPoint 0 0; mkPoint 3 4; mkPoint 6 8]]
                   0 1 (2000 # 4000)
                   (Some (mkPoint (18000 # 4000) (24000 # 4000)))
                   [mkPoint 0 0; mkPoint 3 4; mkPoint (18000 # 4000) (24000 # 4000)]
                   [mkPoint 0 0; mkPoint 3 4; mkPoint (18000 # 4000) (24000 # 4000)] in
  Reachable s /\ hullInv s.
Proof.
  cbv zeta. split; [exact advanced_once_reachable|].
  exact (beam_stays_inside_letters _ advanced_once_reachable).
Defined.

(** ** One frame *)

(** X6. A frame advances the beam by at most 100 point units however long
    the page was stalled, never moves it back, and moves nothing when its
    timestamp is not after the previous one; it records the timestamp. *)
Theorem frame_advance_is_clamped (t : Q) (pg : Driver.Page) :
  Reachable (Driver.state pg) ->
  exists pg',
    Driver.frame t pg = Ok pg' /\ Driver.last pg' = t /\
    Reachable (Driver.state pg') /\
    unitsLeft (Driver.state pg) - 100 <= unitsLeft (Driver.state pg') /\
    unitsLeft (Driver.state pg') <= unitsLeft (Driver.state pg) /\
    (t <= Driver.last pg ->
     unitsLeft (Driver.state pg') == unitsLeft (Driver.state pg)).
Proof.
  intros Hr. unfold Driver.frame.
  destruct (BeamFacts.advanceTip_total (Driver.frameDt t pg) (Driver.state pg))
    as (s' & E & _).
  rewrite E. simpl bind. eexists. split; [reflexivity|]. simpl.
  split; [reflexivity|].
  split; [apply (reach_frame _ _ _ Hr E)|].
  pose proof (Reachable_drawInv _ Hr) as HD.
  destruct HD as (HD1 & HT & HD3).
  pose proof (unitsLeft_nonneg _ HT) as Hn.
  pose proof (Q.le_min_l 0.05 ((t - Driver.last pg) / 1000)) as Hcap.
  pose proof (Q.le_min_r 0.05 ((t - Driver.last pg) / 1000)) as Hdt.
  fold (Driver.frameDt t pg) in Hcap, Hdt.
  destruct (Qlt_le_dec 0 (Driver.frameDt t pg)) as [Hpos|Hneg].
  - assert (Hp : 0 <= pointsPerSecond * Driver.frameDt t pg)
      by (unfold pointsPerSecond; lra).
    destruct (units_forward _ _ _ _ (conj HD1 (conj HT HD3)) Hp E) as [Hu _].
    unfold pointsPerSecond in *.
    assert (Hback : t <= Driver.last pg -> False).
    { intros Hle.
      assert ((t - Driver.last pg) / 1000 <= 0).
      { apply Qle_shift_div_r; [reflexivity|lra]. }
      lra. }
    destruct (Q.max_spec 0 (unitsLeft (Driver.state pg) - 2000 * Driver.frameDt t pg))
      as [[Hc Hm]|[Hc Hm]]; rewrite Hm in Hu;
      (split; [lra|]); (split; [lra|]); intros Hle; destruct (Hback Hle).
  - assert (Hp : pointsPerSecond * Driver.frameDt t pg <= 0)
      by (unfold pointsPerSecond; lra).
    pose proof (units_idle _ _ _ _ (conj HD1 (conj HT HD3)) Hp E) as Hu.
    split; [lra|]. split; [lra|]. intros _. exact Hu.
Qed.

Lemma frame_advance_is_clamped_witness :
  let pg := Driver.mkPage 1000
              (resetDraw [mkLetter [mkPoint 0 0; mkPoint 3 4; mkPoint 6 8]]) in
  Reachable (Driver.state pg) /\
  exists pg',
    Driver.frame 9000 pg = Ok pg' /\ Driver.last pg' = 9000 /\
    Reachable (Driver.state pg') /\
    unitsLeft (Driver.state pg) - 100 <= unitsLeft (Driver.state pg') /\
    unitsLeft (Driver.state pg') <= unitsLeft (Driver.state pg) /\
    (9000 <= Driver.last pg ->
     unitsLeft (Driver.state pg') == unitsLeft (Driver.state pg)).
Proof.
  cbv zeta.
  assert (Hr : Reachable
                 (Driver.state
                    (Driver.mkPage 1000
                       (resetDraw [mkLetter [mkPoint 0 0; mkPoint 3 4; mkPoint 6 8]]))))
    by apply reach_build.
  split; [exact Hr|].
  exact (frame_advance_is_clamped 9000 _ Hr).
Defined.

(** ** Moving on *)

(** X1. A call of [advanceTip] that carries at least one point unit
    ([dt] of half a millisecond or more) moves the beam on: it ends past the
    last letter, on a later letter, or on the same letter at a later point
    index. *)
Theorem advanceTip_makes_progress (s : State) (dt : Q) :
  Reachable s -> 1 <= pointsPerSecond * dt ->
  exists s', advanceTip dt s = Ok s' /\
             ((length (letters s') <= curL s')%nat \/
              (curL s < curL s')%nat \/
              (curL s' = curL s /\ (curIdx s < curIdx s')%nat)).
Proof.
  intros Hr Hb. destruct (BeamFacts.advanceTip_total dt s) as (s' & E & _).
  exists s'. split; [exact E|].
  pose proof (Reachable_drawInv s Hr) as HD.
  pose proof (drawInv_advance (fuelBound s) dt s s' HD E) as (_ & [HT0' HT1'] & _).
  destruct (units_forward (fuelBound s) dt s s' HD ltac:(lra) E) as [Hu Hex].
  destruct HD as (Htip & [HT0 HT1] & _).
  destruct (ahead_advance (fuelBound s) dt s s' Htip E) as (El & _ & Hpos).
  destruct (Nat.le_gt_cases (length (letters s')) (curL s')) as [Hfin|Hin];
    [left; exact Hfin|right].
  destruct Hpos as [Hlt|[Ec Hle]]; [left; exact Hlt|right].
  split; [exact Ec|].
  destruct (Nat.eq_dec (curIdx s') (curIdx s)) as [Ei|Hne]; [exfalso|lia].
  assert (Hnot : ~ unitsLeft s < pointsPerSecond * dt) by (intros H; specialize (Hex H); lia).
  apply Qnot_lt_le in Hnot.
  assert (Hu' : unitsLeft s' == unitsLeft s - pointsPerSecond * dt).
  { rewrite Hu.
    destruct (Q.max_spec 0 (unitsLeft s - pointsPerSecond * dt)) as [[Hc Hm]|[Hc Hm]];
      rewrite Hm; lra. }
  revert Hu'. unfold unitsLeft. rewrite El, Ec, Ei.
  destruct (nth_error (letters s) (curL s)) as [L|]; [|intros; lra].
  destruct (Z.of_nat (curIdx s) <? Z.of_nat (length (points L)) - 1)%Z; intros; lra.
Qed.

Lemma advanceTip_makes_progress_witness :
  let s := resetDraw [mkLetter [mkPoint 0 0; mkPoint 3 4; mkPoint 6 8]] in
  Reachable s /\ 1 <= pointsPerSecond * (3 # 4000) /\
  exists s', advanceTip (3 # 4000) s = Ok s' /\
             ((length (letters s') <= curL s')%nat \/
              (curL s < curL s')%nat \/
              (curL s' = curL s /\ (curIdx s < curIdx s')%nat)).
Proof.
  cbv zeta.
  assert (Hr : Reachable (resetDraw [mkLetter [mkPoint 0 0; mkPoint 3 4; mkPoint 6 8]]))
    by apply reach_build.
  assert (Hd : 1 <= pointsPerSecond * (3 # 4000)) by (vm_compute; discriminate).
  split; [exact Hr|]. split; [exact Hd|].
  exact (advanceTip_makes_progress _ (3 # 4000) Hr Hd).
Defined.

Lemma budget_of_frames (dts : list Q) :
  Forall (fun dt => 1 <= pointsPerSecond * dt) dts ->
  inject_Z (Z.of_nat (length dts)) <= pointsPerSecond * total dts.
Proof.
  induction 1 as [|dt dts Hdt _ IH]; simpl total; simpl length.
  - change (0 <= pointsPerSecond * 0). unfold pointsPerSecond. lra.
  - rewrite Nat2Z.inj_succ. unfold Z.succ. rewrite inject_Z_plus.
    change (inject_Z 1) with 1.
    assert (E : pointsPerSecond * (dt + total dts) ==
                pointsPerSecond * dt + pointsPerSecond * total dts) by ring.
    rewrite E. lra.
Qed.

(** X2. Frames write the text: when every frame carries at least one point
    unit ([dt] of half a millisecond or more), the text is written to its end
    after at most as many frames as there are point units left, plus one. *)
Theorem frames_write_the_text (dts : list Q) (s : State) :
  Reachable s ->
  Forall (fun dt => 1 <= pointsPerSecond * dt) dts ->
  unitsLeft s + 1 <= inject_Z (Z.of_nat (length dts)) ->
  exists s', frames dts s = Ok s' /\ (length (letters s') <= curL s')%nat.
Proof.
  intros Hr Hall Hn.
  assert (Hpos : Forall (fun dt => 0 <= dt) dts).
  { eapply Forall_impl; [|exact Hall]. intros dt H. simpl in H.
    unfold pointsPerSecond in H. lra. }
  destruct (frames_units dts s Hr Hpos) as (s' & E & _ & Hex).
  exists s'. split; [exact E|]. apply Hex.
  pose proof (budget_of_frames dts Hall). lra.
Qed.

Lemma frames_write_the_text_witness :
  let s := resetDraw [mkLetter [mkPoint 0 0; mkPoint 3 4; mkPoint 6 8]] in
  let dts := [1 # 1000; 1 # 1000; 1 # 1000] in
  Reachable s /\ Forall (fun dt => 1 <= pointsPerSecond * dt) dts /\
  unitsLeft s + 1 <= inject_Z (Z.of_nat (length dts)) /\
  exists s', frames dts s = Ok s' /\ (length (letters s') <= curL s')%nat.
Proof.
  cbv zeta.
  assert (Hr : Reachable (resetDraw [mkLetter [mkPoint 0 0; mkPoint 3 4; mkPoint 6 8]]))
    by apply reach_build.
  assert (Hd : Forall (fun dt => 1 <= pointsPerSecond * dt) [1 # 1000; 1 # 1000; 1 # 1000])
    by (repeat constructor; vm_compute; discriminate).
  assert (Hu : unitsLeft (resetDraw [mkLetter [mkPoint 0 0; mkPoint 3 4; mkPoint 6 8]]) + 1
               <= inject_Z (Z.of_nat (length [1 # 1000; 1 # 1000; 1 # 1000])))
    by (vm_compute; discriminate).
  split; [exact Hr|]. split; [exact Hd|]. split; [exact Hu|].
  exact (frames_write_the_text [1 # 1000; 1 # 1000; 1 # 1000] _ Hr Hd Hu).
Defined.

End BeamProgress.

(** * Version 2: letters with fewer than two points *)

Module BeamSkip.
Import Beam.

(** ** The next drawable letter *)

Lemma skipn_cons {A : Type} (l : list A) (k : nat) (a : A) :
  nth_error l k = Some a -> skipn k l = a :: skipn (S k) l.
Proof.
  revert k. induction l as [|b l IH]; intros [|k] H; simpl in *; try discriminate.
  - injection H as ->. reflexivity.
  - apply IH. exact H.
Qed.

Lemma nextDrawable_short (ls : list Letter) (i : nat) (L : Letter) :
  nth_error ls i = Some L -> tooShort L = true ->
  nextDrawable ls i = nextDrawable ls (S i).
Proof.
  intros HL Hs. unfold nextDrawable. rewrite (skipn_cons ls i L HL).
  simpl shortRun. rewrite Hs. lia.
Qed.

Lemma nextDrawable_long (ls : list Letter) (i : nat) (L : Letter) :
  nth_error ls i = Some L -> tooShort L = false -> nextDrawable ls i = i.
Proof.
  intros HL Hs. unfold nextDrawable. rewrite (skipn_cons ls i L HL).
  simpl shortRun. rewrite Hs. lia.
Qed.

Lemma nextDrawable_end (ls : list Letter) (i : nat) :
  (length ls <= i)%nat -> nextDrawable ls i = i.
Proof.
  intros H. unfold nextDrawable. rewrite skipn_all2 by exact H. simpl. lia.
Qed.

Lemma nextDrawable_here (s : State) :
  onDrawable s -> nextDrawable (letters s) (curL s) = curL s.
Proof.
  intros [H|(L & HL & H2)]; [apply nextDrawable_end; exact H|].
  apply (nextDrawable_long _ _ L HL). unfold tooShort. apply Nat.ltb_ge. exact H2.
Qed.

Lemma nextDrawable_step (ls : list Letter) (i : nat) :
  (nextDrawable ls i <= nextDrawable ls (S i))%nat.
Proof.
  destruct (nth_error ls i) as [L|] eqn:HL.
  - destruct (tooShort L) eqn:Hs.
    + rewrite (nextDrawable_short ls i L HL Hs). lia.
    + rewrite (nextDrawable_long ls i L HL Hs). unfold nextDrawable. lia.
  - apply nth_error_None in HL. rewrite (nextDrawable_end ls i HL).
    unfold nextDrawable. lia.
Qed.

Lemma nextDrawable_mono (ls : list Letter) (i j : nat) :
  (i <= j)%nat -> (nextDrawable ls i <= nextDrawable ls j)%nat.
Proof.
  induction 1 as [|j _ IH]; [lia|].
  pose proof (nextDrawable_step ls j). lia.
Qed.

Lemma shortRun_short (ls : list Letter) :
  forall k, (k < shortRun ls)%nat ->
            exists L, nth_error ls k = Some L /\ tooShort L = true.
Proof.
  induction ls as [|L0 ls IH]; intros k Hk; simpl in Hk; [lia|].
  destruct (tooShort L0) eqn:Hs; [|lia].
  destruct k as [|k]; [exists L0; simpl; tauto|].
  apply IH. lia.
Qed.

Lemma shortRun_long (ls : list Letter) (L : Letter) :
  nth_error ls (shortRun ls) = Some L -> tooShort L = false.
Proof.
  induction ls as [|L0 ls IH]; simpl; [discriminate|].
  destruct (tooShort L0) eqn:Hs; simpl.
  - exact IH.
  - intros H. injection H as <-. exact Hs.
Qed.

Lemma nextDrawable_between (ls : list Letter) (i k : nat) :
  (i <= k < nextDrawable ls i)%nat ->
  exists L, nth_error ls k = Some L /\ tooShort L = true.
Proof.
  unfold nextDrawable. intros [Hik Hk].
  destruct (shortRun_short (skipn i ls) (k - i)) as (L & HL & Hs); [lia|].
  exists L. split; [|exact Hs].
  rewrite nth_error_skipn in HL. replace (i + (k - i))%nat with k in HL by lia.
  exact HL.
Qed.

Lemma nextDrawable_drawable (ls : list Letter) (i : nat) (L : Letter) :
  nth_error ls (nextDrawable ls i) = Some L -> tooShort L = false.
Proof.
  unfold nextDrawable. intros H. apply (shortRun_long (skipn i ls)).
  rewrite nth_error_skipn. exact H.
Qed.

(** ** Where the skipping loop stops *)

Lemma skipReset_lands (fuel : nat) :
  forall s s1, skipReset fuel s = Ok s1 ->
               curL s1 = nextDrawable (letters s) (curL s).
Proof.
  induction fuel as [|f IH]; intros s s1 H; simpl in H; [discriminate|].
  destruct (curL s <? length (letters s))%nat eqn:Hc.
  2: { injection H as <-. apply Nat.ltb_ge in Hc.
       symmetry. apply nextDrawable_end. exact Hc. }
  destruct (nth_error (letters s) (curL s)) as [L|] eqn:HL;
    [|unfold readAt in H; rewrite HL in H; discriminate].
  rewrite (BeamFacts.readAt_some _ _ _ HL) in H. simpl bind in H.
  destruct (tooShort L) eqn:Hs.
  2: { injection H as <-. symmetry. apply (nextDrawable_long _ _ L HL Hs). }
  rewrite (IH _ _ H). simpl.
  symmetry. apply (nextDrawable_short _ _ L HL Hs).
Qed.

Lemma skipReset_stays (f : nat) (s : State) :
  onDrawable s -> skipReset (S f) s = Ok s.
Proof.
  intros Hd. simpl.
  destruct (curL s <? length (letters s))%nat eqn:Hc; [|reflexivity].
  apply Nat.ltb_lt in Hc. destruct Hd as [Hd|(L & HL & H2)]; [lia|].
  rewrite (BeamFacts.readAt_some _ _ _ HL). simpl bind.
  unfold tooShort. rewrite (proj2 (Nat.ltb_ge _ _) H2). reflexivity.
Qed.

Lemma advanceTipFuel_from_landing (fuel : nat) (dt : Q) (s s1 : State) :
  skipReset fuel s = Ok s1 ->
  advanceTipFuel fuel dt s1 = advanceTipFuel fuel dt s.
Proof.
  intros H. pose proof (BeamFacts.skipReset_char fuel s) as Hc.
  rewrite H in Hc. destruct Hc as (_ & _ & _ & Hd & _).
  destruct fuel as [|f]; [discriminate H|].
  unfold advanceTipFuel. rewrite H, (skipReset_stays f s1 Hd). reflexivity.
Qed.

Lemma skipReset_startAt (fuel : nat) (s s1 : State) (L : Letter) :
  skipReset fuel s = Ok s1 ->
  nth_error (letters s) (curL s) = Some L -> tooShort L = true ->
  s1 = startAt (nextDrawable (letters s) (curL s)) s.
Proof.
  intros H HL Hs.
  pose proof (skipReset_lands fuel s s1 H) as Ec.
  destruct (BeamProgress.skipReset_result fuel s s1 H) as (El & Ei & Hr).
  destruct Hr as [->|(_ & H0 & H1 & H2 & H3 & _)].
  - rewrite (nextDrawable_short _ _ L HL Hs) in Ec.
    pose proof (nextDrawable_mono (letters s) (S (curL s)) (S (curL s))).
    unfold nextDrawable in Ec. lia.
  - unfold startAt. destruct s1; simpl in *. subst. reflexivity.
Qed.

(** ** Where a call ends *)

Lemma advanceTipFuel_lands_ahead (fuel : nat) (dt : Q) (s s' : State) :
  advanceTipFuel fuel dt s = Ok s' ->
  (nextDrawable (letters s) (curL s) <= curL s')%nat.
Proof.
  intros H.
  pose proof (BeamFacts.advanceTipFuel_char fuel dt s) as Hc. rewrite H in Hc.
  destruct Hc as (El' & Hd' & _).
  destruct (BeamProgress.advanceTipFuel_rule
              (fun _ s0 => letters s0 = letters s /\
                           (nextDrawable (letters s) (curL s)
                            <= nextDrawable (letters s) (curL s0))%nat))
    with (fuel := fuel) (dt := dt) (s := s) (s' := s') as (_ & (_ & Hle) & _).
  - intros _ s0 L (El & Hle) HL Hs. split; [exact El|]. simpl.
    rewrite El in HL. rewrite <- (nextDrawable_short _ _ L HL Hs). exact Hle.
  - intros _ s0 L p0 (El & Hle) _ _ _. split; [exact El|exact Hle].
  - intros _ s0 L f s1 (El & Hle) _ _ _ Hsk.
    destruct (BeamProgress.skipOnly_result f _ s1 Hsk) as (E & Hc & _).
    simpl in Hc. rewrite E. simpl. split; [exact El|].
    pose proof (nextDrawable_mono (letters s) (curL s0) (curL s1)). lia.
  - intros rem s0 L r s1 (El & Hle) _ _ _ Hseg.
    destruct (BeamProgress.segmentStep_result (points L) rem r s0 s1 Hseg)
      as (a & b & _ & _ & _ & El1 & Ec1 & _).
    rewrite El1, Ec1. split; [exact El|exact Hle].
  - split; [reflexivity|lia].
  - exact H.
  - rewrite <- El' in Hle at 2. rewrite (nextDrawable_here s' Hd') in Hle. exact Hle.
Qed.

Lemma advanceTipFuel_idle_lands (fuel : nat) (dt : Q) (s s' : State) :
  pointsPerSecond * dt <= 0 ->
  advanceTipFuel fuel dt s = Ok s' ->
  curL s' = nextDrawable (letters s) (curL s).
Proof.
  intros Hrem H.
  pose proof (BeamFacts.advanceTipFuel_char fuel dt s) as Hc. rewrite H in Hc.
  destruct Hc as (El' & Hd' & _).
  destruct (BeamProgress.advanceTipFuel_rule
              (fun rem s0 => rem <= 0 /\ letters s0 = letters s /\
                             nextDrawable (letters s) (curL s0)
                             = nextDrawable (letters s) (curL s)))
    with (fuel := fuel) (dt := dt) (s := s) (s' := s') as (_ & (_ & _ & E) & _).
  - intros rem s0 L (Hr & El & E) HL Hs. split; [exact Hr|]. split; [exact El|].
    simpl. rewrite El in HL. rewrite <- (nextDrawable_short _ _ L HL Hs). exact E.
  - intros rem s0 L p0 (Hr & El & E) _ _ _. split; [exact Hr|]. split; [exact El|exact E].
  - intros rem s0 L f s1 (Hr & _) Hpos. lra.
  - intros rem s0 L r s1 (Hr & _) Hpos. lra.
  - split; [exact Hrem|]. split; reflexivity.
  - exact H.
  - rewrite <- E. rewrite <- El'. symmetry. apply (nextDrawable_here s' Hd').
Qed.

(** ** What a call leaves behind is paid for *)

Lemma segmentsOf_skipn_mono (ls : list Letter) (k k' : nat) :
  (k <= k')%nat -> segmentsOf (skipn k' ls) <= segmentsOf (skipn k ls).
Proof.
  induction 1 as [|k' _ IH]; [lra|].
  destruct (nth_error ls k') as [L|] eqn:E.
  - rewrite (BeamProgress.segmentsOf_skipn_cons ls k' L E) in IH.
    pose proof (BeamProgress.segments_nonneg L). lra.
  - apply nth_error_None in E.
    rewrite (skipn_all2 ls) by lia. simpl.
    pose proof (BeamProgress.segmentsOf_nonneg (skipn k ls)). lra.
Qed.

Lemma unitsLeft_le_rest (s : State) :
  unitT s -> unitsLeft s <= segmentsOf (skipn (curL s) (letters s)).
Proof.
  intros [H0 H1]. unfold unitsLeft.
  destruct (nth_error (letters s) (curL s)) as [L|] eqn:HL.
  - rewrite (BeamProgress.segmentsOf_skipn_cons _ _ L HL).
    pose proof (BeamProgress.segments_nonneg L) as Hs.
    destruct (Z.of_nat (curIdx s) <? Z.of_nat (length (points L)) - 1)%Z; [|lra].
    assert (Hi : 0 <= inject_Z (Z.of_nat (curIdx s)))
      by (change 0 with (inject_Z 0); rewrite <- Zle_Qle; lia).
    lra.
  - apply BeamProgress.segmentsOf_nonneg.
Qed.

Lemma units_spent (fuel : nat) (dt : Q) (s s' : State) :
  drawInv s -> advanceTipFuel fuel dt s = Ok s' ->
  unitsLeft s - unitsLeft s' <= Qmax 0 (pointsPerSecond * dt).
Proof.
  intros HI H.
  pose proof (Q.le_max_l 0 (pointsPerSecond * dt)) as Hm0.
  pose proof (Q.le_max_r 0 (pointsPerSecond * dt)) as Hm1.
  destruct (Qlt_le_dec 0 (pointsPerSecond * dt)) as [Hpos|Hneg].
  - destruct (BeamProgress.units_forward fuel dt s s' HI (Qlt_le_weak _ _ Hpos) H)
      as [Hu _].
    pose proof (Q.le_max_r 0 (unitsLeft s - pointsPerSecond * dt)) as Hr.
    lra.
  - pose proof (BeamProgress.units_idle fuel dt s s' HI Hneg H) as Hu. lra.
Qed.

Lemma budget_covers (fuel : nat) (dt : Q) (s s' : State) :
  drawInv s -> advanceTipFuel fuel dt s = Ok s' ->
  unitsLeft s - segmentsOf (skipn (curL s') (letters s))
  <= Qmax 0 (pointsPerSecond * dt).
Proof.
  intros HI H.
  pose proof (units_spent fuel dt s s' HI H) as Hsp.
  pose proof (BeamProgress.drawInv_advance fuel dt s s' HI H) as (_ & HT' & _).
  pose proof (BeamFacts.advanceTipFuel_char fuel dt s) as Hc. rewrite H in Hc.
  destruct Hc as (El' & _).
  pose proof (unitsLeft_le_rest s' HT') as Hle. rewrite El' in Hle. lra.
Qed.

Lemma startAt_drawInv (j : nat) (s : State) : drawInv (startAt j s).
Proof. apply (BeamProgress.drawInv_fresh s j). Qed.

Lemma startAt_stays (fuel : nat) (dt : Q) (j : nat) (s s' : State) (Lj : Letter) :
  nth_error (letters s) j = Some Lj -> tooShort Lj = false ->
  pointsPerSecond * dt < segments Lj ->
  advanceTipFuel fuel dt (startAt j s) = Ok s' ->
  curL s' = j.
Proof.
  intros HL Hs Hb H.
  pose proof (advanceTipFuel_lands_ahead fuel dt _ s' H) as Hge.
  simpl in Hge. rewrite (nextDrawable_long _ _ Lj HL Hs) in Hge.
  destruct (Nat.eq_dec (curL s') j) as [E|Hne]; [exact E|exfalso].
  pose proof (units_spent fuel dt _ s' (startAt_drawInv j s) H) as Hsp.
  pose proof (BeamProgress.drawInv_advance fuel dt _ s' (startAt_drawInv j s) H)
    as (_ & HT' & _).
  pose proof (BeamFacts.advanceTipFuel_char fuel dt (startAt j s)) as Hc.
  rewrite H in Hc. destruct Hc as (El' & _). simpl in El'.
  pose proof (unitsLeft_le_rest s' HT') as Hle. rewrite El' in Hle.
  pose proof (segmentsOf_skipn_mono (letters s) (S j) (curL s') ltac:(lia)) as Hmono.
  assert (Eu : unitsLeft (startAt j s) == segments Lj + segmentsOf (skipn (S j) (letters s))).
  { rewrite (BeamProgress.unitsLeft_fresh (startAt j s)) by reflexivity.
    simpl. rewrite (BeamProgress.segmentsOf_skipn_cons _ _ Lj HL). reflexivity. }
  assert (Hseg : 1 <= segments Lj).
  { unfold segments, tooShort in *. apply Nat.ltb_ge in Hs.
    change 1 with (inject_Z 1). rewrite <- Zle_Qle. lia. }
  destruct (Q.max_spec 0 (pointsPerSecond * dt)) as [[_ Hm]|[_ Hm]];
    rewrite Hm in Hsp; lra.
Qed.

(** C8. A letter with fewer than two sampled points takes no part in the
    traversal, and the beam goes from it to the next letter that has at least
    two.  Two states that differ only in what such letters hold are advanced
    to states that differ only in that: tip, tail, written buffer, indices
    and fraction come out the same, so no point of such a letter is read,
    interpolated or stamped.  The call leaves the beam on a letter with at
    least two points or past the last letter, never before the next such
    letter and, without budget, exactly on it.  Whatever it leaves behind it
    has paid for: the segments between the beam before and the letter it ends
    on are within the budget, so no drawable letter is jumped.  From a letter
    with fewer than two points the call is the call made with the beam
    freshly on the next drawable letter, and it ends on that letter whenever
    the budget is less than the letter's segments. *)
Theorem short_letters_are_skipped (s : State) (dt : Q) :
  (forall s2, blankState s2 = blankState s ->
     mapResult blankState (advanceTip dt s2) =
     mapResult blankState (advanceTip dt s)) /\
  exists s',
    advanceTip dt s = Ok s' /\ onDrawable s' /\
    (nextDrawable (letters s) (curL s) <= curL s')%nat /\
    (pointsPerSecond * dt <= 0 -> curL s' = nextDrawable (letters s) (curL s)) /\
    (Reachable s ->
     unitsLeft s - segmentsOf (skipn (curL s') (letters s))
     <= Qmax 0 (pointsPerSecond * dt)) /\
    (forall L, nth_error (letters s) (curL s) = Some L -> tooShort L = true ->
       let j := nextDrawable (letters s) (curL s) in
       (curL s < j)%nat /\
       (forall k, (curL s <= k < j)%nat ->
          exists Lk, nth_error (letters s) k = Some Lk /\ tooShort Lk = true) /\
       advanceTip dt (startAt j s) = Ok s' /\
       (forall Lj, nth_error (letters s) j = Some Lj ->
          tooShort Lj = false /\
          (pointsPerSecond * dt < segments Lj -> curL s' = j))).
Proof.
  split.
  { intros s2 E. rewrite <- !BeamFacts.advanceTip_blank. rewrite E. reflexivity. }
  destruct (BeamFacts.advanceTip_total dt s) as (s' & E & _ & Hd & _).
  exists s'. split; [exact E|]. split; [exact Hd|].
  split; [apply (advanceTipFuel_lands_ahead (fuelBound s) dt s s' E)|].
  split; [intros Hb; apply (advanceTipFuel_idle_lands (fuelBound s) dt s s' Hb E)|].
  split.
  { intros Hr. apply (budget_covers (fuelBound s) dt s s'); [|exact E].
    apply BeamProgress.Reachable_drawInv. exact Hr. }
  intros L HL Hs. cbv zeta.
  assert (Hlt : (curL s < nextDrawable (letters s) (curL s))%nat).
  { rewrite (nextDrawable_short _ _ L HL Hs). unfold nextDrawable. lia. }
  split; [exact Hlt|].
  split; [intros k Hk; apply (nextDrawable_between _ _ _ Hk)|].
  assert (Estart : advanceTip dt (startAt (nextDrawable (letters s) (curL s)) s) = Ok s').
  { unfold advanceTip in *. change (fuelBound (startAt _ s)) with (fuelBound s).
    unfold advanceTipFuel in E.
    destruct (skipReset (fuelBound s) s) as [s1| |] eqn:Hsk; try discriminate E.
    rewrite <- (skipReset_startAt _ s s1 L Hsk HL Hs).
    rewrite (advanceTipFuel_from_landing _ dt s s1 Hsk).
    unfold advanceTipFuel. rewrite Hsk. exact E. }
  split; [exact Estart|].
  intros Lj HLj.
  pose proof (nextDrawable_drawable _ _ Lj HLj) as Hlong.
  split; [exact Hlong|]. intros Hb.
  apply (startAt_stays (fuelBound s) dt _ s s' Lj HLj Hlong Hb Estart).
Qed.

Lemma short_letters_are_skipped_witness :
  let s := resetDraw [mkLetter [mkPoint 9 9]; mkLetter [mkPoint 0 0; mkPoint 3 4]] in
  nth_error (letters s) (curL s) = Some (mkLetter [mkPoint 9 9]) /\
  tooShort (mkLetter [mkPoint 9 9]) = true /\
  nth_error (letters s) 1 = Some (mkLetter [mkPoint 0 0; mkPoint 3 4]) /\
  pointsPerSecond * (1 # 4000) < segments (mkLetter [mkPoint 0 0; mkPoint 3 4]) /\
  exists s', advanceTip (1 # 4000) s = Ok s' /\ curL s' = 1%nat.
Proof.
  cbv zeta.
  assert (HL : nth_error
                 (letters (resetDraw [mkLetter [mkPoint 9 9];
                                      mkLetter [mkPoint 0 0; mkPoint 3 4]]))
                 (curL (resetDraw [mkLetter [mkPoint 9 9];
                                   mkLetter [mkPoint 0 0; mkPoint 3 4]]))
               = Some (mkLetter [mkPoint 9 9])) by reflexivity.
  assert (Hs : tooShort (mkLetter [mkPoint 9 9]) = true) by reflexivity.
  assert (HLj : nth_error
                  (letters (resetDraw [mkLetter [mkPoint 9 9];
                                       mkLetter [mkPoint 0 0; mkPoint 3 4]]))
                  1 = Some (mkLetter [mkPoint 0 0; mkPoint 3 4])) by reflexivity.
  assert (Hb : pointsPerSecond * (1 # 4000)
               < segments (mkLetter [mkPoint 0 0; mkPoint 3 4]))
    by (vm_compute; reflexivity).
  split; [exact HL|]. split; [exact Hs|]. split; [exact HLj|]. split; [exact Hb|].
  destruct (short_letters_are_skipped
              (resetDraw [mkLetter [mkPoint 9 9]; mkLetter [mkPoint 0 0; mkPoint 3 4]])
              (1 # 4000)) as (_ & s' & E & _ & _ & _ & _ & Hfrom).
  exists s'. split; [exact E|].
  destruct (Hfrom _ HL Hs) as (_ & _ & _ & Hland).
  exact (proj2 (Hland _ HLj) Hb).
Defined.

End BeamSkip.

(** * Version 1: order, bounds and sweep *)

Module SweepOrder.
Import Sweep.

(** ** The comparator *)

Lemma scanCmp_le (p q : Point) : scanCmp p q <= 0 <-> serpentine p q.
Proof.
  unfold scanCmp, serpentine. cbv zeta.
  destruct (row p - row q =? 0)%Z eqn:E; simpl negb; cbv iota.
  - apply Z.eqb_eq in E.
    destruct (Z.rem (row p) 2 =? 0)%Z; split.
    + intros H. right. split; [lia|lra].
    + intros [H|[_ H]]; [lia|lra].
    + intros H. right. split; [lia|lra].
    + intros [H|[_ H]]; [lia|lra].
  - apply Z.eqb_neq in E. change 0 with (inject_Z 0). rewrite <- Zle_Qle.
    split; [intros H; left; lia|intros [H|[H _]]; lia].
Qed.

Lemma scanCmp_lt (p q : Point) : scanCmp p q < 0 <-> ~ serpentine q p.
Proof.
  rewrite <- scanCmp_le. unfold scanCmp. cbv zeta.
  replace (row q - row p =? 0)%Z with (row p - row q =? 0)%Z.
  2: { destruct (row p - row q =? 0)%Z eqn:E.
       - apply Z.eqb_eq in E. symmetry. apply Z.eqb_eq. lia.
       - apply Z.eqb_neq in E. symmetry. apply Z.eqb_neq. lia. }
  destruct (row p - row q =? 0)%Z eqn:E; simpl negb; cbv iota.
  - apply Z.eqb_eq in E. replace (row q) with (row p) by lia.
    destruct (Z.rem (row p) 2 =? 0)%Z; split; intros H; lra.
  - change 0 with (inject_Z 0). rewrite <- Zlt_Qlt, <- Zle_Qle. lia.
Qed.

Lemma serpentine_trans (p q r : Point) :
  serpentine p q -> serpentine q r -> serpentine p r.
Proof.
  unfold serpentine. intros [H1|[E1 H1]] [H2|[E2 H2]].
  - left. lia.
  - left. lia.
  - left. lia.
  - right. split; [lia|]. rewrite <- E1 in H2.
    destruct (Z.rem (row p) 2 =? 0)%Z; lra.
Qed.

Lemma serpentine_total (p q : Point) : serpentine p q \/ serpentine q p.
Proof.
  unfold serpentine.
  destruct (Z.lt_trichotomy (row p) (row q)) as [H|[H|H]]; [tauto| |tauto].
  rewrite <- H.
  destruct (Z.rem (row p) 2 =? 0)%Z;
    destruct (Qlt_le_dec (px p) (px q)); [left|right|right|left];
    right; (split; [lia|lra]).
Qed.

(** X7. The comparator handed to [sort] is a consistent one: a point compares
    equal to itself, swapping the arguments swaps the sign, and "not after"
    is transitive. *)
Theorem scanCmp_is_consistent :
  (forall p, scanCmp p p == 0) /\
  (forall p q, scanCmp p q < 0 <-> 0 < scanCmp q p) /\
  (forall p q r, scanCmp p q <= 0 -> scanCmp q r <= 0 -> scanCmp p r <= 0).
Proof.
  split; [|split].
  - intros p.
    assert (H1 : scanCmp p p <= 0)
      by (apply scanCmp_le; destruct (serpentine_total p p); assumption).
    assert (H2 : ~ scanCmp p p < 0).
    { rewrite scanCmp_lt. intro H. apply H.
      destruct (serpentine_total p p); assumption. }
    lra.
  - intros p q. rewrite scanCmp_lt. split; intros H.
    + apply Qnot_le_lt. intro Hle. apply H. apply scanCmp_le. exact Hle.
    + intro Hs. apply scanCmp_le in Hs. lra.
  - intros p q r H1 H2. apply scanCmp_le. apply scanCmp_le in H1, H2.
    apply (serpentine_trans p q r H1 H2).
Qed.

(** ** The sorted list *)

Lemma insertBy_In (cmp : Point -> Point -> Q) (p x : Point) (l : list Point) :
  In x (insertBy cmp p l) -> x = p \/ In x l.
Proof.
  induction l as [|q r IH]; simpl.
  - intros [<-|[]]. left. reflexivity.
  - destruct (Qle_bool (cmp p q) 0); simpl.
    + intros [<-|H]; [left; reflexivity|right; exact H].
    + intros [<-|H]; [right; left; reflexivity|].
      destruct (IH H) as [->|H']; [left; reflexivity|right; right; exact H'].
Qed.

Lemma insertBy_sorted (p : Point) (l : list Point) :
  StronglySorted serpentine l -> StronglySorted serpentine (insertBy scanCmp p l).
Proof.
  induction 1 as [|q r Hs IH Hall]; simpl.
  - constructor; constructor.
  - destruct (Qle_bool (scanCmp p q) 0) eqn:E.
    + apply Qle_bool_iff, scanCmp_le in E.
      constructor; [constructor; assumption|].
      constructor; [exact E|].
      rewrite Forall_forall in *. intros x Hx.
      apply (serpentine_trans p q x E (Hall x Hx)).
    + assert (Hqp : serpentine q p).
      { destruct (serpentine_total p q) as [H|H]; [|exact H].
        apply scanCmp_le, Qle_bool_iff in H. congruence. }
      constructor; [exact IH|].
      rewrite Forall_forall in *. intros x Hx.
      destruct (insertBy_In scanCmp p x r Hx) as [->|Hin]; [exact Hqp|].
      apply Hall. exact Hin.
Qed.

(** X8. The stored [textPoints] are in serpentine scan order: every point is
    on an earlier row than each point after it, or on the same row and before
    it from left to right on even rows, from right to left on odd ones. *)
Theorem textPoints_are_in_scan_order (pts : list Point) (fontSize t0 : Q) :
  StronglySorted serpentine (textPoints (buildTextPoints pts fontSize t0)).
Proof.
  simpl. unfold scanlineOrder, sortBy.
  induction pts as [|p pts IH]; simpl; [constructor|].
  apply insertBy_sorted. exact IH.
Qed.

(** ** The bounding box *)

Ltac qltb_cases :=
  repeat match goal with
         | |- context [Qltb ?a ?b] =>
             let E := fresh "E" in
             destruct (Qltb a b) eqn:E;
             [apply Qltb_true in E|apply Qltb_false in E]
         end.

Lemma boundsOf_encloses (pts : list Point) (fontSize : Q) (p : Point) :
  In p pts -> encloses (boundsOf pts fontSize) p.
Proof.
  unfold boundsOf.
  generalize (mkBounds 1e9 1e9 (-1e9) (-1e9) fontSize).
  set (f := fun (b : Bounds) (p : Point) =>
              mkBounds (if Qltb (px p) (minX b) then px p else minX b)
                       (if Qltb (py p) (minY b) then py p else minY b)
                       (if Qltb (maxX b) (px p) then px p else maxX b)
                       (if Qltb (maxY b) (py p) then py p else maxY b)
                       (fs b)).
  assert (Hstep : forall b q,
            (minX (f b q) <= minX b /\ maxX b <= maxX (f b q) /\
             minY (f b q) <= minY b /\ maxY b <= maxY (f b q)) /\
            encloses (f b q) q).
  { intros b q. unfold f, encloses. simpl. qltb_cases; repeat split; lra. }
  assert (Hmono : forall l b0,
            minX (fold_left f l b0) <= minX b0 /\ maxX b0 <= maxX (fold_left f l b0) /\
            minY (fold_left f l b0) <= minY b0 /\ maxY b0 <= maxY (fold_left f l b0)).
  { induction l as [|q l IH]; intros b0; simpl; [lra|].
    destruct (IH (f b0 q)) as (H1 & H2 & H3 & H4).
    destruct (Hstep b0 q) as ((G1 & G2 & G3 & G4) & _).
    repeat split; lra. }
  induction pts as [|q pts IH]; intros b0 Hin; [contradiction|].
  simpl. destruct Hin as [->|Hin]; [|apply IH; exact Hin].
  destruct (Hmono pts (f b0 p)) as (H1 & H2 & H3 & H4).
  destruct (Hstep b0 p) as (_ & (G1 & G2 & G3 & G4)).
  unfold encloses. repeat split; lra.
Qed.

(** ** The sweep *)

Lemma step_sweep (now : Q) (s s' : State) (fr : Frame) (tb : Bounds) :
  step now s = Ok (s', fr) -> textBounds s = Some tb ->
  let lo := minX tb - 40 in
  let hi := maxX tb + 40 in
  let range := if Qeq_bool (hi - lo) 0 then 1 else hi - lo in
  let sw := sweep range (frameDt now s) s in
  textBounds s' = Some tb /\ sweepX s' = fst sw /\ sweepDir s' = snd sw /\
  beamX fr = Some (lo + fst sw).
Proof.
  intros H Hb. unfold step in H. cbv zeta in H. rewrite Hb in H.
  destruct (stamp (textPoints s)
              (Z.to_nat (reveal (frameDt now s) s -
                         Z.max 0 (reveal (frameDt now s) s - 2500)))
              (Z.max 0 (reveal (frameDt now s) s - 2500)) (glow s ++ [Fade]))
    as [g1| |]; simpl bind in H; try discriminate.
  cbv zeta.
  destruct (Qle_bool 1 (progress (reveal (frameDt now s) s) s)).
  - destruct (Qltb 14 ((now - (if Qeq_bool (completedAt s) 0 then now
                                else completedAt s)) / 1000));
      injection H as <- <-; simpl; tauto.
  - injection H as <- <-; simpl; tauto.
Qed.

Lemma sweep_inside (range dt : Q) (s : State) :
  0 <= range ->
  0 <= fst (sweep range dt s) /\ fst (sweep range dt s) <= range.
Proof.
  intros Hr. unfold sweep. cbv zeta.
  destruct (Qltb range (sweepX s + sweepDir s * sweepSpeed * dt)) eqn:E1; simpl; [lra|].
  apply Qltb_false in E1.
  destruct (Qltb (sweepX s + sweepDir s * sweepSpeed * dt) 0) eqn:E2; simpl; [lra|].
  apply Qltb_false in E2. lra.
Qed.

Lemma sweep_dir (range dt : Q) (s : State) :
  (sweepDir s == 1 \/ sweepDir s == -1) ->
  snd (sweep range dt s) == 1 \/ snd (sweep range dt s) == -1.
Proof.
  intros Hd. unfold sweep. cbv zeta.
  destruct (Qltb range (sweepX s + sweepDir s * sweepSpeed * dt)); simpl;
    [right; reflexivity|].
  destruct (Qltb (sweepX s + sweepDir s * sweepSpeed * dt) 0); simpl;
    [left; reflexivity|exact Hd].
Qed.

Lemma range_of_text (tb : Bounds) (p : Point) :
  encloses tb p ->
  (if Qeq_bool (maxX tb + 40 - (minX tb - 40)) 0 then 1
   else maxX tb + 40 - (minX tb - 40)) == maxX tb - minX tb + 80 /\
  0 <= maxX tb - minX tb + 80.
Proof.
  intros (H1 & H2 & _).
  destruct (Qeq_bool (maxX tb + 40 - (minX tb - 40)) 0) eqn:E.
  - apply Qeq_bool_iff in E. lra.
  - split; [ring|lra].
Qed.

Lemma scanlineOrder_enclosed (pts : list Point) (fontSize : Q) (p : Point) :
  In p (scanlineOrder pts) -> encloses (boundsOf pts fontSize) p.
Proof.
  intros Hp. apply boundsOf_encloses.
  apply (Permutation_in p (Permutation_sym (SweepFacts.sortBy_perm scanCmp pts)) Hp).
Qed.

Lemma boxInv_step (now : Q) (s s' : State) (fr : Frame) :
  boxInv s -> step now s = Ok (s', fr) -> boxInv s'.
Proof.
  intros (tb & Hb & Henc & Hdir) H.
  destruct (step_sweep now s s' fr tb H Hb) as (Hb' & _ & Ed & _).
  pose proof (SweepFacts.step_keeps_textPoints now s s' fr H) as Etp.
  exists tb. rewrite Etp, Ed.
  split; [exact Hb'|]. split; [exact Henc|].
  apply sweep_dir. exact Hdir.
Qed.

Lemma Reachable_boxInv (s : State) : Reachable s -> boxInv s.
Proof.
  induction 1 as [pts fontSize t0|s pts fontSize _ IH|s s' fr now _ IH _ E].
  - exists (boundsOf pts fontSize). simpl.
    split; [reflexivity|]. split; [apply scanlineOrder_enclosed|left; reflexivity].
  - destruct IH as (_ & _ & _ & Hdir).
    exists (boundsOf pts fontSize). simpl.
    split; [reflexivity|]. split; [apply scanlineOrder_enclosed|exact Hdir].
  - apply (boxInv_step now s s' fr IH E).
Qed.

Lemma step_sweepInside (now : Q) (s s' : State) (fr : Frame) :
  boxInv s -> textPoints s <> [] -> step now s = Ok (s', fr) -> sweepInside s'.
Proof.
  intros (tb & Hb & Henc & _) Hne H.
  destruct (step_sweep now s s' fr tb H Hb) as (Hb' & Ex & _ & _).
  destruct (textPoints s) as [|p tp] eqn:E; [congruence|].
  destruct (range_of_text tb p (Henc p (or_introl eq_refl))) as [Er H0].
  assert (Hr : 0 <= (if Qeq_bool (maxX tb + 40 - (minX tb - 40)) 0 then 1
                     else maxX tb + 40 - (minX tb - 40))) by (rewrite Er; exact H0).
  destruct (sweep_inside _ (frameDt now s) s Hr) as [Ha Hc].
  exists tb. rewrite Ex. split; [exact Hb'|]. split; [exact Ha|].
  rewrite <- Er. exact Hc.
Qed.

(** X9. The sweep of version 1, resizes included.  In every state of a
    running page the text box encloses every text point and the sweep
    direction is one or minus one.  In every state with text and with no
    resize since the last frame, the sweep position lies between zero and the
    padded width of the box: a frame puts it there, whatever a resize before
    it has left. *)
Theorem sweep_state_is_consistent (s : State) :
  Reachable s ->
  boxInv s /\ (Settled s -> textPoints s <> [] -> sweepInside s).
Proof.
  intros Hr. split; [apply Reachable_boxInv; exact Hr|].
  clear Hr. intros [pts fontSize t0|s0 s' fr now Hr _ E] Hne.
  - simpl in Hne. exists (boundsOf pts fontSize). simpl. split; [reflexivity|].
    destruct (scanlineOrder pts) as [|p tp] eqn:Etp; [congruence|].
    destruct (scanlineOrder_enclosed pts fontSize p) as (H1 & H2 & _);
      [rewrite Etp; left; reflexivity|].
    split; lra.
  - apply (step_sweepInside now s0 s' fr (Reachable_boxInv s0 Hr)); [|exact E].
    rewrite <- (SweepFacts.step_keeps_textPoints now s0 s' fr E). exact Hne.
Qed.

Lemma sweep_state_is_consistent_witness :
  Reachable revealedState /\ Settled revealedState /\ textPoints revealedState <> [] /\
  boxInv revealedState /\ sweepInside revealedState.
Proof.
  assert (Hne : textPoints revealedState <> []) by discriminate.
  split; [exact SweepFacts.revealedState_reachable|].
  split; [exact SweepFacts.revealedState_settled|]. split; [exact Hne|].
  destruct (sweep_state_is_consistent _ SweepFacts.revealedState_reachable) as [Hb Hin].
  split; [exact Hb|exact (Hin SweepFacts.revealedState_settled Hne)].
Defined.

(** The exception is real: the state [narrowed] comes straight out of a
    resize, has text, and its sweep position is outside the padded width. *)
Remark resize_keeps_the_sweep_position :
  Reachable narrowed /\ textPoints narrowed <> [] /\ ~ sweepInside narrowed.
Proof.
  split; [|split].
  - unfold narrowed. cbv zeta. apply reach_resize.
    set (s0 := buildTextPoints [mkPoint 0 0; mkPoint 800 0] 40 1000).
    assert (R0 : Reachable s0) by apply reach_build.
    assert (forall now s, Reachable s -> 0 <= frameDt now s ->
              Reachable (match step now s with Ok (s', _) => s' | _ => s end))
      as Hrun.
    { intros now s Hr Hdt. destruct (step now s) as [[s' fr]| |] eqn:E; try exact Hr.
      apply (reach_step s s' fr now Hr Hdt E). }
    apply Hrun; [apply Hrun; [apply Hrun; [exact R0|]|]|]; vm_compute; discriminate.
  - vm_compute. discriminate.
  - intros (tb & Hb & _ & Hx). vm_compute in Hb. injection Hb as <-.
    vm_compute in Hx. apply Hx. reflexivity.
Qed.

(** X10. When there is text, the vertical beam of every frame is drawn
    between [minX - 40] and [maxX + 40] of the bounding box, whatever the
    timestamp. *)
Theorem beam_stays_over_the_text (s : State) (now : Q) :
  Reachable s -> textPoints s <> [] ->
  exists s' fr tb x,
    step now s = Ok (s', fr) /\ textBounds s = Some tb /\ beamX fr = Some x /\
    minX tb - 40 <= x /\ x <= maxX tb + 40.
Proof.
  intros Hr Hne.
  destruct (Reachable_boxInv s Hr) as (tb & Hb & Henc & _).
  destruct (SweepFacts.Reachable_inv s Hr) as (Hbs & [_ Hrc]).
  destruct (SweepFacts.step_cases now s Hrc Hbs) as (s' & fr & E & _).
  destruct (step_sweep now s s' fr tb E Hb) as (_ & _ & _ & Ebx).
  destruct (textPoints s) as [|p tp] eqn:Etp; [congruence|].
  destruct (range_of_text tb p (Henc p (or_introl eq_refl))) as [Er H0].
  cbv zeta in Ebx.
  set (range := if Qeq_bool (maxX tb + 40 - (minX tb - 40)) 0 then 1
                else maxX tb + 40 - (minX tb - 40)) in *.
  assert (Hrange : 0 <= range) by lra.
  destruct (sweep_inside range (frameDt now s) s Hrange) as [Ha Hc].
  exists s', fr, tb. eexists. split; [exact E|]. split; [exact Hb|].
  split; [exact Ebx|]. split; lra.
Qed.

Lemma beam_stays_over_the_text_witness :
  Reachable revealedState /\ textPoints revealedState <> [] /\
  exists s' fr tb x,
    step 16000 revealedState = Ok (s', fr) /\ textBounds revealedState = Some tb /\
    beamX fr = Some x /\ minX tb - 40 <= x /\ x <= maxX tb + 40.
Proof.
  assert (Hne : textPoints revealedState <> []) by discriminate.
  split; [exact SweepFacts.revealedState_reachable|]. split; [exact Hne|].
  exact (beam_stays_over_the_text revealedState 16000
           SweepFacts.revealedState_reachable Hne).
Defined.

(** ** What a frame paints on the glow buffer *)

Lemma skipn_nth_error (tp : list Point) (k : nat) (p : Point) :
  nth_error tp k = Some p -> skipn k tp = p :: skipn (S k) tp.
Proof.
  revert k. induction tp as [|q tp IH]; intros [|k] H; simpl in *; try discriminate.
  - injection H as ->. reflexivity.
  - apply IH. exact H.
Qed.

Lemma stamp_closed (tp : list Point) (n : nat) :
  forall (i : Z) (g g' : list Mark),
    stamp tp n i g = Ok g' -> (0 <= i)%Z ->
    g' = g ++ map Dot (firstn n (skipn (Z.to_nat i) tp)).
Proof.
  induction n as [|n IH]; intros i g g' H Hi; simpl in H.
  - injection H as <-. simpl. rewrite app_nil_r. reflexivity.
  - unfold readAtZ in H. destruct (i <? 0)%Z eqn:E; [apply Z.ltb_lt in E; lia|].
    destruct (nth_error tp (Z.to_nat i)) as [p|] eqn:Hp;
      [|unfold readAt in H; rewrite Hp in H; discriminate].
    rewrite (BeamFacts.readAt_some _ _ _ Hp) in H. simpl bind in H.
    rewrite (IH _ _ _ H) by lia.
    rewrite (skipn_nth_error tp _ p Hp). simpl.
    replace (Z.to_nat (i + 1)) with (S (Z.to_nat i)) by lia.
    rewrite <- app_assoc. reflexivity.
Qed.

Lemma step_glow (now : Q) (s s' : State) (fr : Frame) :
  step now s = Ok (s', fr) ->
  exists g1,
    stamp (textPoints s)
      (Z.to_nat (reveal (frameDt now s) s - Z.max 0 (reveal (frameDt now s) s - 2500)))
      (Z.max 0 (reveal (frameDt now s) s - 2500)) (glow s ++ [Fade]) = Ok g1 /\
    ((glow s' = [] /\ revealCount s' = 0%Z) \/
     (glow s' = g1 /\ revealCount s' = reveal (frameDt now s) s)).
Proof.
  intros H. unfold step in H. cbv zeta in H.
  destruct (stamp (textPoints s)
              (Z.to_nat (reveal (frameDt now s) s -
                         Z.max 0 (reveal (frameDt now s) s - 2500)))
              (Z.max 0 (reveal (frameDt now s) s - 2500)) (glow s ++ [Fade]))
    as [g1| |]; simpl bind in H; try discriminate.
  exists g1. split; [reflexivity|].
  destruct (textBounds s) as [tb|].
  - destruct (Qle_bool 1 (progress (reveal (frameDt now s) s) s)).
    + destruct (Qltb 14 ((now - (if Qeq_bool (completedAt s) 0 then now
                                  else completedAt s)) / 1000));
        injection H as <- _; simpl; tauto.
    + injection H as <- _; simpl; tauto.
  - injection H as <- _; simpl; tauto.
Qed.

Lemma reveal_step_cap (now : Q) (s : State) :
  (Qfloor (revealRate * frameDt now s) <= 29)%Z.
Proof.
  assert (H : frameDt now s <= 0.033) by apply Q.le_min_l.
  change 29%Z with (Qfloor (revealRate * 0.033)).
  apply Qfloor_resp_le. unfold revealRate. lra.
Qed.

(** X11. A frame reveals at most 29 more points however long the page was
    stalled.  On the glow buffer it either clears everything (the restart) or
    paints one fade followed by the dots of the text points at the indices
    [max(0, revealCount - 2500)] to [revealCount - 1], in this order, for the
    [revealCount] it ends with: that many dots, at most 2500, and no
    other. *)
Theorem frame_reveal_is_clamped (s : State) (now : Q) :
  Reachable s ->
  exists s' fr,
    step now s = Ok (s', fr) /\
    (revealCount s' <= revealCount s + 29)%Z /\
    ((glow s' = [] /\ revealCount s' = 0%Z) \/
     exists dots,
       glow s' = glow s ++ Fade :: map Dot dots /\
       length dots = Z.to_nat (Z.min 2500 (revealCount s')) /\
       (forall k, (k < length dots)%nat ->
          nth_error dots k =
          nth_error (textPoints s)
                    (Z.to_nat (Z.max 0 (revealCount s' - 2500)) + k))).
Proof.
  intros Hr.
  destruct (SweepFacts.Reachable_inv s Hr) as (Hb & [H0 Hrc]).
  destruct (SweepFacts.step_cases now s Hrc Hb) as (s' & fr & E & _).
  exists s', fr. split; [exact E|].
  destruct (step_glow now s s' fr E) as (g1 & Hst & Hcase).
  pose proof (reveal_step_cap now s) as Hcap.
  pose proof (SweepFacts.reveal_bounds (frameDt now s) s Hrc) as Hle.
  assert (Hrev : (reveal (frameDt now s) s <= revealCount s + 29)%Z).
  { unfold reveal. destruct (len s =? 0)%Z; lia. }
  pose proof (stamp_closed _ _ _ _ _ Hst ltac:(lia)) as Hg.
  destruct Hcase as [[Eg Er]|[Eg Er]].
  - split; [lia|]. left. tauto.
  - split; [lia|]. right. rewrite Er. eexists. split.
    + rewrite Eg, Hg, <- app_assoc. reflexivity.
    + unfold len in Hle. split.
      * rewrite length_firstn, length_skipn. lia.
      * intros k Hk. rewrite length_firstn, length_skipn in Hk.
        rewrite nth_error_firstn, nth_error_skipn.
        rewrite (proj2 (Nat.ltb_lt _ _)) by lia. reflexivity.
Qed.

Lemma frame_reveal_is_clamped_witness :
  let s := buildTextPoints [mkPoint 0 0; mkPoint 4 0] 40 1000 in
  Reachable s /\
  exists s' fr,
    step 9000 s = Ok (s', fr) /\
    (revealCount s' <= revealCount s + 29)%Z /\
    ((glow s' = [] /\ revealCount s' = 0%Z) \/
     exists dots,
       glow s' = glow s ++ Fade :: map Dot dots /\
       length dots = Z.to_nat (Z.min 2500 (revealCount s')) /\
       (forall k, (k < length dots)%nat ->
          nth_error dots k =
          nth_error (textPoints s)
                    (Z.to_nat (Z.max 0 (revealCount s' - 2500)) + k))).
Proof.
  cbv zeta.
  assert (Hr : Reachable (buildTextPoints [mkPoint 0 0; mkPoint 4 0] 40 1000))
    by apply reach_build.
  split; [exact Hr|].
  exact (frame_reveal_is_clamped _ 9000 Hr).
Defined.

End SweepOrder.

(** * Text layout: facts *)

Module LayoutFacts.
Import String Layout.

(** ** Clamping *)

Lemma clamp_inside (v a b : Q) : a <= b -> a <= clamp v a b /\ clamp v a b <= b.
Proof.
  intros Hab. unfold clamp.
  destruct (Q.max_spec a (Qmin b v)) as [[Hc Hm]|[Hc Hm]];
    destruct (Q.min_spec b v) as [[Hc2 Hm2]|[Hc2 Hm2]]; rewrite Hm; lra.
Qed.

Lemma clamp_fixed (v a b : Q) : a <= v -> v <= b -> clamp v a b == v.
Proof.
  intros Ha Hb. unfold clamp.
  destruct (Q.max_spec a (Qmin b v)) as [[Hc Hm]|[Hc Hm]];
    destruct (Q.min_spec b v) as [[Hc2 Hm2]|[Hc2 Hm2]]; rewrite Hm; lra.
Qed.

(** X12. Whatever the viewport width, the font size is between 30 and 96
    pixels in version 2 and between 34 and 110 in version 1, and it is the
    floored scaled width whenever that lies in the range. *)
Theorem font_size_is_clamped (w : Q) :
  (30 <= fontSize2 w /\ fontSize2 w <= 96) /\
  (34 <= fontSize1 w /\ fontSize1 w <= 110) /\
  (30 <= inject_Z (Qfloor (w * 0.082)) <= 96 ->
   fontSize2 w == inject_Z (Qfloor (w * 0.082))) /\
  (34 <= inject_Z (Qfloor (w * 0.090)) <= 110 ->
   fontSize1 w == inject_Z (Qfloor (w * 0.090))).
Proof.
  unfold fontSize2, fontSize1.
  split; [apply clamp_inside; lra|].
  split; [apply clamp_inside; lra|].
  split; intros [H1 H2]; apply clamp_fixed; assumption.
Qed.

Lemma font_size_is_clamped_witness :
  30 <= inject_Z (Qfloor (800 * 0.082)) <= 96 /\
  fontSize2 800 == inject_Z (Qfloor (800 * 0.082)).
Proof.
  assert (H : 30 <= inject_Z (Qfloor (800 * 0.082)) <= 96)
    by (split; vm_compute; discriminate).
  split; [exact H|].
  exact (proj1 (proj2 (proj2 (font_size_is_clamped 800))) H).
Defined.

(** ** Wrapping *)

Lemma append_assoc (a b c : string) : ((a ++ b) ++ c = a ++ (b ++ c))%string.
Proof.
  induction a as [|ch a IH]; simpl; [reflexivity|]. rewrite IH. reflexivity.
Qed.

Lemma append_nonempty (a b : string) : a <> ""%string -> (a ++ b)%string <> ""%string.
Proof.
  destruct a; simpl; [congruence|discriminate].
Qed.

Lemma spell_cons (a : string) (l : list string) :
  l <> [] -> spell (a :: l) = (a ++ " " ++ spell l)%string.
Proof.
  destruct l; [congruence|reflexivity].
Qed.

Lemma spell_glue (l1 l2 : list string) (a b : string) :
  spell (l1 ++ (a ++ " " ++ b)%string :: l2) = spell (l1 ++ a :: b :: l2).
Proof.
  induction l1 as [|c l1 IH].
  - simpl app. rewrite (spell_cons a (b :: l2)) by discriminate.
    destruct l2 as [|d l2].
    + reflexivity.
    + rewrite (spell_cons _ (d :: l2)) by discriminate.
      rewrite (spell_cons b (d :: l2)) by discriminate.
      rewrite append_assoc. reflexivity.
  - change ((c :: l1) ++ (a ++ " " ++ b)%string :: l2)%list
      with (c :: (l1 ++ (a ++ " " ++ b)%string :: l2)%list).
    change ((c :: l1) ++ a :: b :: l2)%list with (c :: (l1 ++ a :: b :: l2)%list).
    rewrite !spell_cons; [rewrite IH; reflexivity| |]; destruct l1; discriminate.
Qed.

Section WrapFacts.

Variable measure : string -> Q.
Variable maxWidth : Q.

Lemma wrap_cons (word : string) (rest : list string) (line : string)
      (lines : list string) :
  wrap measure maxWidth (word :: rest) line lines =
  if Qle_bool (measure (if (line =? "")%string then word
                        else (line ++ " " ++ word)%string)) maxWidth
     || (line =? "")%string
  then wrap measure maxWidth rest
            (if (line =? "")%string then word else (line ++ " " ++ word)%string) lines
  else wrap measure maxWidth rest word (lines ++ [line])%list.
Proof. reflexivity. Qed.

Lemma wrap_spell (words : list string) :
  forall line lines,
    Forall (fun w => w <> ""%string) words ->
    spell (wrap measure maxWidth words line lines) =
    spell (lines ++ pendingLine line ++ words)%list.
Proof.
  induction words as [|word rest IH]; intros line lines Hne.
  - simpl. unfold pendingLine.
    destruct (line =? "")%string; rewrite ?app_nil_r; reflexivity.
  - inversion Hne as [|? ? Hw Hrest]; subst.
    rewrite wrap_cons. unfold pendingLine at 1.
    destruct (line =? "")%string eqn:E.
    + rewrite orb_true_r. rewrite (IH word lines Hrest).
      unfold pendingLine. apply String.eqb_neq in Hw. rewrite Hw. reflexivity.
    + rewrite orb_false_r.
      destruct (Qle_bool (measure (line ++ " " ++ word)) maxWidth).
      * rewrite (IH _ lines Hrest). unfold pendingLine.
        assert (Ht : ((line ++ " " ++ word) =? "")%string = false).
        { apply String.eqb_neq. apply append_nonempty.
          apply String.eqb_neq. exact E. }
        rewrite Ht. apply (spell_glue lines rest line word).
      * rewrite (IH word _ Hrest). unfold pendingLine.
        apply String.eqb_neq in Hw. rewrite Hw.
        rewrite <- app_assoc. reflexivity.
Qed.

Lemma wrap_lines (all words : list string) :
  forall line lines,
    Forall (fun w => w <> ""%string) words -> incl words all ->
    let ok := fun l => l <> ""%string /\ (measure l <= maxWidth \/ In l all) in
    Forall ok lines -> (line = ""%string \/ ok line) ->
    Forall ok (wrap measure maxWidth words line lines).
Proof.
  induction words as [|word rest IH]; intros line lines Hne Hin ok Hlines Hline.
  - simpl. destruct (line =? "")%string eqn:E; [exact Hlines|].
    apply Forall_app. split; [exact Hlines|]. constructor; [|constructor].
    destruct Hline as [->|H]; [discriminate E|exact H].
  - inversion Hne as [|? ? Hw Hrest]; subst.
    assert (Hword : ok word).
    { split; [exact Hw|]. right. apply Hin. left. reflexivity. }
    assert (Hin' : incl rest all) by (intros x Hx; apply Hin; right; exact Hx).
    rewrite wrap_cons.
    destruct (line =? "")%string eqn:E.
    + rewrite orb_true_r.
      apply (IH word lines Hrest Hin' Hlines). right. exact Hword.
    + rewrite orb_false_r.
      assert (Hl : ok line).
      { destruct Hline as [->|H]; [discriminate E|exact H]. }
      destruct (Qle_bool (measure (line ++ " " ++ word)) maxWidth) eqn:Ef.
      * apply (IH _ lines Hrest Hin' Hlines). right. split.
        -- apply append_nonempty. apply String.eqb_neq. exact E.
        -- left. apply Qle_bool_iff. exact Ef.
      * apply (IH word _ Hrest Hin'); [|right; exact Hword].
        apply Forall_app. split; [exact Hlines|]. constructor; [exact Hl|constructor].
Qed.

Lemma wrap_nil (words : list string) :
  forall line lines,
    Forall (fun w => w <> ""%string) words ->
    wrap measure maxWidth words line lines = [] ->
    words = [] /\ line = ""%string /\ lines = [].
Proof.
  induction words as [|word rest IH]; intros line lines Hne H.
  - simpl in H. destruct (line =? "")%string eqn:E.
    + apply String.eqb_eq in E. tauto.
    + destruct lines; discriminate H.
  - exfalso. inversion Hne as [|? ? Hw Hrest]; subst.
    rewrite wrap_cons in H.
    destruct (line =? "")%string eqn:E.
    + rewrite orb_true_r in H.
      destruct (IH _ _ Hrest H) as (_ & Ht & _). congruence.
    + rewrite orb_false_r in H.
      destruct (Qle_bool (measure (line ++ " " ++ word)) maxWidth).
      * destruct (IH _ _ Hrest H) as (_ & Ht & _).
        apply (append_nonempty line (" " ++ word)); [|exact Ht].
        apply String.eqb_neq. exact E.
      * destruct (IH _ _ Hrest H) as (_ & Ht & _). congruence.
Qed.

(** X13. [splitLines] loses nothing and invents nothing: its lines spell the
    same text as the words, with single spaces.  No line is empty, and every
    line fits the maximum width unless it is one single word of the text.
    There are no lines exactly when there are no words. *)
Theorem splitLines_keeps_the_text (words : list string) :
  Forall (fun w => w <> ""%string) words ->
  spell (splitLines measure maxWidth words) = spell words /\
  Forall (fun l => l <> ""%string /\ (measure l <= maxWidth \/ In l words))
         (splitLines measure maxWidth words) /\
  (splitLines measure maxWidth words = [] <-> words = []).
Proof.
  intros Hne. unfold splitLines. split; [|split].
  - rewrite (wrap_spell words ""%string [] Hne). reflexivity.
  - apply (wrap_lines words words ""%string [] Hne).
    + intros x Hx. exact Hx.
    + constructor.
    + left. reflexivity.
  - split.
    + intros H. destruct (wrap_nil words _ _ Hne H) as (E & _). exact E.
    + intros ->. reflexivity.
Qed.

End WrapFacts.

Lemma splitLines_keeps_the_text_witness :
  let words := ["Welcome"; "to"; "Electrical"]%string in
  let measure := fun s : string => inject_Z (Z.of_nat (String.length s)) in
  Forall (fun w => w <> ""%string) words /\
  spell (splitLines measure 10 words) = spell words.
Proof.
  cbv zeta.
  assert (H : Forall (fun w => w <> ""%string) ["Welcome"; "to"; "Electrical"]%string)
    by (repeat constructor; discriminate).
  split; [exact H|].
  exact (proj1 (splitLines_keeps_the_text
                  (fun s : string => inject_Z (Z.of_nat (String.length s))) 10 _ H)).
Defined.

End LayoutFacts.

(** * Glyph sampling: facts *)

Module SamplerFacts.
Import Sampler.

Lemma rnd_inside (a b u : Q) :
  a <= b -> 0 <= u -> u < 1 -> a <= rnd a b u /\ rnd a b u <= b.
Proof.
  intros Hab H0 H1. unfold rnd. split; nra.
Qed.

Lemma In_strides (step n v : nat) :
  (0 < step)%nat -> In v (strides step n) ->
  (v < n)%nat /\ exists k, v = (k * step)%nat.
Proof.
  intros Hs Hin. unfold strides in Hin. apply in_map_iff in Hin.
  destruct Hin as (k & <- & Hk). apply in_seq in Hk.
  split; [|exists k; reflexivity].
  destruct (Nat.lt_ge_cases (k * step) n) as [H|H]; [exact H|exfalso].
  assert (Hd : ((n + step - 1) / step < k + 1)%nat).
  { apply Nat.Div0.div_lt_upper_bound. nia. }
  lia.
Qed.

Lemma In_pixels (step width height xx yy : nat) :
  (0 < step)%nat -> In (xx, yy) (pixels step width height) ->
  (xx < width)%nat /\ (yy < height)%nat /\
  (exists k, xx = (k * step)%nat) /\ (exists j, yy = (j * step)%nat).
Proof.
  intros Hs Hin. unfold pixels in Hin. apply in_flat_map in Hin.
  destruct Hin as (y0 & Hy & Hin). apply in_map_iff in Hin.
  destruct Hin as (x0 & E & Hx). injection E as -> ->.
  destruct (In_strides step width xx Hs Hx) as [H1 H2].
  destruct (In_strides step height yy Hs Hy) as [H3 H4]. tauto.
Qed.

Lemma In_scanPixels (img : list Z) (width : nat)
      (place : nat -> nat -> Q -> Q -> Point) (rand : nat -> Q)
      (pxs : list (nat * nat)) :
  forall n p,
    In p (scanPixels img width place rand pxs n) ->
    exists xx yy m,
      In (xx, yy) pxs /\ (12 < alphaAt img width xx yy)%Z /\
      p = place xx yy (rand m) (rand (S m)).
Proof.
  induction pxs as [|[xx yy] rest IH]; intros n p Hin; simpl in Hin; [contradiction|].
  destruct (12 <? alphaAt img width xx yy)%Z eqn:E.
  - destruct Hin as [<-|Hin].
    + exists xx, yy, n. apply Z.ltb_lt in E. split; [left; reflexivity|tauto].
    + destruct (IH _ _ Hin) as (x1 & y1 & m & H1 & H2 & H3).
      exists x1, y1, m. split; [right; exact H1|tauto].
  - destruct (IH _ _ Hin) as (x1 & y1 & m & H1 & H2 & H3).
    exists x1, y1, m. split; [right; exact H1|tauto].
Qed.

Lemma length_scanPixels (img : list Z) (width : nat)
      (place : nat -> nat -> Q -> Q -> Point) (rand : nat -> Q)
      (pxs : list (nat * nat)) :
  forall n, length (scanPixels img width place rand pxs n) =
            length (opaque img width pxs).
Proof.
  unfold opaque. induction pxs as [|[xx yy] rest IH]; intros n; simpl; [reflexivity|].
  destruct (12 <? alphaAt img width xx yy)%Z; simpl; rewrite IH; reflexivity.
Qed.

Lemma sampleChar_inside (img : list Z) (boxW boxH : nat) (x y pad : Q)
      (rand : nat -> Q) (p : Point) :
  unitRandom rand -> In p (sampleChar img boxW boxH x y pad rand) ->
  x - pad - 0.25 <= px p /\ px p <= x - pad + inject_Z (Z.of_nat boxW) + 0.25 /\
  y - inject_Z (Z.of_nat boxH) / 2 - 0.25 <= py p /\
  py p <= y + inject_Z (Z.of_nat boxH) / 2 + 0.25.
Proof.
  intros Hrand Hin. unfold sampleChar in Hin.
  destruct (In_scanPixels _ _ _ _ _ _ _ Hin) as (xx & yy & m & Hpx & _ & ->).
  destruct (In_pixels 1 boxW boxH xx yy ltac:(lia) Hpx) as (Hx & Hy & _).
  destruct (Hrand m) as [Hm0 Hm1]. destruct (Hrand (S m)) as [Hs0 Hs1].
  destruct (rnd_inside (-0.25) 0.25 (rand m) ltac:(lra) Hm0 Hm1) as [Ha Hb].
  destruct (rnd_inside (-0.25) 0.25 (rand (S m)) ltac:(lra) Hs0 Hs1) as [Hc Hd].
  assert (Hxx : 0 <= inject_Z (Z.of_nat xx) /\
                inject_Z (Z.of_nat xx) <= inject_Z (Z.of_nat boxW)).
  { change 0 with (inject_Z 0). rewrite <- !Zle_Qle. lia. }
  assert (Hyy : 0 <= inject_Z (Z.of_nat yy) /\
                inject_Z (Z.of_nat yy) <= inject_Z (Z.of_nat boxH)).
  { change 0 with (inject_Z 0). rewrite <- !Zle_Qle. lia. }
  unfold placeChar. cbn [px py].
  destruct Hxx as [Hx0 Hx1]. destruct Hyy as [Hy0 Hy1].
  unfold Qdiv. change (/ 2) with (1 # 2).
  repeat split; lra.
Qed.

Lemma sampleChar_inBox (img : list Z) (boxW boxH : nat) (x y pad : Q)
      (rand : nat -> Q) :
  unitRandom rand ->
  (Z.of_nat boxW <= 100000)%Z -> (Z.of_nat boxH <= 100000)%Z ->
  inBox (sampleChar img boxW boxH x y pad rand).
Proof.
  intros Hrand HW HH p q Hp Hq.
  destruct (sampleChar_inside img boxW boxH x y pad rand p Hrand Hp)
    as (P1 & P2 & P3 & P4).
  destruct (sampleChar_inside img boxW boxH x y pad rand q Hrand Hq)
    as (Q1 & Q2 & Q3 & Q4).
  assert (HWq : 0 <= inject_Z (Z.of_nat boxW) /\ inject_Z (Z.of_nat boxW) <= 100000).
  { change 0 with (inject_Z 0). change 100000 with (inject_Z 100000).
    rewrite <- !Zle_Qle. lia. }
  assert (HHq : 0 <= inject_Z (Z.of_nat boxH) /\ inject_Z (Z.of_nat boxH) <= 100000).
  { change 0 with (inject_Z 0). change 100000 with (inject_Z 100000).
    rewrite <- !Zle_Qle. lia. }
  assert (Es : Beam.sentinel == 1000000000000000000) by reflexivity.
  unfold dist2. cbv zeta.
  unfold Qdiv in P3, P4, Q3, Q4. change (/ 2) with (1 # 2) in P3, P4, Q3, Q4.
  assert (Hdx : -100001 <= px p - px q /\ px p - px q <= 100001) by (split; lra).
  assert (Hdy : -100001 <= py p - py q /\ py p - py q <= 100001) by (split; lra).
  assert (Hx2 : (px p - px q) * (px p - px q) <= 100001 * 100001) by nra.
  assert (Hy2 : (py p - py q) * (py p - py q) <= 100001 * 100001) by nra.
  lra.
Qed.

(** X14. The samples of a character lie in its raster box, up to the jitter
    of a quarter pixel.  For a box of up to 100000 pixels a side they are
    therefore within reach of the chaining loop, and what [buildLetters]
    stores for the character is a permutation of its samples, whatever the
    raster, the position and the random numbers. *)
Theorem sampled_letters_are_permutations (img : list Z) (boxW boxH : nat)
        (x y pad : Q) (rand : nat -> Q) :
  unitRandom rand ->
  (Z.of_nat boxW <= 100000)%Z -> (Z.of_nat boxH <= 100000)%Z ->
  let pts := sampleChar img boxW boxH x y pad rand in
  (forall p, In p pts ->
     x - pad - 0.25 <= px p /\ px p <= x - pad + inject_Z (Z.of_nat boxW) + 0.25 /\
     y - inject_Z (Z.of_nat boxH) / 2 - 0.25 <= py p /\
     py p <= y + inject_Z (Z.of_nat boxH) / 2 + 0.25) /\
  inBox pts /\
  Permutation pts (Beam.orderLetter pts).
Proof.
  intros Hrand HW HH pts.
  pose proof (sampleChar_inBox img boxW boxH x y pad rand Hrand HW HH) as Hbox.
  split; [|split; [exact Hbox|]].
  - intros p Hp. apply (sampleChar_inside img boxW boxH x y pad rand p Hrand Hp).
  - apply OrderFacts.orderLetter_perm. exact Hbox.
Qed.

Lemma halves_are_unit : unitRandom (fun _ => 1 # 2).
Proof. intros n. split; [discriminate|reflexivity]. Defined.

Lemma sampled_letters_are_permutations_witness :
  let img := [0; 0; 0; 255; 0; 0; 0; 0; 0; 0; 0; 200; 0; 0; 0; 255]%Z in
  let pts := sampleChar img 2 2 10 20 1 (fun _ => 1 # 2) in
  unitRandom (fun _ => 1 # 2) /\
  (Z.of_nat 2 <= 100000)%Z /\ (Z.of_nat 2 <= 100000)%Z /\
  inBox pts /\ Permutation pts (Beam.orderLetter pts).
Proof.
  cbv zeta.
  assert (HW : (Z.of_nat 2 <= 100000)%Z) by (simpl; lia).
  split; [exact halves_are_unit|]. split; [exact HW|]. split; [exact HW|].
  exact (proj2 (sampled_letters_are_permutations
                  [0; 0; 0; 255; 0; 0; 0; 0; 0; 0; 0; 200; 0; 0; 0; 255]%Z
                  2 2 10 20 1 (fun _ => 1 # 2) halves_are_unit HW HW)).
Defined.

(** X15. The sampler yields exactly one point for every visited pixel whose
    alpha exceeds 12, in both versions and whatever the random numbers; a
    raster without such a pixel yields no point at all. *)
Theorem samples_match_opaque_pixels (img : list Z) (width height : nat)
        (x y pad : Q) (rand : nat -> Q) :
  length (sampleChar img width height x y pad rand) =
  length (opaque img width (pixels 1 width height)) /\
  length (sampleText img width height rand) =
  length (opaque img width (pixels 4 width height)) /\
  ((forall xx yy, (alphaAt img width xx yy <= 12)%Z) ->
   sampleChar img width height x y pad rand = [] /\
   sampleText img width height rand = []).
Proof.
  split; [apply length_scanPixels|]. split; [apply length_scanPixels|].
  intros Hblank.
  assert (H : forall pxs, opaque img width pxs = []).
  { induction pxs as [|xy pxs IH]; [reflexivity|]. unfold opaque in *. simpl.
    destruct (12 <? alphaAt img width (fst xy) (snd xy))%Z eqn:E; [|exact IH].
    apply Z.ltb_lt in E. specialize (Hblank (fst xy) (snd xy)). lia. }
  split; apply length_zero_iff_nil.
  - unfold sampleChar. rewrite length_scanPixels, H. reflexivity.
  - unfold sampleText. rewrite length_scanPixels, H. reflexivity.
Qed.

Lemma samples_match_opaque_pixels_witness :
  (forall xx yy, (alphaAt [] 3 xx yy <= 12)%Z) /\
  sampleChar [] 3 3 0 0 1 (fun _ => 0) = [] /\
  sampleText [] 3 3 (fun _ => 0) = [].
Proof.
  assert (H : forall xx yy, (alphaAt [] 3 xx yy <= 12)%Z).
  { intros xx yy. unfold alphaAt. destruct ((yy * 3 + xx) * 4 + 3)%nat; simpl; lia. }
  split; [exact H|].
  exact (proj2 (proj2 (samples_match_opaque_pixels [] 3 3 0 0 1 (fun _ => 0))) H).
Defined.

Lemma floor_near (z : Q) (j : Z) :
  inject_Z j - 1 < z -> z < inject_Z j + 1 ->
  Qfloor z = j \/ Qfloor z = (j - 1)%Z.
Proof.
  intros Hlo Hhi.
  pose proof (Qfloor_le z) as H1. pose proof (Qlt_floor z) as H2.
  rewrite inject_Z_plus in H2. change (inject_Z 1) with 1 in H2.
  assert (Ha : inject_Z (Qfloor z) < inject_Z (j + 1)).
  { rewrite inject_Z_plus. change (inject_Z 1) with 1.
    set (f := inject_Z (Qfloor z)) in *. set (i := inject_Z j) in *.
    clearbody f i. lra. }
  assert (Hb : inject_Z j < inject_Z (Qfloor z + 2)).
  { rewrite inject_Z_plus. change (inject_Z 2) with 2.
    set (f := inject_Z (Qfloor z)) in *. set (i := inject_Z j) in *.
    clearbody f i. lra. }
  rewrite <- Zlt_Qlt in Ha, Hb. lia.
Qed.

(** X16. In version 1 every sample lies within 0.6 pixel of a visited pixel
    whose alpha exceeds 12, and the scan row it is sorted into is the row of
    that pixel or the row before it: a point jittered upwards from row [j]
    falls into row [j - 1]. *)
Theorem text_samples_and_their_rows (img : list Z) (width height : nat)
        (rand : nat -> Q) (p : Point) :
  unitRandom rand -> In p (sampleText img width height rand) ->
  exists k j,
    (k * 4 < width)%nat /\ (j * 4 < height)%nat /\
    (12 < alphaAt img width (k * 4) (j * 4))%Z /\
    inject_Z (Z.of_nat (k * 4)) - 0.6 <= px p /\
    px p <= inject_Z (Z.of_nat (k * 4)) + 0.6 /\
    inject_Z (Z.of_nat (j * 4)) - 0.6 <= py p /\
    py p <= inject_Z (Z.of_nat (j * 4)) + 0.6 /\
    (Sweep.row p = Z.of_nat j \/ Sweep.row p = (Z.of_nat j - 1)%Z).
Proof.
  intros Hrand Hin. unfold sampleText in Hin.
  destruct (In_scanPixels _ _ _ _ _ _ _ Hin) as (xx & yy & m & Hpx & Ha & ->).
  destruct (In_pixels 4 width height xx yy ltac:(lia) Hpx)
    as (Hx & Hy & (k & ->) & (j & ->)).
  exists k, j. split; [exact Hx|]. split; [exact Hy|]. split; [exact Ha|].
  destruct (Hrand m) as [Hm0 Hm1]. destruct (Hrand (S m)) as [Hs0 Hs1].
  destruct (rnd_inside (-0.6) 0.6 (rand m) ltac:(lra) Hm0 Hm1) as [Hb Hc].
  destruct (rnd_inside (-0.6) 0.6 (rand (S m)) ltac:(lra) Hs0 Hs1) as [Hd He].
  unfold placeText. cbn [px py].
  split; [lra|]. split; [lra|]. split; [lra|]. split; [lra|].
  unfold Sweep.row. cbn [py].
  apply floor_near.
  - assert (E : inject_Z (Z.of_nat (j * 4)) == 4 * inject_Z (Z.of_nat j)).
    { rewrite Nat2Z.inj_mul, inject_Z_mult. change (inject_Z (Z.of_nat 4)) with 4. ring. }
    apply Qlt_shift_div_l; [reflexivity|]. unfold Sweep.sampleStep. lra.
  - assert (E : inject_Z (Z.of_nat (j * 4)) == 4 * inject_Z (Z.of_nat j)).
    { rewrite Nat2Z.inj_mul, inject_Z_mult. change (inject_Z (Z.of_nat 4)) with 4. ring. }
    apply Qlt_shift_div_r; [reflexivity|]. unfold Sweep.sampleStep. lra.
Qed.

Lemma zeros_are_unit : unitRandom (fun _ => 0).
Proof. intros n. split; [discriminate|reflexivity]. Defined.

Lemma text_samples_and_their_rows_witness :
  let img := repeat 255%Z 100 in
  unitRandom (fun _ => 0) /\
  In (placeText 0 4 0 0) (sampleText img 1 5 (fun _ => 0)) /\
  Sweep.row (placeText 0 4 0 0) = 0%Z /\
  exists k j,
    (k * 4 < 1)%nat /\ (j * 4 < 5)%nat /\
    (12 < alphaAt img 1 (k * 4) (j * 4))%Z /\
    inject_Z (Z.of_nat (k * 4)) - 0.6 <= px (placeText 0 4 0 0) /\
    px (placeText 0 4 0 0) <= inject_Z (Z.of_nat (k * 4)) + 0.6 /\
    inject_Z (Z.of_nat (j * 4)) - 0.6 <= py (placeText 0 4 0 0) /\
    py (placeText 0 4 0 0) <= inject_Z (Z.of_nat (j * 4)) + 0.6 /\
    (Sweep.row (placeText 0 4 0 0) = Z.of_nat j \/
     Sweep.row (placeText 0 4 0 0) = (Z.of_nat j - 1)%Z).
Proof.
  cbv zeta.
  assert (Hin : In (placeText 0 4 0 0)
                   (sampleText (repeat 255%Z 100) 1 5 (fun _ => 0))).
  { vm_compute. right. left. reflexivity. }
  split; [exact zeros_are_unit|]. split; [exact Hin|].
  split; [vm_compute; reflexivity|].
  exact (text_samples_and_their_rows (repeat 255%Z 100) 1 5 (fun _ => 0) _
           zeros_are_unit Hin).
Defined.

End SamplerFacts.

(** * Background particles: facts *)

Module ParticleFacts.
Import Particles.

Lemma wrapAround_inside (pos vel size : Q) :
  0 <= size ->
  -20 <= wrapAround pos vel size /\ wrapAround pos vel size <= size + 20.
Proof.
  intros Hs. unfold wrapAround. cbv zeta.
  destruct (Qltb (pos + vel) (-20)) eqn:E1.
  - destruct (Qltb (size + 20) (size + 20)) eqn:E2.
    + apply Qltb_true in E2. lra.
    + lra.
  - apply Qltb_false in E1.
    destruct (Qltb (size + 20) (pos + vel)) eqn:E2.
    + lra.
    + apply Qltb_false in E2. lra.
Qed.

Lemma moveParticle_inView (w h : Q) (p : Particle) :
  0 <= w -> 0 <= h ->
  (- particleMaxSpeed <= vx p /\ vx p <= particleMaxSpeed) ->
  (- particleMaxSpeed <= vy p /\ vy p <= particleMaxSpeed) ->
  (1 <= r p /\ r p <= 2.3) -> (190 <= hue p /\ hue p <= 320) ->
  inView w h (moveParticle w h p).
Proof.
  intros Hw Hh Hvx Hvy Hr Hhue. unfold inView, moveParticle.
  cbn [x y vx vy r hue].
  split; [apply wrapAround_inside; exact Hw|].
  split; [apply wrapAround_inside; exact Hh|]. tauto.
Qed.

Lemma spawn_inView (w h : Q) (rand : nat -> Q) (count : nat) :
  Sampler.unitRandom rand -> 0 <= w -> 0 <= h ->
  forall n, length (spawn w h rand count n) = count /\
            Forall (inView w h) (spawn w h rand count n).
Proof.
  intros Hrand Hw Hh. induction count as [|c IH]; intros n; simpl.
  - split; [reflexivity|constructor].
  - destruct (IH (n + 6)%nat) as [Hl Hall]. split; [rewrite Hl; reflexivity|].
    constructor; [|exact Hall].
    unfold inView. cbn [x y vx vy r hue].
    destruct (Hrand n) as [A0 A1]. destruct (Hrand (n + 1)%nat) as [B0 B1].
    destruct (Hrand (n + 2)%nat) as [C0 C1]. destruct (Hrand (n + 3)%nat) as [D0 D1].
    destruct (Hrand (n + 4)%nat) as [E0 E1]. destruct (Hrand (n + 5)%nat) as [F0 F1].
    pose proof (SamplerFacts.rnd_inside 0 w _ Hw A0 A1).
    pose proof (SamplerFacts.rnd_inside 0 h _ Hh B0 B1).
    assert (Hs : - particleMaxSpeed <= particleMaxSpeed)
      by (unfold particleMaxSpeed; lra).
    pose proof (SamplerFacts.rnd_inside _ _ _ Hs C0 C1).
    pose proof (SamplerFacts.rnd_inside _ _ _ Hs D0 D1).
    pose proof (SamplerFacts.rnd_inside 1.0 2.3 _ ltac:(lra) E0 E1).
    pose proof (SamplerFacts.rnd_inside 190 320 _ ltac:(lra) F0 F1).
    repeat split; lra.
Qed.

Lemma moveParticles_inView (w h : Q) (ps : list Particle) :
  0 <= w -> 0 <= h -> Forall (inView w h) ps ->
  Forall (inView w h) (moveParticles w h ps).
Proof.
  intros Hw Hh Hall. unfold moveParticles. apply Forall_map.
  eapply Forall_impl; [|exact Hall]. intros p (_ & _ & Hvx & Hvy & Hr & Hhue).
  apply moveParticle_inView; assumption.
Qed.

Lemma spawn_inViewport (w h : Q) (rand : nat -> Q) (count : nat) :
  Sampler.unitRandom rand -> 0 <= w -> 0 <= h ->
  forall n, Forall (inViewport w h) (spawn w h rand count n).
Proof.
  intros Hrand Hw Hh. induction count as [|c IH]; intros n; simpl.
  - constructor.
  - constructor; [|apply IH].
    unfold inViewport. cbn [x y].
    destruct (Hrand n) as [A0 A1]. destruct (Hrand (n + 1)%nat) as [B0 B1].
    pose proof (SamplerFacts.rnd_inside 0 w _ Hw A0 A1).
    pose proof (SamplerFacts.rnd_inside 0 h _ Hh B0 B1).
    tauto.
Qed.

(** X17. The particle field stays in view: [initParticles] creates 160
    particles inside the viewport, with speed components within
    [particleMaxSpeed], and after any number of frames there are still 160 of
    them, each within 20 pixels of the viewport and with its speed, radius
    and hue in the ranges it was created in.  A single move brings any
    particle into the padded viewport, wherever it was. *)
Theorem particles_stay_in_view (w h : Q) (rand : nat -> Q) (frames : nat) :
  Sampler.unitRandom rand -> 0 <= w -> 0 <= h ->
  let ps := Nat.iter frames (moveParticles w h) (initParticles w h rand) in
  Forall (inViewport w h) (initParticles w h rand) /\
  length ps = particleCount /\ Forall (inView w h) ps /\
  (forall p, (-20 <= x (moveParticle w h p) /\ x (moveParticle w h p) <= w + 20) /\
             (-20 <= y (moveParticle w h p) /\ y (moveParticle w h p) <= h + 20)).
Proof.
  intros Hrand Hw Hh. cbv zeta.
  split; [apply (spawn_inViewport w h rand particleCount Hrand Hw Hh 0%nat)|].
  assert (H : length (Nat.iter frames (moveParticles w h) (initParticles w h rand))
              = particleCount /\
              Forall (inView w h)
                     (Nat.iter frames (moveParticles w h) (initParticles w h rand))).
  { induction frames as [|k IH]; simpl.
    - apply (spawn_inView w h rand particleCount Hrand Hw Hh 0%nat).
    - destruct IH as [Hl Hall]. split.
      + unfold moveParticles at 1. rewrite length_map. exact Hl.
      + apply moveParticles_inView; assumption. }
  destruct H as [Hl Hall]. split; [exact Hl|]. split; [exact Hall|].
  intros p. unfold moveParticle. cbn [x y].
  split; apply wrapAround_inside; assumption.
Qed.

Lemma particles_stay_in_view_witness :
  Sampler.unitRandom (fun _ => 1 # 2) /\ 0 <= 800 /\ 0 <= 600 /\
  Forall (inViewport 800 600) (initParticles 800 600 (fun _ => 1 # 2)) /\
  length (Nat.iter 3 (moveParticles 800 600) (initParticles 800 600 (fun _ => 1 # 2)))
  = particleCount.
Proof.
  assert (Hw : 0 <= 800) by discriminate.
  assert (Hh : 0 <= 600) by discriminate.
  split; [exact SamplerFacts.halves_are_unit|]. split; [exact Hw|]. split; [exact Hh|].
  destruct (particles_stay_in_view 800 600 (fun _ => 1 # 2) 3
              SamplerFacts.halves_are_unit Hw Hh) as (Hin & Hl & _).
  split; [exact Hin|exact Hl].
Defined.

End ParticleFacts.

(** * Rendering the tail: facts *)

Module TailRenderFacts.
Import TailRender.

Lemma fade_inside (i n : nat) :
  (1 <= i)%nat -> (i < n)%nat ->
  0 < inject_Z (Z.of_nat i) / inject_Z (Z.of_nat n) /\
  inject_Z (Z.of_nat i) / inject_Z (Z.of_nat n) < 1.
Proof.
  intros H1 H2.
  assert (Hi : 0 < inject_Z (Z.of_nat i))
    by (change 0 with (inject_Z 0); rewrite <- Zlt_Qlt; lia).
  assert (Hn : 0 < inject_Z (Z.of_nat n))
    by (change 0 with (inject_Z 0); rewrite <- Zlt_Qlt; lia).
  assert (Hin : inject_Z (Z.of_nat i) < inject_Z (Z.of_nat n))
    by (rewrite <- Zlt_Qlt; lia).
  split.
  - apply Qlt_shift_div_l; [exact Hn|]. lra.
  - apply Qlt_shift_div_r; [exact Hn|]. lra.
Qed.

Lemma strokes_spec (tail : list Point) (n : nat) :
  forall i,
    (1 <= i)%nat -> (i + n <= length tail)%nat ->
    exists ss,
      strokes tail n i = Ok ss /\
      map start ss = firstn n (skipn (i - 1) tail) /\
      map stop ss = firstn n (skipn i tail) /\
      Forall (fun s => 0.35 * outerAlpha < outerA s /\ outerA s < outerAlpha /\
                       0.35 * midAlpha < midA s /\ midA s < midAlpha /\
                       0.40 * coreAlpha < coreA s /\ coreA s < coreAlpha) ss.
Proof.
  induction n as [|n IH]; intros i Hi Hn; simpl.
  - exists []. repeat split; constructor.
  - destruct (nth_error tail (i - 1)) as [a|] eqn:Ha;
      [|apply nth_error_None in Ha; lia].
    destruct (nth_error tail i) as [b|] eqn:Hb;
      [|apply nth_error_None in Hb; lia].
    rewrite (BeamFacts.readAt_some _ _ _ Ha), (BeamFacts.readAt_some _ _ _ Hb).
    simpl bind.
    destruct (IH (S i) ltac:(lia) ltac:(lia)) as (ss & E & Hs & Ht & Hall).
    rewrite E. simpl bind. eexists. split; [reflexivity|].
    simpl map. rewrite Hs, Ht.
    rewrite (SweepOrder.skipn_nth_error tail (i - 1) a Ha).
    rewrite (SweepOrder.skipn_nth_error tail i b Hb).
    replace (S (i - 1)) with i by lia. replace (S i - 1)%nat with i by lia.
    rewrite (SweepOrder.skipn_nth_error tail i b Hb).
    split; [reflexivity|]. split; [reflexivity|].
    constructor; [|exact Hall]. cbn [outerA midA coreA].
    destruct (fade_inside i (length tail) Hi ltac:(lia)) as [H0 H1].
    set (t := inject_Z (Z.of_nat i) / inject_Z (Z.of_nat (length tail))) in *.
    clearbody t. unfold outerAlpha, midAlpha, coreAlpha. repeat split; lra.
Qed.

(** X18. [renderTail] never reads outside the tail.  With fewer than two
    entries it draws nothing.  Otherwise it draws one segment for every two
    consecutive entries, oldest first, each with alphas strictly between the
    faded and the configured value, and puts the hotspot on the newest
    entry. *)
Theorem renderTail_draws_the_chain (tail : list Point) :
  exists ss hot,
    renderTail tail = Ok (ss, hot) /\
    ((length tail < 2)%nat -> ss = [] /\ hot = None) /\
    ((2 <= length tail)%nat ->
     map start ss = firstn (length tail - 1) tail /\
     map stop ss = tl tail /\
     hot = Some (nth (length tail - 2) tail origin, nth (length tail - 1) tail origin) /\
     Forall (fun s => 0.35 * outerAlpha < outerA s /\ outerA s < outerAlpha /\
                      0.35 * midAlpha < midA s /\ midA s < midAlpha /\
                      0.40 * coreAlpha < coreA s /\ coreA s < coreAlpha) ss).
Proof.
  unfold renderTail. destruct (length tail <? 2)%nat eqn:E.
  - apply Nat.ltb_lt in E. exists [], None.
    split; [reflexivity|]. split; [tauto|]. intros H. lia.
  - apply Nat.ltb_ge in E.
    destruct (strokes_spec tail (length tail - 1) 1 ltac:(lia) ltac:(lia))
      as (ss & Es & Hs & Ht & Hall).
    rewrite Es. simpl bind.
    rewrite (BeamFacts.readAt_some tail (length tail - 1)
               (nth (length tail - 1) tail origin))
      by (apply nth_error_nth'; lia).
    simpl bind.
    rewrite (BeamFacts.readAt_some tail (length tail - 2)
               (nth (length tail - 2) tail origin))
      by (apply nth_error_nth'; lia).
    simpl bind. eexists. eexists. split; [reflexivity|].
    split; [intros H; lia|]. intros _.
    split; [exact Hs|]. split; [|split; [reflexivity|exact Hall]].
    rewrite Ht. destruct tail as [|p tl0]; [simpl in E; lia|].
    simpl. replace (length tl0 - 0)%nat with (length tl0) by lia.
    apply firstn_all.
Qed.

Lemma renderTail_draws_the_chain_witness :
  let tail := [mkPoint 0 0; mkPoint 3 4; mkPoint 6 8] in
  (2 <= length tail)%nat /\
  exists ss hot,
    renderTail tail = Ok (ss, hot) /\
    map start ss = firstn (length tail - 1) tail /\ map stop ss = tl tail.
Proof.
  cbv zeta.
  assert (H : (2 <= length [mkPoint 0 0; mkPoint 3 4; mkPoint 6 8])%nat)
    by (simpl; lia).
  split; [exact H|].
  destruct (renderTail_draws_the_chain [mkPoint 0 0; mkPoint 3 4; mkPoint 6 8])
    as (ss & hot & E & _ & Hlong).
  exists ss, hot. split; [exact E|].
  destruct (Hlong H) as (Hs & Ht & _). split; [exact Hs|exact Ht].
Defined.

End TailRenderFacts.

(** * [buildLetters] as a whole: facts *)

Module BuildFacts.
Import String Ascii Build.

Section BuildLettersFacts.

Variable measure : string -> Q.
Variable glyph : ascii -> Z -> nat -> nat -> list Z.
Variable rand : nat -> Q.
Variables w h : Q.

Hypothesis rand_unit : Sampler.unitRandom rand.
Hypothesis measure_bound : forall ch, measure (String ch "") <= 90000.

Lemma pad_bound : (pad w <= 34)%Z.
Proof.
  unfold pad, fs. change 34%Z with (Qceiling (96 * 0.35)).
  apply Qceiling_resp_le.
  destruct (LayoutFacts.clamp_inside (inject_Z (Qfloor (w * 0.082))) 30 96
              ltac:(lra)) as [_ H].
  unfold Layout.fontSize2. lra.
Qed.

Lemma boxOf_bound (extent : Q) :
  extent <= 90000 -> (Z.of_nat (boxOf w extent) <= 100000)%Z.
Proof.
  intros He. unfold boxOf. rewrite Z2Nat.id by lia.
  assert (Hc : (Qceiling (extent + inject_Z (pad w) * 2) <= 90068)%Z).
  { change 90068%Z with (Qceiling 90068). apply Qceiling_resp_le.
    pose proof pad_bound as Hp. rewrite Zle_Qle in Hp.
    change (inject_Z 34) with 34 in Hp.
    set (pq := inject_Z (pad w)) in *. clearbody pq. lra. }
  lia.
Qed.

Lemma lh_bound : lh w <= 90000.
Proof.
  unfold lh, fs.
  destruct (LayoutFacts.clamp_inside (inject_Z (Qfloor (w * 0.082))) 30 96
              ltac:(lra)) as [_ H].
  unfold Layout.fontSize2. lra.
Qed.

Lemma samplesOf_letter (ch : ascii) (x y : Q) (n : nat) :
  letterOf measure glyph rand w ch
           (Beam.mkLetter (Beam.orderLetter (samplesOf measure glyph rand w ch x y n))).
Proof.
  exists x, y, n.
  assert (Hbox : inBox (samplesOf measure glyph rand w ch x y n)).
  { unfold samplesOf. cbv zeta. apply SamplerFacts.sampleChar_inBox.
    - intros k. apply rand_unit.
    - apply boxOf_bound. apply measure_bound.
    - apply boxOf_bound. apply lh_bound. }
  split; [reflexivity|]. split; [exact Hbox|].
  apply OrderFacts.orderLetter_perm. exact Hbox.
Qed.

Lemma buildChars_spec (chars : list ascii) :
  forall x y n,
    Forall2 (letterOf measure glyph rand w)
            (filter (fun ch => negb (isSpace ch)) chars)
            (fst (buildChars measure glyph rand w chars x y n)).
Proof.
  induction chars as [|ch rest IH]; intros x y n; simpl; [constructor|].
  destruct (isSpace ch); simpl; [apply IH|].
  constructor; [apply samplesOf_letter|apply IH].
Qed.

Lemma buildLines_spec (lines : list string) (startY : Q) :
  forall li n,
    Forall2 (letterOf measure glyph rand w) (inked lines)
            (buildLines measure glyph rand w lines li startY n).
Proof.
  induction lines as [|line rest IH]; intros li n; simpl; [constructor|].
  unfold inked in *. simpl. rewrite filter_app.
  apply Forall2_app; [apply buildChars_spec|apply IH].
Qed.

(** X19. [buildLetters] stores one letter for every character of the wrapped
    lines that is not a space, in the order of the text, whatever the
    viewport, the font metrics, the rasters and the random numbers: the
    points of each letter are the chained samples of its character, a
    permutation of them.  It leaves the draw state reset and the written
    buffer empty. *)
Theorem buildLetters_one_letter_per_character (words : list string) :
  let s := buildLetters measure glyph rand w h words in
  Forall2 (letterOf measure glyph rand w)
          (inked (linesOf measure w words)) (Beam.letters s) /\
  List.length (Beam.letters s) = List.length (inked (linesOf measure w words)) /\
  Beam.Reachable s /\
  Beam.curL s = 0%nat /\ Beam.tip s = None /\ Beam.tail s = [] /\ Beam.ink s = [].
Proof.
  cbv zeta. unfold buildLetters. cbv zeta.
  pose proof (buildLines_spec (linesOf measure w words)
                (h / 2 - (inject_Z (Z.of_nat (List.length (linesOf measure w words)))
                          * lh w - lh w) / 2) 0 0) as H.
  split; [exact H|]. split; [symmetry; apply (Forall2_length H)|].
  split; [apply Beam.reach_build|]. simpl. tauto.
Qed.

End BuildLettersFacts.

Lemma buildLetters_one_letter_per_character_witness :
  let measure := fun s : string => inject_Z (Z.of_nat (String.length s)) * 10 in
  let glyph := fun (_ : ascii) (_ : Z) (bw bh : nat) => repeat 255%Z (4 * bw * bh) in
  let rand := fun _ : nat => 1 # 2 in
  Sampler.unitRandom rand /\
  (forall ch, measure (String ch "") <= 90000) /\
  List.length (Beam.letters (buildLetters measure glyph rand 800 600 ["Hi"%string; "x"%string]))
  = List.length (inked (linesOf measure 800 ["Hi"%string; "x"%string])).
Proof.
  cbv zeta.
  assert (Hm : forall ch : ascii,
            inject_Z (Z.of_nat (String.length (String ch ""))) * 10 <= 90000)
    by (intros ch; simpl; discriminate).
  split; [exact SamplerFacts.halves_are_unit|]. split; [exact Hm|].
  exact (proj1 (proj2 (buildLetters_one_letter_per_character
                         (fun s : string => inject_Z (Z.of_nat (String.length s)) * 10)
                         (fun (_ : ascii) (_ : Z) (bw bh : nat) =>
                            repeat 255%Z (4 * bw * bh))
                         (fun _ : nat => 1 # 2) 800 600
                         SamplerFacts.halves_are_unit Hm
                         ["Hi"%string; "x"%string]))).
Defined.

End BuildFacts.
